(** * json_access_helper: typed accessors over a JSON document

    The header [json_access_helper.hpp] expands, for a tag bound to a value
    type [Type] and a JSON-pointer string [Key], into the functions [read],
    [try_read], [write], [emplace], [reference] and [path].  Each of them is a
    few lines over Boost.JSON: [find_pointer], [at_pointer], [set_at_pointer],
    [value_from], [value_to] and [try_value_to].

    Definitions:
    - [Json]        the document tree, error codes, addresses of nodes;
    - [Pointer]     the JSON-pointer walks of Boost.JSON the accessors call;
    - [Conversion]  [value_from] and [try_value_to] per bound value type;
    - [Accessor]    the functions of the header, one definition per overload;
    - [Tokens]      well-formed pointers as token lists, and the walks on them;
    - [TestSuite]   the documents and tags of [json_helper_test.cpp].

    Facts:
    - [AddressFacts], [WalkFacts], [LibraryFacts], [ConversionFacts],
      [EmplaceFacts] and [ComposeFacts] about the library calls;
    - [AccessorSpec] and [AccessorLaws] about the accessors.  *)

From Stdlib Require Import ZArith NArith Ascii String SpecFloat.
From stdpp Require Import base option list strings gmap fin_maps.

#[local] Set Warnings "-register-all".
#[local] Open Scope string_scope.
#[local] Open Scope list_scope.

(** ** The document model *)

Module Json.

(** [boost::json::error], the codes a pointer walk or a conversion reports. *)
Inductive error : Set :=
| missing_slash
| invalid_escape
| token_not_number
| value_is_scalar
| not_found
| token_overflow
| past_the_end
| not_number
| not_exact
| not_null
| not_bool
| not_array
| not_object
| not_string
| not_int64
| not_uint64
| not_double
| size_mismatch
| exhausted_variants
| unknown_name.

#[global] Instance error_eq_dec : EqDecision error.
Proof. solve_decision. Defined.

(** [system::error_code]: [None] is the cleared code. *)
Definition error_code : Set := option error.

Definition failed (ec : error_code) : bool :=
  match ec with Some _ => true | None => false end.

(** [BOOST_JSON_FAIL(ec, e)] *)
Definition FAIL (e : error) : error_code := Some e.

(** The codes listed in [error.hpp] as JSON Pointer errors: what a walk
    reports when it does not arrive. *)
Definition pointer_error (e : error) : bool :=
  match e with
  | missing_slash | invalid_escape | token_not_number | value_is_scalar
  | not_found | token_overflow | past_the_end => true
  | _ => false
  end.

(** The codes of [condition::pointer_use_error]: the pointer is well formed
    and the document has no node for it. *)
Definition pointer_use_error (e : error) : bool :=
  match e with
  | token_not_number | value_is_scalar | not_found | token_overflow
  | past_the_end => true
  | _ => false
  end.

(** The codes of [condition::conversion_error]. *)
Definition conversion_error (e : error) : bool :=
  match e with
  | not_number | not_exact | not_null | not_bool | not_array | not_object
  | not_string | not_int64 | not_uint64 | not_double | size_mismatch
  | exhausted_variants | unknown_name => true
  | _ => false
  end.

(** The two kinds of failure an accessor reports: the path does not lead to
    a node of the document, or the node it leads to does not convert to the
    bound value type. *)
Definition NotFound (ec : error_code) : bool :=
  match ec with
  | Some e => pointer_error e
  | None => false
  end.

Definition TypeMismatch (ec : error_code) : bool :=
  match ec with
  | Some e => conversion_error e
  | None => false
  end.

(** [boost::json::value]: the kinds of [boost::json::kind].  An object has
    unique keys and compares equal to another object with the same members
    in any order, which is the equality of [gmap]. *)
Inductive value :=
| JNull
| JBool (b : bool)
| JInt64 (i : Z)
| JUint64 (u : N)
| JDouble (d : spec_float)
| JString (s : string)
| JArray (arr : list value)
| JObject (obj : gmap string value).

#[global] Instance value_inhabited : Inhabited value := populate JNull.

Definition is_null (jv : value) : bool :=
  match jv with JNull => true | _ => false end.

(** A [value*] into a document is the address of a node: the member keys and
    element positions that lead from the root to it.  [nullptr] is [None]. *)
Inductive step :=
| key (k : string)
| index (i : nat).

#[global] Instance step_eq_dec : EqDecision step.
Proof. solve_decision. Defined.

Definition pointer := list step.

(** [*p], read. *)
Fixpoint deref (jv : value) (p : pointer) : option value :=
  match p with
  | [] => Some jv
  | key k :: p' =>
      match jv with
      | JObject obj => obj !! k ≫= λ child, deref child p'
      | _ => None
      end
  | index i :: p' =>
      match jv with
      | JArray arr => arr !! i ≫= λ child, deref child p'
      | _ => None
      end
  end.

(** [*p = new], the document after the assignment.  Nothing else of the
    document is rebuilt; a pointer that addresses no node assigns nothing. *)
Fixpoint assign (jv : value) (p : pointer) (new : value) : value :=
  match p with
  | [] => new
  | key k :: p' =>
      match jv with
      | JObject obj =>
          match obj !! k with
          | Some child => JObject (<[k := assign child p' new]> obj)
          | None => jv
          end
      | _ => jv
      end
  | index i :: p' =>
      match jv with
      | JArray arr =>
          match arr !! i with
          | Some child => JArray (<[i := assign child p' new]> arr)
          | None => jv
          end
      | _ => jv
      end
  end.

(** Two addresses neither of which lies on the way to the other. *)
Definition apart (p q : pointer) : Prop :=
  ¬ p `prefix_of` q ∧ ¬ q `prefix_of` p.

(** Two containers of one kind with the same member keys, or the same
    number of elements. *)
Definition same_shape (a b : value) : Prop :=
  match a, b with
  | JObject obj, JObject obj' => dom obj = dom obj'
  | JArray arr, JArray arr' => length arr = length arr'
  | _, _ => False
  end.

(** [q] is a position in front of the one [p] takes, in an array [p] goes
    through: where an array that grows to hold the element [p] takes is
    padded. *)
Fixpoint padding (p q : pointer) : bool :=
  match p, q with
  | key k :: p', key k' :: q' => bool_decide (k = k') && padding p' q'
  | index n :: p', index i :: q' =>
      if bool_decide (i = n) then padding p' q'
      else bool_decide (q' = []) && bool_decide (i < n)%nat
  | _, _ => false
  end.

(** The document [jv] seen at [q] once the way to [p] has been made in it:
    the node at [q], or a null where an array was padded and [jv] had no
    node. *)
Definition off_path (jv : value) (p q : pointer) : option value :=
  match deref jv q with
  | Some n => Some n
  | None => if padding p q then Some JNull else None
  end.

(** The two channels an operation reports through: [result] is
    [boost::json::result<T>], a value or an error code handed back to the
    caller; [outcome] is a call that returns or throws [system_error]. *)
Inductive result (T : Type) :=
| Ok (v : T)
| Err (ec : error_code).

Inductive outcome (T : Type) :=
| Returns (v : T)
| Throws (ec : error_code).

#[global] Arguments Ok {T} v.
#[global] Arguments Err {T} ec.
#[global] Arguments Returns {T} v.
#[global] Arguments Throws {T} ec.

(** [result<T>::value()]: the value, or throw the error. *)
Definition result_value {T} (r : result T) : outcome T :=
  match r with
  | Ok v => Returns v
  | Err ec => Throws ec
  end.

(** The outcome of a call made on a node inside a document, seen from the
    document: what it returns is carried over, what it throws is thrown. *)
Definition outcome_map {A B} (f : A → B) (o : outcome A) : outcome B :=
  match o with
  | Returns a => Returns (f a)
  | Throws ec => Throws ec
  end.

End Json.

(** ** The JSON-pointer walk of Boost.JSON

    [value::find_pointer], [value::at_pointer] and [value::set_at_pointer]
    are instances of one loop, [detail::walk_pointer], which cuts the
    pointer string into segments with [detail::next_segment] and descends
    one level per segment. *)

Module Pointer.
Import Json.

(** The scan of [next_segment] after the leading slash: the characters of
    the segment, the unread rest of the pointer, and [invalid_escape] when a
    tilde is followed by neither 0 nor 1. *)
Fixpoint scan_segment (s : string) : string * string * error_code :=
  match s with
  | "" => ("", "", None)
  | String c s' =>
      if Ascii.eqb c "/" then ("", s, None)
      else if Ascii.eqb c "~" then
        match s' with
        | "" => (String c "", "", FAIL invalid_escape)
        | String c' s'' =>
            if Ascii.eqb c' "0" || Ascii.eqb c' "1" then
              let '(seg, rest, ec) := scan_segment s'' in
              (String c (String c' seg), rest, ec)
            else (String c "", s', FAIL invalid_escape)
        end
      else
        let '(seg, rest, ec) := scan_segment s' in
        (String c seg, rest, ec)
  end.

(** [detail::next_segment(sv, ec)]: the next segment with its slash, the
    pointer with that segment removed, and the error code, which is only
    written on failure.  An exhausted pointer gives the empty segment. *)
Definition next_segment (sv : string) (ec : error_code)
  : string * string * error_code :=
  match sv with
  | "" => ("", "", ec)
  | String c s =>
      if Ascii.eqb c "/" then
        let '(seg, rest, ec') := scan_segment s in
        (String c seg, rest, if failed ec' then ec' else ec)
      else ("", sv, FAIL missing_slash)
  end.

(** The characters a [detail::pointer_token] iterates over: the segment
    without its slash, [~0] read as a tilde and [~1] as a slash. *)
Fixpoint unescape (s : string) : string :=
  match s with
  | "" => ""
  | String c s' =>
      if Ascii.eqb c "~" then
        match s' with
        | String c' s'' =>
            String (if Ascii.eqb c' "0" then "~" else "/")%char (unescape s'')
        | "" => String c ""
        end
      else String c (unescape s')
  end.

Definition pointer_token (segment : string) : string :=
  match segment with
  | String _ s => unescape s
  | "" => ""
  end.

(** [std::size_t], 64 bits wide. *)
Definition size_t_modulus : N := 2 ^ 64.

Definition is_digit (c : ascii) : bool :=
  (48 <=? nat_of_ascii c)%nat && (nat_of_ascii c <=? 57)%nat.

Definition digit_value (c : ascii) : N := N.of_nat (nat_of_ascii c - 48).

(** The digit loop of [parse_number_token]; the product wraps around and the
    loop reports [token_overflow] when the wrapped number is smaller. *)
Fixpoint parse_digits (s : string) (result : N) (ec : error_code)
  : N * error_code :=
  match s with
  | "" => (result, ec)
  | String c s' =>
      if is_digit c then
        let new_result := ((result * 10 + digit_value c) mod size_t_modulus)%N in
        if (new_result <? result)%N then (0%N, FAIL token_overflow)
        else parse_digits s' new_result ec
      else (0%N, FAIL token_not_number)
  end.

(** [is_invalid_zero]: a 0 followed by more characters. *)
Definition is_invalid_zero (s : string) : bool :=
  match s with
  | String c (String _ _) => Ascii.eqb c "0"
  | _ => false
  end.

(** [is_past_the_end_token]: the token is exactly [-]. *)
Definition is_past_the_end_token (s : string) : bool :=
  match s with
  | String c "" => Ascii.eqb c "-"
  | _ => false
  end.

(** [detail::parse_number_token(segment, ec)] *)
Definition parse_number_token (segment : string) (ec : error_code)
  : N * error_code :=
  let s := match segment with String _ s => s | "" => "" end in
  if bool_decide (s = "") || is_invalid_zero s then (0%N, FAIL token_not_number)
  else if is_past_the_end_token s then (0%N, FAIL past_the_end)
  else parse_digits s 0%N ec.

(** [array::if_contains(index)] *)
Definition if_contains (arr : list value) (idx : N) : option value :=
  if (idx <? N.of_nat (length arr))%N then arr !! N.to_nat idx else None.

(** [walk_pointer] with the callbacks of the const [find_pointer]: an
    object is searched for the token, an array is indexed when the token
    parsed as a number, every other kind stops the walk with
    [value_is_scalar].  [result] is the node the walk stands on, [None] when
    the last lookup found nothing; the pointer returned is relative to the
    node the walk started from.  [fuel] bounds the iterations of the loop;
    [None] is a loop cut short, which [find_walk_fuel] excludes. *)
Fixpoint find_walk (fuel : nat) (result : option value)
    (segment sv : string) (ec : error_code)
  : option (option pointer * error_code) :=
  match fuel with
  | 0 => None
  | S fuel =>
      if failed ec then Some (None, ec)
      else
        match result with
        | None => Some (None, FAIL not_found)
        | Some jv =>
            if bool_decide (segment = "") then Some (Some [], ec)
            else
              match jv with
              | JObject obj =>
                  let token := pointer_token segment in
                  let '(segment', sv', ec') := next_segment sv ec in
                  match find_walk fuel (obj !! token) segment' sv' ec' with
                  | Some (r, ec'') =>
                      Some (option_map (λ p, key token :: p) r, ec'')
                  | None => None
                  end
              | JArray arr =>
                  let '(idx, ec1) := parse_number_token segment ec in
                  let '(segment', sv', ec2) := next_segment sv ec1 in
                  let child :=
                    if failed ec2 then None else if_contains arr idx in
                  match find_walk fuel child segment' sv' ec2 with
                  | Some (r, ec3) =>
                      Some (option_map (λ p, index (N.to_nat idx) :: p) r, ec3)
                  | None => None
                  end
              | _ => Some (None, FAIL value_is_scalar)
              end
        end
  end.

(** Iterations that suffice for a pointer string: every iteration but the
    last removes at least one character. *)
Definition walk_fuel (sv : string) : nat := S (String.length sv).

(** [value::find_pointer(sv, ec) const]: the node and the error code. *)
Definition find_pointer (jv : value) (sv : string)
  : option pointer * error_code :=
  let '(segment, sv', ec) := next_segment sv None in
  default (None, FAIL not_found)
          (find_walk (walk_fuel sv) (Some jv) segment sv' ec).

(** [value::at_pointer(sv) const]: the node, or throw the error code. *)
Definition at_pointer (jv : value) (sv : string) : outcome pointer :=
  match find_pointer jv sv with
  | (Some p, _) => Returns p
  | (None, ec) => Throws ec
  end.

(** The pointer [sv] resolves in [jv] to the node at address [p]. *)
Definition resolves (jv : value) (sv : string) (p : pointer) : Prop :=
  (find_pointer jv sv).1 = Some p.

(** Some segment of [sv] is missing in [jv]: the walk does not arrive. *)
Definition unresolved (jv : value) (sv : string) : Prop :=
  (find_pointer jv sv).1 = None.

(** A pointer that can follow another pointer: it is empty or begins with
    a slash. *)
Definition slash_led (sv : string) : bool :=
  match sv with
  | "" => true
  | String c _ => Ascii.eqb c "/"
  end.

(** [struct set_pointer_options] and its default member initialisers. *)
Record set_pointer_options := {
  create_arrays : bool;
  create_objects : bool;
  replace_any_scalar : bool;
  max_created_elements : N;
}.

Definition default_options : set_pointer_options := {|
  create_arrays := true;
  create_objects := true;
  replace_any_scalar := false;
  max_created_elements := 2;
|}.

(** The array callback of [set_at_pointer]: the array after the call, the
    position of the element to descend into, and the error code.  A
    past-the-end token addresses the position after the last element; a
    position beyond the last element grows the array with nulls, by at most
    [max_created_elements]. *)
Definition set_on_array (opts : set_pointer_options)
    (arr : list value) (idx : N) (ec : error_code)
  : list value * option nat * error_code :=
  if failed ec && negb (bool_decide (ec = FAIL past_the_end)) then
    (arr, None, ec)
  else
    let idx :=
      if bool_decide (ec = FAIL past_the_end) then N.of_nat (length arr)
      else idx in
    if (N.of_nat (length arr) <=? idx)%N then
      let n := (idx - N.of_nat (length arr))%N in
      if (n <? max_created_elements opts)%N then
        (arr ++ replicate (S (N.to_nat n)) JNull, Some (N.to_nat idx), None)
      else (arr, None, FAIL past_the_end)
    else (arr, Some (N.to_nat idx), None).

(** The scalar callback of [set_at_pointer]: a null (any scalar under
    [replace_any_scalar]) becomes an empty array when the segment is a number
    or the past-the-end token, an empty object otherwise; the flag tells the
    loop to look at the node again. *)
Definition set_on_scalar (opts : set_pointer_options)
    (jv : value) (segment : string) : value * bool :=
  if is_null jv || replace_any_scalar opts then
    let ec := snd (parse_number_token segment None) in
    if create_arrays opts
       && (negb (failed ec) || bool_decide (ec = FAIL past_the_end))
    then (JArray [], true)
    else if create_objects opts then (JObject ∅, true)
    else (jv, false)
  else (jv, false).

(** [walk_pointer] with the callbacks of [set_at_pointer].  The walk writes
    into the document as it goes, so it returns the document after the walk
    next to the pointer and the error code: what it created stays when a
    later segment fails. *)
Fixpoint set_walk (opts : set_pointer_options) (fuel : nat) (jv : value)
    (segment sv : string) (ec : error_code)
  : option (value * option pointer * error_code) :=
  match fuel with
  | 0 => None
  | S fuel =>
      if failed ec then Some (jv, None, ec)
      else if bool_decide (segment = "") then Some (jv, Some [], ec)
      else
        match jv with
        | JObject obj =>
            let token := pointer_token segment in
            let '(segment', sv', ec') := next_segment sv ec in
            let child := default JNull (obj !! token) in
            match set_walk opts fuel child segment' sv' ec' with
            | Some (child', r, ec'') =>
                Some (JObject (<[token := child']> obj),
                      option_map (λ p, key token :: p) r, ec'')
            | None => None
            end
        | JArray arr =>
            let '(idx, ec1) := parse_number_token segment ec in
            let '(segment', sv', ec2) := next_segment sv ec1 in
            match set_on_array opts arr idx ec2 with
            | (arr', Some i, ec3) =>
                match set_walk opts fuel (arr' !!! i) segment' sv' ec3 with
                | Some (child', r, ec4) =>
                    Some (JArray (<[i := child']> arr'),
                          option_map (λ p, index i :: p) r, ec4)
                | None => None
                end
            | (arr', None, ec3) =>
                Some (JArray arr', None,
                      if failed ec3 then ec3 else FAIL not_found)
            end
        | _ =>
            match set_on_scalar opts jv segment with
            | (jv', true) => set_walk opts fuel jv' segment sv ec
            | (jv', false) => Some (jv', None, FAIL value_is_scalar)
            end
        end
  end.

(** The result of a creating walk that started from the node at [q], seen
    from the document. *)
Definition set_walk_at (jv : value) (q : pointer)
    (x : option (value * option pointer * error_code))
  : option (value * option pointer * error_code) :=
  match x with
  | Some (w, r, e) => Some (assign jv q w, option_map (app q) r, e)
  | None => None
  end.

(** A null is looked at twice, once to replace it and once to descend. *)
Definition set_fuel (sv : string) : nat := 2 * String.length sv + 2.

(** The extra look a node that is not a container costs the loop. *)
Definition scalar_weight (jv : value) : nat :=
  match jv with
  | JObject _ | JArray _ => 0
  | _ => 1
  end.

(** The error code at any point of a walk: cleared, or a JSON Pointer
    error. *)
Definition clear_or_pointer_error (ec : error_code) : Prop :=
  ec = None ∨ NotFound ec.

(** [value::set_at_pointer(sv, ref, ec, opts)]: the document after the call,
    the node that was assigned, and the error code.  The assignment happens
    only when the walk arrived. *)
Definition set_at_pointer_ec (jv : value) (sv : string) (ref : value)
    (opts : set_pointer_options) : value * option pointer * error_code :=
  let '(segment, sv', ec) := next_segment sv None in
  match set_walk opts (set_fuel sv) jv segment sv' ec with
  | Some (jv', Some p, ec') => (assign jv' p ref, Some p, ec')
  | Some (jv', None, ec') => (jv', None, ec')
  | None => (jv, None, FAIL not_found)
  end.

(** [value::set_at_pointer(sv, ref, opts)]: the throwing overload. *)
Definition set_at_pointer (jv : value) (sv : string) (ref : value)
    (opts : set_pointer_options) : value * outcome pointer :=
  match set_at_pointer_ec jv sv ref opts with
  | (jv', Some p, _) => (jv', Returns p)
  | (jv', None, ec) => (jv', Throws ec)
  end.

End Pointer.

(** ** Conversions between documents and bound value types

    [value_from] and [try_value_to] are found per type, as the library finds
    them by overload resolution; [value_to] for the library's own
    conversions is [try_value_to(...).value()]. *)

Module Conversion.
Import Json.

Class JsonType (T : Type) := {
  value_from : T → value;
  try_value_to : value → result T;
}.

Definition value_to {T} `{!JsonType T} (jv : value) : outcome T :=
  result_value (try_value_to jv).

(** [std::string]: the string-like conversion. *)
#[global] Instance string_json : JsonType string := {|
  value_from s := JString s;
  try_value_to jv :=
    match jv with
    | JString s => Ok s
    | _ => Err (FAIL not_string)
    end;
|}.

Definition INT_MIN : Z := - 2 ^ 31.
Definition INT_MAX : Z := 2 ^ 31 - 1.

Definition int_range (z : Z) : bool :=
  (INT_MIN <=? z)%Z && (z <=? INT_MAX)%Z.

(** [int]: the integers from [INT_MIN] to [INT_MAX] and no others.  For a
    literal [z] in that range, [Int z I] is the [int] it denotes. *)
Record int := Int {
  int_value : Z;
  int_in_range : Is_true (int_range int_value);
}.

(** The [int] that holds [z] exactly, when there is one. *)
Definition int_exact (z : Z) : option int :=
  match int_range z as b return (Is_true b → int) → option int with
  | true => λ in_range, Some (in_range I)
  | false => λ _, None
  end (Int z).

(** The integer a double holds, when it holds one exactly. *)
Definition double_integer (d : spec_float) : option Z :=
  match d with
  | S754_zero _ => Some 0%Z
  | S754_finite s m e =>
      let magnitude :=
        if (0 <=? e)%Z then Some (Z.pos m * 2 ^ e)%Z
        else if (Z.pos m mod 2 ^ (- e) =? 0)%Z then Some (Z.pos m / 2 ^ (- e))%Z
        else None in
      (λ z, if s then (- z)%Z else z) <$> magnitude
  | _ => None
  end.

(** [value::to_number<int>(ec)]: the number the node holds, when an [int]
    holds it exactly. *)
Definition to_number_int (jv : value) : result int :=
  let exact (z : Z) :=
    match int_exact z with
    | Some i => Ok i
    | None => Err (FAIL not_exact)
    end in
  match jv with
  | JInt64 i => exact i
  | JUint64 u => exact (Z.of_N u)
  | JDouble d =>
      match double_integer d with
      | Some z => exact z
      | None => Err (FAIL not_exact)
      end
  | _ => Err (FAIL not_number)
  end.

(** [int]: the number conversion. *)
#[global] Instance int_json : JsonType int := {|
  value_from i := JInt64 (int_value i);
  try_value_to := to_number_int;
|}.

(** The element loop of the sequence conversion: the first element that
    does not convert ends it with that element's error. *)
Fixpoint try_elements {T} `{!JsonType T} (arr : list value) : result (list T) :=
  match arr with
  | [] => Ok []
  | jv :: arr' =>
      match try_value_to jv with
      | Ok v =>
          match try_elements arr' with
          | Ok vs => Ok (v :: vs)
          | Err ec => Err ec
          end
      | Err ec => Err ec
      end
  end.

(** [std::vector<T>]: the sequence conversion. *)
#[global] Instance vector_json {T} `{!JsonType T} : JsonType (list T) := {|
  value_from vs := JArray (value_from <$> vs);
  try_value_to jv :=
    match jv with
    | JArray arr => try_elements arr
    | _ => Err (FAIL not_array)
    end;
|}.

(** A value read from a node converts back to a node that reads as the same
    value. *)
Class RoundTrip (T : Type) `{!JsonType T} : Prop :=
  round_trip : ∀ (jv : value) (v : T),
    try_value_to jv = Ok v → try_value_to (value_from v) = Ok v.

(** A node that does not convert is reported with a conversion error. *)
Class ConversionErrors (T : Type) `{!JsonType T} : Prop :=
  conversion_errors : ∀ (jv : value) (ec : error_code),
    try_value_to (T:=T) jv = Err ec → TypeMismatch ec.

End Conversion.

(** ** The accessors of [DEFINE_JSON_ACCESSOR(Tag, Type, Key)]

    The tag type [Tag##T] is empty and only selects the overload, so a tag
    is the pair of [Type] and [Key] the section abstracts over.  A function
    that takes [boost::json::value&] returns the document after the call
    next to its C++ result. *)

Module Accessor.
Import Json Pointer Conversion.

(** [*ref] for a pointer the library handed out. *)
Definition pointee (jv : value) (ref : pointer) : value :=
  default JNull (deref jv ref).

Section DEFINE_JSON_ACCESSOR.
Context {Type_ : Type} `{!JsonType Type_}.
Variable Key : string.

Definition TagPath : string := Key.

Definition read (jv : value) : outcome Type_ :=
  match at_pointer jv TagPath with
  | Returns ref => value_to (pointee jv ref)
  | Throws ec => Throws ec
  end.

Definition try_read (jv : value) : result Type_ :=
  let '(ref, ec) := find_pointer jv TagPath in
  match ref with
  | None => Err ec
  | Some ref => try_value_to (pointee jv ref)
  end.

(** [write(jv, tag, const Type& value)] *)
Definition write (jv : value) (v : Type_) : value * bool :=
  let '(ref, ec) := find_pointer jv TagPath in
  match ref with
  | None => (jv, false)
  | Some ref => (assign jv ref (value_from v), true)
  end.

(** [write(jv, tag, Type&& value)]: [std::move] gives up the caller's
    value; the document gets the value it converts to either way. *)
Definition write_move (jv : value) (v : Type_) : value * bool :=
  let '(ref, ec) := find_pointer jv TagPath in
  match ref with
  | None => (jv, false)
  | Some ref => (assign jv ref (value_from v), true)
  end.

(** [write(jv, tag, nullptr_t)] *)
Definition write_null (jv : value) : value * bool :=
  let '(ref, ec) := find_pointer jv TagPath in
  match ref with
  | None => (jv, false)
  | Some ref => (assign jv ref JNull, true)
  end.

(** [emplace(jv, tag, const Type& value)] *)
Definition emplace (jv : value) (v : Type_) : value * outcome pointer :=
  set_at_pointer jv TagPath (value_from v) default_options.

(** [emplace(jv, tag, Type&& value)] *)
Definition emplace_move (jv : value) (v : Type_) : value * outcome pointer :=
  set_at_pointer jv TagPath (value_from v) default_options.

(** [emplace(jv, tag, nullptr_t)] *)
Definition emplace_null (jv : value) : value * outcome pointer :=
  set_at_pointer jv TagPath JNull default_options.

(** [reference], for a document and for a const document: the const
    overload of [find_pointer] does the walk for both. *)
Definition reference (jv : value) : option pointer :=
  let '(ref, ec) := find_pointer jv TagPath in ref.

Definition path : string := TagPath.

End DEFINE_JSON_ACCESSOR.

End Accessor.

(** ** Pointers as token lists

    A well-formed JSON pointer is the rendering of a list of reference
    tokens: each token behind a slash, with tilde and slash written [~0] and
    [~1].  On such a pointer the walks of the [Pointer] module are
    recursions over the token list. *)

Module Tokens.
Import Json Pointer.

Fixpoint escape (t : string) : string :=
  match t with
  | "" => ""
  | String c t' =>
      if Ascii.eqb c "~" then String "~" (String "0" (escape t'))
      else if Ascii.eqb c "/" then String "~" (String "1" (escape t'))
      else String c (escape t')
  end.

(** The segment of a token, as [next_segment] returns it. *)
Definition segment_of (t : string) : string := String "/" (escape t).

Fixpoint render (ts : list string) : string :=
  match ts with
  | [] => ""
  | t :: ts' => segment_of t +:+ render ts'
  end.

(** The state of [walk_pointer] in front of the tokens [ts]: the segment in
    hand and the pointer still to be read. *)
Definition cut (ts : list string) : string * string :=
  match ts with
  | [] => ("", "")
  | t :: ts' => (segment_of t, render ts')
  end.

(** [find_pointer] on the pointer [render ts]. *)
Fixpoint find_tokens (jv : value) (ts : list string)
  : option pointer * error_code :=
  match ts with
  | [] => (Some [], None)
  | t :: ts' =>
      match jv with
      | JObject obj =>
          match obj !! t with
          | Some child =>
              let '(r, ec) := find_tokens child ts' in
              (option_map (λ p, key t :: p) r, ec)
          | None => (None, FAIL not_found)
          end
      | JArray arr =>
          let '(idx, ec1) := parse_number_token (segment_of t) None in
          if failed ec1 then (None, ec1)
          else
            match if_contains arr idx with
            | Some child =>
                let '(r, ec) := find_tokens child ts' in
                (option_map (λ p, index (N.to_nat idx) :: p) r, ec)
            | None => (None, FAIL not_found)
            end
      | _ => (None, FAIL value_is_scalar)
      end
  end.

(** The walk of [set_at_pointer] on the pointer [render ts]. *)
Fixpoint set_tokens (opts : set_pointer_options) (jv : value)
    (ts : list string) : value * option pointer * error_code :=
  match ts with
  | [] => (jv, Some [], None)
  | t :: ts' =>
      let container :=
        match jv with
        | JObject _ | JArray _ => jv
        | _ => fst (set_on_scalar opts jv (segment_of t))
        end in
      match container with
      | JObject obj =>
          let '(child', r, ec) :=
            set_tokens opts (default JNull (obj !! t)) ts' in
          (JObject (<[t := child']> obj), option_map (λ p, key t :: p) r, ec)
      | JArray arr =>
          let '(idx, ec1) := parse_number_token (segment_of t) None in
          match set_on_array opts arr idx ec1 with
          | (arr', Some i, _) =>
              let '(child', r, ec) := set_tokens opts (arr' !!! i) ts' in
              (JArray (<[i := child']> arr'),
               option_map (λ p, index i :: p) r, ec)
          | (arr', None, ec3) => (JArray arr', None, ec3)
          end
      | _ => (jv, None, FAIL value_is_scalar)
      end
  end.

(** The syntax of a JSON pointer: it is empty or begins with a slash, and
    every tilde in it is followed by 0 or 1. *)
Fixpoint escapes_valid (sv : string) : bool :=
  match sv with
  | "" => true
  | String c s =>
      (negb (Ascii.eqb c "~")
       || match s with
          | String c' _ => Ascii.eqb c' "0" || Ascii.eqb c' "1"
          | "" => false
          end)
      && escapes_valid s
  end.

Definition well_formed (sv : string) : bool :=
  slash_led sv && escapes_valid sv.

(** The token [-], which in an array addresses the position after the
    last element. *)
Definition past_the_end_token : string := "-".

(** A token that names a member: it is neither an array position nor the
    past-the-end token, so a null node in front of it becomes an object. *)
Definition names_member (t : string) : bool :=
  let ec := (parse_number_token (segment_of t) None).2 in
  failed ec && negb (bool_decide (ec = FAIL past_the_end)).

(** The objects [ts] names one inside the other, around [leaf]. *)
Fixpoint nest (ts : list string) (leaf : value) : value :=
  match ts with
  | [] => leaf
  | t :: ts' => JObject {[ t := nest ts' leaf ]}
  end.


(** The element the token [t] addresses in an array of [len] elements, as
    far as the creating walk reaches: the past-the-end token addresses the
    position behind the last element, a number its position when that is
    at most one behind the last element. *)
Definition position (t : string) (len : nat) : option nat :=
  match parse_number_token (segment_of t) None with
  | (idx, None) =>
      if (idx <? N.of_nat len + 2)%N then Some (N.to_nat idx) else None
  | (_, Some e) =>
      if bool_decide (e = past_the_end) then Some len else None
  end.

(** The way [ts] takes through [jv] when the creating walk can make it: a
    node with tokens left is an object, where the token is a member name;
    an array, where the token addresses an element within reach; or null,
    which becomes the object or the array the token asks for.  Any other
    node, and an array element out of reach, ends the way. *)
Fixpoint way (jv : value) (ts : list string) : option pointer :=
  match ts with
  | [] => Some []
  | t :: ts' =>
      match jv with
      | JObject obj =>
          cons (key t) <$> way (default JNull (obj !! t)) ts'
      | JArray arr =>
          position t (length arr) ≫= λ i,
          cons (index i) <$> way (default JNull (arr !! i)) ts'
      | JNull =>
          if names_member t then cons (key t) <$> way JNull ts'
          else position t 0 ≫= λ i, cons (index i) <$> way JNull ts'
      | _ => None
      end
  end.

End Tokens.

(** ** The documents and tags of the test suite *)

Module TestSuite.
Import Json Pointer Conversion.

(** [template_json] *)
Definition template_json : value :=
  JObject {[
    "user" := JObject (
      <["name" := JString "Alice"]> (
      <["age" := JInt64 23]> (
      {[ "languages" :=
           JArray [JString "C++"; JString "Python";
                   JString "Haskell"; JString "Rust"] ]})))
  ]}.

(** [json::value()], the null document the tests call [json_2]. *)
Definition json_2 : value := JNull.

(** The paths of the tags [UserName], [UserAge] and [UserLangs]. *)
Definition UserName : string := "/user/name".
Definition UserAge : string := "/user/age".
Definition UserLangs : string := "/user/languages".

Definition user_name : pointer := [key "user"; key "name"].
Definition user_age : pointer := [key "user"; key "age"].
Definition user_languages : pointer := [key "user"; key "languages"].

(** The values the tests write. *)
Definition new_languages : list string := ["GoLang"; "Elixir"; "TypeScript"].

(** The three [write] calls of a test, one after the other. *)
Definition write_all (jv : value) : value * list bool :=
  let '(jv1, name_result) := Accessor.write UserName jv "SuperAlice" in
  let '(jv2, age_result) := Accessor.write UserAge jv1 (Int 100 I) in
  let '(jv3, lang_result) := Accessor.write UserLangs jv2 new_languages in
  (jv3, [name_result; age_result; lang_result]).

Definition write_null_all (jv : value) : value * list bool :=
  let '(jv1, name_result) := Accessor.write_null UserName jv in
  let '(jv2, age_result) := Accessor.write_null UserAge jv1 in
  let '(jv3, lang_result) := Accessor.write_null UserLangs jv2 in
  (jv3, [name_result; age_result; lang_result]).

(** The three [emplace] calls of a test, one after the other. *)
Definition emplace_all (jv : value) : value :=
  let jv1 := (Accessor.emplace UserName jv "SuperAlice").1 in
  let jv2 := (Accessor.emplace UserAge jv1 (Int 100 I)).1 in
  (Accessor.emplace UserLangs jv2 new_languages).1.

Definition emplace_null_all (jv : value) : value :=
  let jv1 := (Accessor.emplace_null UserName jv).1 in
  let jv2 := (Accessor.emplace_null UserAge jv1).1 in
  (Accessor.emplace_null UserLangs jv2).1.

(** [jv.at("user").at(member)] *)
Definition user_member (jv : value) (member : string) : option value :=
  deref jv [key "user"; key member].

(** The tokens of [UserName]. *)
Definition user_name_tokens : list string := ["user"; "name"].

Definition NextTag : string := "/tags/-".

End TestSuite.

(** ** Facts about addresses *)

Module AddressFacts.
Import Json Tokens.

Lemma deref_app jv p q :
  deref jv (p ++ q) = deref jv p ≫= λ n, deref n q.
Proof.
  revert jv. induction p as [|[k|i] p IH]; intros jv; simpl; [done|..].
  - destruct jv; try done. destruct (obj !! k); simpl; [apply IH|done].
  - destruct jv; try done. destruct (arr !! i); simpl; [apply IH|done].
Qed.

Lemma deref_assign jv p new :
  is_Some (deref jv p) → deref (assign jv p new) p = Some new.
Proof.
  revert jv. induction p as [|[k|i] p IH]; intros jv [n Hn]; simpl in *; [done|..].
  - destruct jv; try done.
    destruct (obj !! k) as [child|] eqn:Hk; simpl in *; [|done].
    rewrite lookup_insert_eq. simpl. apply IH. by exists n.
  - destruct jv; try done.
    destruct (arr !! i) as [child|] eqn:Hi; simpl in *; [|done].
    rewrite list_lookup_insert_eq; [|by eapply lookup_lt_Some].
    simpl. apply IH. by exists n.
Qed.

Lemma apart_cons_inv s p q : apart (s :: p) (s :: q) → apart p q.
Proof.
  intros [H1 H2]. split; intros [k ->].
  - apply H1. by exists k.
  - apply H2. by exists k.
Qed.

Lemma apart_nil_l q : ¬ apart [] q.
Proof. intros [H _]. apply H. apply prefix_nil. Qed.

Lemma apart_nil_r p : ¬ apart p [].
Proof. intros [_ H]. apply H. apply prefix_nil. Qed.

(** An assignment through a pointer is invisible at every address apart
    from it. *)
Lemma deref_assign_apart jv p q new :
  apart p q → deref (assign jv p new) q = deref jv q.
Proof.
  revert jv q. induction p as [|s p IH]; intros jv q Hpq.
  { by destruct (apart_nil_l q). }
  destruct q as [|s' q]; [by destruct (apart_nil_r (s :: p))|].
  destruct s as [k|i]; simpl.
  - destruct jv; try done.
    destruct (obj !! k) as [child|] eqn:Hk; [|done].
    destruct s' as [k'|i']; simpl; [|done].
    destruct (decide (k = k')) as [<-|Hne].
    + rewrite lookup_insert_eq, Hk. simpl. apply IH. by eapply apart_cons_inv.
    + by rewrite lookup_insert_ne.
  - destruct jv; try done.
    destruct (arr !! i) as [child|] eqn:Hi; [|done].
    destruct s' as [k'|i']; simpl; [done|].
    destruct (decide (i = i')) as [<-|Hne].
    + rewrite list_lookup_insert_eq, Hi; [|by eapply lookup_lt_Some].
      simpl. apply IH. by eapply apart_cons_inv.
    + by rewrite list_lookup_insert_ne.
Qed.

(** An assignment creates and removes no node outside the subtree it
    replaces. *)
Lemma deref_assign_outside jv p q new :
  is_Some (deref jv p) → ¬ p `prefix_of` q →
  is_Some (deref (assign jv p new) q) ↔ is_Some (deref jv q).
Proof.
  revert jv q. induction p as [|s p IH]; intros jv q Hp Hq.
  { destruct Hq. apply prefix_nil. }
  destruct q as [|s' q]; [simpl; split; eauto|].
  destruct s as [k|i]; simpl in *.
  - destruct jv; try done.
    destruct (obj !! k) as [child|] eqn:Hk; [|done].
    destruct s' as [k'|i']; simpl; [|done].
    destruct (decide (k = k')) as [<-|Hne].
    + rewrite lookup_insert_eq, Hk. simpl. apply IH; [done|].
      intros [r ->]. apply Hq. by exists r.
    + by rewrite lookup_insert_ne.
  - destruct jv; try done.
    destruct (arr !! i) as [child|] eqn:Hi; [|done].
    destruct s' as [k'|i']; simpl; [done|].
    destruct (decide (i = i')) as [<-|Hne].
    + rewrite list_lookup_insert_eq, Hi; [|by eapply lookup_lt_Some].
      simpl. apply IH; [done|]. intros [r ->]. apply Hq. by exists r.
    + by rewrite list_lookup_insert_ne.
Qed.

(** The nodes above an assigned node stay containers of their kind, with
    the members they had. *)
Lemma deref_assign_above jv p new q s r :
  is_Some (deref jv p) → p = q ++ s :: r →
  ∃ a b, deref jv q = Some a ∧ deref (assign jv p new) q = Some b
         ∧ same_shape a b.
Proof.
  revert jv p. induction q as [|s' q IH]; intros jv p Hp ->; simpl in *.
  - exists jv. destruct s as [k|i]; simpl in *.
    + destruct jv; try by destruct Hp.
      destruct (obj !! k) as [child|] eqn:Hk; [|by destruct Hp].
      eexists. split; [done|]. split; [done|]. simpl.
      symmetry. apply dom_insert_lookup_L. by rewrite Hk.
    + destruct jv; try by destruct Hp.
      destruct (arr !! i) as [child|] eqn:Hi; [|by destruct Hp].
      eexists. split; [done|]. split; [done|]. simpl.
      by rewrite length_insert.
  - destruct s' as [k|i]; simpl in *.
    + destruct jv; try by destruct Hp.
      destruct (obj !! k) as [child|] eqn:Hk; [|by destruct Hp].
      simpl in *. rewrite lookup_insert_eq. simpl. by apply IH.
    + destruct jv; try by destruct Hp.
      destruct (arr !! i) as [child|] eqn:Hi; [|by destruct Hp].
      simpl in *.
      rewrite list_lookup_insert_eq by (by eapply lookup_lt_Some).
      simpl. by apply IH.
Qed.

Lemma apart_cons s p q : apart p q → apart (s :: p) (s :: q).
Proof.
  intros [H1 H2]. split; intros [k Hk]; cbn in Hk; injection Hk as ->.
  - apply H1. by exists k.
  - apply H2. by exists k.
Qed.

Lemma apart_key_key k k' p q : k ≠ k' → apart (key k :: p) (key k' :: q).
Proof. intros Hne. split; intros [r Hr]; cbn in Hr; congruence. Qed.

Lemma apart_index_index i i' p q :
  i ≠ i' → apart (index i :: p) (index i' :: q).
Proof. intros Hne. split; intros [r Hr]; cbn in Hr; congruence. Qed.

(** A document is its nodes: two documents with the same node at [p] and
    the same node, or none, at every address apart from [p] are equal. *)
Lemma deref_determines p d1 d2 x :
  deref d1 p = Some x → deref d2 p = Some x →
  (∀ q, apart p q → deref d1 q = deref d2 q) →
  d1 = d2.
Proof.
  revert d1 d2. induction p as [|[k|i] p IH]; intros d1 d2; cbn [deref].
  { by intros [= ->] [= ->]. }
  - destruct d1 as [| | | | | | |o1]; try done.
    destruct d2 as [| | | | | | |o2]; try done.
    destruct (o1 !! k) as [c1|] eqn:H1; [|done].
    destruct (o2 !! k) as [c2|] eqn:H2; [|done]. cbn.
    intros Hp1 Hp2 Hframe. f_equal. apply map_eq. intros k'.
    destruct (decide (k' = k)) as [->|Hne].
    + rewrite H1, H2. f_equal. apply IH; [done..|].
      intros q Hq. specialize (Hframe (key k :: q) (apart_cons _ _ _ Hq)).
      cbn [deref] in Hframe. by rewrite H1, H2 in Hframe.
    + specialize (Hframe [key k'] (apart_key_key _ _ _ _ (not_eq_sym Hne))).
      cbn [deref] in Hframe.
      by destruct (o1 !! k'), (o2 !! k').
  - destruct d1 as [| | | | | |a1|]; try done.
    destruct d2 as [| | | | | |a2|]; try done.
    destruct (a1 !! i) as [c1|] eqn:H1; [|done].
    destruct (a2 !! i) as [c2|] eqn:H2; [|done]. cbn.
    intros Hp1 Hp2 Hframe. f_equal. apply list_eq. intros i'.
    destruct (decide (i' = i)) as [->|Hne].
    + rewrite H1, H2. f_equal. apply IH; [done..|].
      intros q Hq. specialize (Hframe (index i :: q) (apart_cons _ _ _ Hq)).
      cbn [deref] in Hframe. by rewrite H1, H2 in Hframe.
    + specialize (Hframe [index i']
                    (apart_index_index _ _ _ _ (not_eq_sym Hne))).
      cbn [deref] in Hframe.
      by destruct (a1 !! i'), (a2 !! i').
Qed.

Lemma pointee_assign jv p new :
  is_Some (deref jv p) → default JNull (deref (assign jv p new) p) = new.
Proof. intros Hp. by rewrite deref_assign. Qed.

Lemma assign_changes jv p new n :
  deref jv p = Some n → n ≠ new → assign jv p new ≠ jv.
Proof.
  intros Hp Hne Heq.
  assert (deref (assign jv p new) p = Some new) as Hnew
    by (apply deref_assign; eauto).
  rewrite Heq in Hnew. congruence.
Qed.

End AddressFacts.

(** ** Facts about the walks *)

Module WalkFacts.
Import Json Pointer Tokens AddressFacts.

Lemma failed_false ec : failed ec = false ↔ ec = None.
Proof. destruct ec; simpl; split; congruence. Qed.

Lemma failed_true ec : failed ec = true ↔ ∃ e, ec = FAIL e.
Proof. destruct ec; simpl; split; try congruence; eauto. by intros [? ?]. Qed.

Lemma scan_segment_length_aux (n : nat) s seg rest ec :
  (String.length s ≤ n)%nat →
  scan_segment s = (seg, rest, ec) →
  (String.length seg + String.length rest ≤ String.length s)%nat.
Proof.
  revert s seg rest ec. induction n as [|n IH]; intros s seg rest ec Hn.
  { destruct s; simpl in *; [|lia]. by intros [= <- <- <-]. }
  destruct s as [|c s]; simpl; [by intros [= <- <- <-]|].
  destruct (Ascii.eqb c "/"); [intros [= <- <- <-]; simpl; lia|].
  destruct (Ascii.eqb c "~").
  - destruct s as [|c' s]; [intros [= <- <- <-]; simpl; lia|].
    destruct (_ || _).
    + destruct (scan_segment s) as [[seg' rest'] ec'] eqn:Hs.
      intros [= <- <- <-]. apply IH in Hs; simpl in *; lia.
    + intros [= <- <- <-]. simpl. lia.
  - destruct (scan_segment s) as [[seg' rest'] ec'] eqn:Hs.
    intros [= <- <- <-]. apply IH in Hs; simpl in *; lia.
Qed.

Lemma next_segment_length sv ec seg rest ec' :
  next_segment sv ec = (seg, rest, ec') →
  (String.length seg + String.length rest ≤ String.length sv)%nat.
Proof.
  destruct sv as [|c s]; simpl; [by intros [= <- <- <-]|].
  destruct (Ascii.eqb c "/"); [|intros [= <- <- <-]; simpl; lia].
  destruct (scan_segment s) as [[seg' rest'] ec''] eqn:Hs.
  intros [= <- <- <-]. eapply scan_segment_length_aux in Hs; [|done].
  simpl. lia.
Qed.

Lemma segment_nonempty (segment : string) :
  bool_decide (segment = "") = false → (0 < String.length segment)%nat.
Proof. destruct segment; simpl; [done|lia]. Qed.

(** The loop of [find_pointer] ends within the iterations it is given. *)
Lemma find_walk_fuel fuel result segment sv ec :
  (String.length segment + String.length sv < fuel)%nat →
  is_Some (find_walk fuel result segment sv ec).
Proof.
  revert result segment sv ec.
  induction fuel as [|fuel IH]; intros result segment sv ec Hlt; [lia|].
  simpl. destruct (failed ec); [eauto|].
  destruct result as [jv|]; [|eauto].
  destruct (bool_decide (segment = "")) eqn:Hseg; [eauto|].
  apply segment_nonempty in Hseg.
  destruct jv; eauto.
  - destruct (parse_number_token segment ec) as [idx ec1].
    destruct (next_segment sv ec1) as [[segment' sv'] ec2] eqn:Hnext.
    apply next_segment_length in Hnext.
    edestruct (IH (if failed ec2 then None else if_contains arr idx)
                 segment' sv' ec2) as [[r ec3] ->]; [lia|eauto].
  - destruct (next_segment sv ec) as [[segment' sv'] ec'] eqn:Hnext.
    apply next_segment_length in Hnext.
    edestruct (IH (obj !! pointer_token segment) segment' sv' ec')
      as [[r ec3] ->]; [lia|eauto].
Qed.

Lemma find_pointer_walk jv sv :
  ∀ segment sv' ec, next_segment sv None = (segment, sv', ec) →
  find_walk (walk_fuel sv) (Some jv) segment sv' ec = Some (find_pointer jv sv).
Proof.
  intros segment sv' ec Hnext. unfold find_pointer. rewrite Hnext.
  apply next_segment_length in Hnext.
  destruct (find_walk_fuel (walk_fuel sv) (Some jv) segment sv' ec) as [x ->];
    [unfold walk_fuel; lia|done].
Qed.

(** A walk that arrives hands out the address of a node of the document
    and a cleared error code; a walk that does not arrive reports an
    error. *)
Lemma find_walk_arrives fuel jv segment sv ec p ec' :
  find_walk fuel (Some jv) segment sv ec = Some (Some p, ec') →
  is_Some (deref jv p) ∧ ec' = None.
Proof.
  revert jv segment sv ec p ec'.
  induction fuel as [|fuel IH]; intros jv segment sv ec p ec'; [done|].
  simpl. destruct (failed ec) eqn:Hec; [done|].
  destruct (bool_decide (segment = "")).
  { intros [= <- <-]. apply failed_false in Hec. split; [by eexists|done]. }
  destruct jv; try done.
  - destruct (parse_number_token segment ec) as [idx ec1].
    destruct (next_segment sv ec1) as [[segment' sv'] ec2].
    destruct (failed ec2) eqn:Hec2.
    { destruct fuel; [done|]. simpl. by rewrite Hec2. }
    unfold if_contains.
    destruct (_ <? _)%N; [|by destruct fuel; simpl; try rewrite Hec2].
    destruct (arr !! N.to_nat idx) as [child|] eqn:Hchild;
      [|by destruct fuel; simpl; try rewrite Hec2].
    destruct (find_walk fuel (Some child) segment' sv' ec2)
      as [[[p'|] ec3]|] eqn:Hwalk; try done.
    intros [= <- <-]. apply IH in Hwalk as [Hp ->].
    simpl. by rewrite Hchild.
  - destruct (next_segment sv ec) as [[segment' sv'] ec2].
    destruct (obj !! pointer_token segment) as [child|] eqn:Hchild.
    2:{ destruct fuel; [done|]. simpl. destruct (failed ec2); done. }
    destruct (find_walk fuel (Some child) segment' sv' ec2)
      as [[[p'|] ec3]|] eqn:Hwalk; try done.
    intros [= <- <-]. apply IH in Hwalk as [Hp ->].
    simpl. by rewrite Hchild.
Qed.

Lemma find_walk_fails fuel result segment sv ec ec' :
  find_walk fuel result segment sv ec = Some (None, ec') →
  failed ec' = true.
Proof.
  revert result segment sv ec ec'.
  induction fuel as [|fuel IH]; intros result segment sv ec ec'; [done|].
  simpl. destruct (failed ec) eqn:Hec; [by intros [= <-]|].
  destruct result as [jv|]; [|by intros [= <-]].
  destruct (bool_decide (segment = "")); [done|].
  destruct jv; try by intros [= <-].
  - destruct (parse_number_token segment ec) as [idx ec1].
    destruct (next_segment sv ec1) as [[segment' sv'] ec2].
    destruct (find_walk fuel _ segment' sv' ec2)
      as [[[p'|] ec3]|] eqn:Hwalk; try done.
    intros [= <-]. by eapply IH.
  - destruct (next_segment sv ec) as [[segment' sv'] ec2].
    destruct (find_walk fuel _ segment' sv' ec2)
      as [[[p'|] ec3]|] eqn:Hwalk; try done.
    intros [= <-]. by eapply IH.
Qed.

(** The walk looks at the nodes above the one it arrives at, never at
    that node: after an assignment through the pointer it arrives at the
    same address. *)
Lemma find_walk_assign fuel jv segment sv ec p ec' new :
  find_walk fuel (Some jv) segment sv ec = Some (Some p, ec') →
  find_walk fuel (Some (assign jv p new)) segment sv ec = Some (Some p, ec').
Proof.
  revert jv segment sv ec p ec'.
  induction fuel as [|fuel IH]; intros jv segment sv ec p ec'; [done|].
  simpl. destruct (failed ec) eqn:Hec; [done|].
  destruct (bool_decide (segment = "")) eqn:Hseg.
  { by intros [= <- <-]. }
  destruct jv; try done.
  - destruct (parse_number_token segment ec) as [idx ec1].
    destruct (next_segment sv ec1) as [[segment' sv'] ec2].
    destruct (failed ec2) eqn:Hec2.
    { destruct fuel; [done|]. simpl. by rewrite Hec2. }
    unfold if_contains.
    destruct (_ <? _)%N eqn:Hlt; [|by destruct fuel; simpl; try rewrite Hec2].
    destruct (arr !! N.to_nat idx) as [child|] eqn:Hchild;
      [|by destruct fuel; simpl; try rewrite Hec2].
    destruct (find_walk fuel (Some child) segment' sv' ec2)
      as [[[p'|] ec3]|] eqn:Hwalk; try done.
    intros [= <- <-]. simpl. rewrite Hchild.
    rewrite length_insert, Hlt, list_lookup_insert_eq
      by (by eapply lookup_lt_Some).
    by rewrite (IH _ _ _ _ _ _ Hwalk).
  - destruct (next_segment sv ec) as [[segment' sv'] ec2].
    destruct (obj !! pointer_token segment) as [child|] eqn:Hchild.
    2:{ destruct fuel; [done|]. simpl. destruct (failed ec2); done. }
    destruct (find_walk fuel (Some child) segment' sv' ec2)
      as [[[p'|] ec3]|] eqn:Hwalk; try done.
    intros [= <- <-]. simpl. rewrite Hchild, lookup_insert_eq.
    by rewrite (IH _ _ _ _ _ _ Hwalk).
Qed.

Lemma set_on_array_inside opts (arr : list value) idx :
  (idx <? N.of_nat (length arr))%N = true →
  set_on_array opts arr idx None = (arr, Some (N.to_nat idx), None).
Proof.
  intros Hlt. unfold set_on_array. simpl.
  apply N.ltb_lt in Hlt.
  by rewrite (proj2 (N.leb_gt _ _)) by lia.
Qed.

(** Where [find_pointer] arrives, the walk of [set_at_pointer] arrives at
    the same address and has nothing to create. *)
Lemma set_walk_of_find opts fuel fuel' jv segment sv ec p ec' :
  find_walk fuel (Some jv) segment sv ec = Some (Some p, ec') →
  (fuel ≤ fuel')%nat →
  set_walk opts fuel' jv segment sv ec = Some (jv, Some p, ec').
Proof.
  revert fuel' jv segment sv ec p ec'.
  induction fuel as [|fuel IH]; intros fuel' jv segment sv ec p ec'; [done|].
  intros Hwalk Hle. destruct fuel' as [|fuel']; [lia|].
  simpl in *. destruct (failed ec) eqn:Hec; [done|].
  destruct (bool_decide (segment = "")) eqn:Hseg; [by simplify_eq|].
  destruct jv; try done.
  - destruct (parse_number_token segment ec) as [idx ec1].
    destruct (next_segment sv ec1) as [[segment' sv'] ec2].
    destruct (failed ec2) eqn:Hec2.
    { destruct fuel; [done|]. simpl in Hwalk. by rewrite Hec2 in Hwalk. }
    apply failed_false in Hec2 as ->.
    unfold if_contains in Hwalk.
    destruct (_ <? _)%N eqn:Hlt; [|by destruct fuel].
    destruct (arr !! N.to_nat idx) as [child|] eqn:Hchild; [|by destruct fuel].
    destruct (find_walk fuel (Some child) segment' sv' None)
      as [[[p'|] ec3]|] eqn:Hwalk'; try done.
    simplify_eq. rewrite set_on_array_inside by done.
    rewrite (list_lookup_total_correct _ _ _ Hchild).
    rewrite (IH fuel' _ _ _ _ _ _ Hwalk') by lia.
    by rewrite list_insert_id.
  - destruct (next_segment sv ec) as [[segment' sv'] ec2].
    destruct (obj !! pointer_token segment) as [child|] eqn:Hchild.
    2:{ destruct fuel; [done|]. simpl in Hwalk. by destruct (failed ec2). }
    destruct (find_walk fuel (Some child) segment' sv' ec2)
      as [[[p'|] ec3]|] eqn:Hwalk'; try done.
    simplify_eq. simpl.
    rewrite (IH fuel' _ _ _ _ _ _ Hwalk') by lia.
    by rewrite insert_id.
Qed.

Lemma set_on_scalar_retry opts jv segment jv' :
  set_on_scalar opts jv segment = (jv', true) →
  jv' = JArray [] ∨ jv' = JObject ∅.
Proof.
  unfold set_on_scalar. intros H.
  repeat match type of H with
         | context [if ?b then _ else _] => destruct b
         end; simplify_eq; eauto.
Qed.

(** The loop of [set_at_pointer] ends within the iterations it is given. *)
Lemma set_walk_fuel opts fuel jv segment sv ec :
  (2 * (String.length segment + String.length sv) + scalar_weight jv < fuel)%nat →
  is_Some (set_walk opts fuel jv segment sv ec).
Proof.
  revert jv segment sv ec.
  induction fuel as [|fuel IH]; intros jv segment sv ec Hlt; [lia|].
  simpl. destruct (failed ec); [eauto|].
  destruct (bool_decide (segment = "")) eqn:Hseg; [eauto|].
  apply segment_nonempty in Hseg.
  assert (∀ jv0, scalar_weight jv0 ≤ 1)%nat as Hw by (by intros []; simpl; lia).
  assert (scalar_weight jv = 1%nat →
    is_Some match set_on_scalar opts jv segment with
            | (jv', true) => set_walk opts fuel jv' segment sv ec
            | (jv', false) => Some (jv', None, FAIL value_is_scalar)
            end) as Hscalar.
  { intros Hjv. destruct (set_on_scalar opts jv segment) as [jv' []] eqn:Hs;
      [|eauto].
    apply IH. apply set_on_scalar_retry in Hs as [-> | ->]; simpl; lia. }
  destruct jv; try (by apply Hscalar).
  - destruct (parse_number_token segment ec) as [idx ec1].
    destruct (next_segment sv ec1) as [[segment' sv'] ec2] eqn:Hnext.
    apply next_segment_length in Hnext.
    destruct (set_on_array opts arr idx ec2) as [[arr' [i|]] ec3]; [|eauto].
    edestruct (IH (arr' !!! i) segment' sv' ec3) as [[[c r] e] ->]; [|eauto].
    specialize (Hw (arr' !!! i)). simpl in Hlt. lia.
  - destruct (next_segment sv ec) as [[segment' sv'] ec'] eqn:Hnext.
    apply next_segment_length in Hnext.
    edestruct (IH (default JNull (obj !! pointer_token segment)) segment' sv' ec')
      as [[[c r] e] ->]; [|eauto].
    specialize (Hw (default JNull (obj !! pointer_token segment))).
    simpl in Hlt. lia.
Qed.

(** *** The codes a failed walk reports *)

Lemma scan_segment_error_aux (n : nat) s seg rest ec :
  (String.length s ≤ n)%nat →
  scan_segment s = (seg, rest, ec) →
  ec = None ∨ ec = FAIL invalid_escape.
Proof.
  revert s seg rest ec. induction n as [|n IH]; intros s seg rest ec Hn.
  { destruct s; simpl in *; [|lia]. intros [= <- <- <-]. by left. }
  destruct s as [|c s]; simpl; [intros [= <- <- <-]; by left|].
  destruct (Ascii.eqb c "/"); [intros [= <- <- <-]; by left|].
  destruct (Ascii.eqb c "~").
  - destruct s as [|c' s]; [intros [= <- <- <-]; by right|].
    destruct (_ || _).
    + destruct (scan_segment s) as [[seg' rest'] ec'] eqn:Hs.
      intros [= <- <- <-]. eapply IH; [|done]. simpl in *; lia.
    + intros [= <- <- <-]. by right.
  - destruct (scan_segment s) as [[seg' rest'] ec'] eqn:Hs.
    intros [= <- <- <-]. eapply IH; [|done]. simpl in *; lia.
Qed.

Lemma next_segment_error sv ec seg rest ec' :
  next_segment sv ec = (seg, rest, ec') →
  clear_or_pointer_error ec → clear_or_pointer_error ec'.
Proof.
  destruct sv as [|c s]; simpl; [by intros [= <- <- <-]|].
  destruct (Ascii.eqb c "/"); [|intros [= <- <- <-] _; by right].
  destruct (scan_segment s) as [[seg' rest'] ec''] eqn:Hs.
  intros [= <- <- <-] Hec.
  eapply scan_segment_error_aux in Hs as [-> | ->]; [done|by right|done].
Qed.

Lemma parse_digits_error s result ec n ec' :
  parse_digits s result ec = (n, ec') →
  clear_or_pointer_error ec → clear_or_pointer_error ec'.
Proof.
  revert result. induction s as [|c s IH]; intros result; simpl.
  { by intros [= <- <-]. }
  destruct (is_digit c); [|intros [= <- <-] _; by right].
  destruct (_ <? _)%N; [intros [= <- <-] _; by right|]. apply IH.
Qed.

Lemma parse_number_token_error segment ec n ec' :
  parse_number_token segment ec = (n, ec') →
  clear_or_pointer_error ec → clear_or_pointer_error ec'.
Proof.
  unfold parse_number_token.
  destruct (_ || _); [intros [= <- <-] _; by right|].
  destruct (is_past_the_end_token _); [intros [= <- <-] _; by right|].
  apply parse_digits_error.
Qed.

(** A walk that does not arrive reports a JSON Pointer error. *)
Lemma find_walk_not_found fuel result segment sv ec ec' :
  find_walk fuel result segment sv ec = Some (None, ec') →
  clear_or_pointer_error ec → NotFound ec'.
Proof.
  revert result segment sv ec ec'.
  induction fuel as [|fuel IH]; intros result segment sv ec ec'; [done|].
  simpl. destruct (failed ec) eqn:Hec.
  { intros [= <-] [-> | ?]; done. }
  destruct result as [jv|]; [|by intros [= <-]].
  destruct (bool_decide (segment = "")); [done|].
  destruct jv; try by intros [= <-].
  - destruct (parse_number_token segment ec) as [idx ec1] eqn:Hparse.
    destruct (next_segment sv ec1) as [[segment' sv'] ec2] eqn:Hnext.
    destruct (find_walk fuel _ segment' sv' ec2)
      as [[[p'|] ec3]|] eqn:Hwalk; try done.
    intros [= <-] Hclear. eapply IH; [done|].
    eapply next_segment_error; [done|].
    by eapply parse_number_token_error.
  - destruct (next_segment sv ec) as [[segment' sv'] ec2] eqn:Hnext.
    destruct (find_walk fuel _ segment' sv' ec2)
      as [[[p'|] ec3]|] eqn:Hwalk; try done.
    intros [= <-] Hclear. eapply IH; [done|].
    by eapply next_segment_error.
Qed.

(** *** Well-formed pointers *)

Lemma scan_segment_escape t ts :
  scan_segment (escape t +:+ render ts) = (escape t, render ts, None).
Proof.
  induction t as [|c t IH]; simpl.
  - destruct ts as [|t' ts]; simpl; done.
  - destruct (Ascii.eqb c "~") eqn:Htilde.
    { apply Ascii.eqb_eq in Htilde as ->. simpl. by rewrite IH. }
    destruct (Ascii.eqb c "/") eqn:Hslash.
    { apply Ascii.eqb_eq in Hslash as ->. simpl. by rewrite IH. }
    simpl. by rewrite Hslash, Htilde, IH.
Qed.

Lemma unescape_escape t : unescape (escape t) = t.
Proof.
  induction t as [|c t IH]; simpl; [done|].
  destruct (Ascii.eqb c "~") eqn:Htilde.
  { apply Ascii.eqb_eq in Htilde as ->. simpl. by rewrite IH. }
  destruct (Ascii.eqb c "/") eqn:Hslash.
  { apply Ascii.eqb_eq in Hslash as ->. simpl. by rewrite IH. }
  simpl. by rewrite Htilde, IH.
Qed.

Lemma pointer_token_segment t : pointer_token (segment_of t) = t.
Proof. apply unescape_escape. Qed.

Lemma next_segment_render ts ec :
  next_segment (render ts) ec = (cut ts, ec).
Proof.
  destruct ts as [|t ts]; simpl; [done|].
  by rewrite scan_segment_escape.
Qed.

Lemma segment_of_nonempty t : bool_decide (segment_of t = "") = false.
Proof. done. Qed.

Lemma string_length_app s1 s2 :
  String.length (s1 +:+ s2) = (String.length s1 + String.length s2)%nat.
Proof. induction s1 as [|c s1 IH]; simpl; [done|by rewrite IH]. Qed.

Lemma length_render ts : (length ts ≤ String.length (render ts))%nat.
Proof.
  induction ts as [|t ts IH]; simpl; [lia|].
  rewrite string_length_app. lia.
Qed.

Lemma parse_digits_codes s result n ec :
  parse_digits s result None = (n, ec) →
  ec = None ∨ ec = FAIL token_overflow ∨ ec = FAIL token_not_number.
Proof.
  revert result. induction s as [|c s IH]; intros result; simpl.
  { intros [= <- <-]. by left. }
  destruct (is_digit c); [|intros [= <- <-]; eauto].
  destruct (_ <? _)%N; [intros [= <- <-]; eauto|]. apply IH.
Qed.

Lemma escape_empty t : escape t = "" → t = "".
Proof.
  destruct t as [|c t]; [done|]. simpl.
  destruct (Ascii.eqb c "~"); [done|]. by destruct (Ascii.eqb c "/").
Qed.

Lemma escape_past_the_end t :
  is_past_the_end_token (escape t) = true → t = past_the_end_token.
Proof.
  destruct t as [|c t]; [done|]. simpl.
  destruct (Ascii.eqb c "~"); [done|].
  destruct (Ascii.eqb c "/"); [done|]. simpl.
  destruct (escape t) eqn:Ht; [|done].
  apply escape_empty in Ht as ->. by intros ->%Ascii.eqb_eq.
Qed.

Lemma parse_number_token_not_past_the_end t idx ec :
  t ≠ past_the_end_token →
  parse_number_token (segment_of t) None = (idx, ec) →
  ec ≠ FAIL past_the_end.
Proof.
  intros Ht. unfold parse_number_token, segment_of.
  destruct (_ || _); [by intros [= <- <-]|].
  destruct (is_past_the_end_token (escape t)) eqn:Hdash.
  { by apply escape_past_the_end in Hdash. }
  intros Hdigits. by apply parse_digits_codes in Hdigits as [->|[->| ->]].
Qed.

Lemma parse_number_token_codes t idx ec :
  parse_number_token (segment_of t) None = (idx, ec) →
  ec = None ∨ ∃ e, ec = FAIL e ∧ pointer_use_error e = true.
Proof.
  unfold parse_number_token, segment_of.
  destruct (_ || _); [intros [= <- <-]; right; by eexists|].
  destruct (is_past_the_end_token (escape t));
    [intros [= <- <-]; right; by eexists|].
  intros Hdigits.
  apply parse_digits_codes in Hdigits as [->|[->| ->]];
    [by left|right; by eexists..].
Qed.

(** On a well-formed pointer a walk that does not arrive reports that the
    document has no node for it. *)
Lemma find_tokens_not_found ts jv ec :
  find_tokens jv ts = (None, ec) →
  ∃ e, ec = FAIL e ∧ pointer_use_error e = true.
Proof.
  revert jv ec. induction ts as [|t ts IH]; intros jv ec; [done|].
  simpl. destruct jv; try (intros [= <-]; by eexists).
  - destruct (parse_number_token (segment_of t) None) as [idx ec1] eqn:Hparse.
    destruct (failed ec1) eqn:Hec1.
    { intros [= <-].
      apply parse_number_token_codes in Hparse as [->|?]; done. }
    destruct (if_contains arr idx) as [child|]; [|intros [= <-]; by eexists].
    destruct (find_tokens child ts) as [[p|] ec'] eqn:Hchild; [done|].
    intros [= <-]. by eapply IH.
  - destruct (obj !! t) as [child|]; [|intros [= <-]; by eexists].
    destruct (find_tokens child ts) as [[p|] ec'] eqn:Hchild; [done|].
    intros [= <-]. by eapply IH.
Qed.

(** On a well-formed pointer the loop of [find_pointer] is the recursion
    over its tokens. *)
Lemma find_walk_stops fuel result segment sv ec :
  (0 < fuel)%nat → failed ec = true →
  find_walk fuel result segment sv ec = Some (None, ec).
Proof. destruct fuel; [lia|]. intros _ Hec. simpl. by rewrite Hec. Qed.

Lemma find_walk_null fuel segment sv :
  (0 < fuel)%nat →
  find_walk fuel None segment sv None = Some (None, FAIL not_found).
Proof. destruct fuel; [lia|done]. Qed.

Lemma find_walk_tokens ts fuel jv :
  (length ts < fuel)%nat →
  find_walk fuel (Some jv) (cut ts).1 (cut ts).2 None = Some (find_tokens jv ts).
Proof.
  revert fuel jv. induction ts as [|t ts IH]; intros [|fuel] jv Hlt;
    simpl in Hlt; try lia; [done|].
  simpl. destruct jv; try done.
  - destruct (parse_number_token (segment_of t) None) as [idx ec1] eqn:Hparse.
    rewrite next_segment_render.
    destruct (cut ts) as [segment' sv'] eqn:Hcut.
    destruct (failed ec1) eqn:Hec1; [by rewrite find_walk_stops by (done || lia)|].
    apply failed_false in Hec1 as ->.
    destruct (if_contains arr idx) as [child|];
      [|by rewrite find_walk_null by lia].
    specialize (IH fuel child). simpl in IH.
    rewrite IH by lia. by destruct (find_tokens child ts).
  - rewrite next_segment_render, unescape_escape.
    destruct (cut ts) as [segment' sv'] eqn:Hcut.
    destruct (obj !! t) as [child|]; [|by rewrite find_walk_null by lia].
    specialize (IH fuel child). simpl in IH.
    rewrite IH by lia. by destruct (find_tokens child ts).
Qed.

Theorem find_pointer_render jv ts :
  find_pointer jv (render ts) = find_tokens jv ts.
Proof.
  pose proof (next_segment_render ts None) as Hnext.
  destruct (cut ts) as [segment sv'] eqn:Hcut.
  pose proof (find_pointer_walk jv (render ts) _ _ _ Hnext) as Hwalk.
  pose proof (find_walk_tokens ts (walk_fuel (render ts)) jv) as Htokens.
  rewrite Hcut in Htokens. cbn [fst snd] in Htokens.
  rewrite Htokens in Hwalk; [congruence|].
  unfold walk_fuel. pose proof (length_render ts). lia.
Qed.

Lemma set_on_array_arrives opts arr idx ec arr' i ec' :
  set_on_array opts arr idx ec = (arr', Some i, ec') →
  ec' = None ∧ (i < length arr')%nat.
Proof.
  unfold set_on_array. intros H.
  repeat match type of H with
         | context [if ?b then _ else _] => destruct b eqn:?
         end; simplify_eq; (split; [done|]);
    rewrite ?length_app; cbn [replicate length]; rewrite ?length_replicate;
    repeat match goal with
           | H : (_ <=? _)%N = true |- _ => apply N.leb_le in H
           | H : (_ <=? _)%N = false |- _ => apply N.leb_gt in H
           | H : (_ <? _)%N = true |- _ => apply N.ltb_lt in H
           end; lia.
Qed.

Lemma set_on_array_fails opts arr idx ec arr' ec' :
  set_on_array opts arr idx ec = (arr', None, ec') →
  arr' = arr ∧ failed ec' = true.
Proof.
  unfold set_on_array. intros H.
  repeat match type of H with
         | context [if ?b then _ else _] => destruct b eqn:?
         end; simplify_eq; (split; [done|]); try done.
  by destruct ec'.
Qed.

Lemma set_on_scalar_keeps opts jv segment jv' :
  set_on_scalar opts jv segment = (jv', false) → jv' = jv.
Proof.
  unfold set_on_scalar. intros H.
  repeat match type of H with
         | context [if ?b then _ else _] => destruct b
         end; by simplify_eq.
Qed.

Lemma set_walk_stops opts fuel jv segment sv ec :
  (0 < fuel)%nat → failed ec = true →
  set_walk opts fuel jv segment sv ec = Some (jv, None, ec).
Proof. destruct fuel; [lia|]. intros _ Hec. simpl. by rewrite Hec. Qed.

(** On a well-formed pointer the loop of [set_at_pointer] is the recursion
    over its tokens. *)
Lemma set_walk_tokens opts ts fuel jv :
  (2 * length ts + scalar_weight jv < fuel)%nat →
  set_walk opts fuel jv (cut ts).1 (cut ts).2 None
  = Some (set_tokens opts jv ts).
Proof.
  revert fuel jv. induction ts as [|t ts IH]; intros fuel jv Hlt.
  { destruct fuel; [lia|done]. }
  assert (∀ jv0, scalar_weight jv0 ≤ 1)%nat as Hw by (by intros []; simpl; lia).
  assert (∀ fuel jv, scalar_weight jv = 0%nat →
            (2 * S (length ts) < fuel)%nat →
            set_walk opts fuel jv (segment_of t) (render ts) None
            = Some (set_tokens opts jv (t :: ts))) as Hcontainer.
  { clear fuel jv Hlt. intros [|fuel] jv Hjv Hlt; [lia|].
    destruct jv; try done; simpl.
    - destruct (parse_number_token (segment_of t) None) as [idx ec1].
      rewrite next_segment_render.
      destruct (cut ts) as [segment' sv'] eqn:Hcut.
      destruct (set_on_array opts arr idx ec1) as [[arr' [i|]] ec3] eqn:Harr.
      + apply set_on_array_arrives in Harr as [-> _].
        specialize (IH fuel (arr' !!! i)). cbn [fst snd] in IH.
        rewrite IH by (specialize (Hw (arr' !!! i)); lia).
        by destruct (set_tokens opts (arr' !!! i) ts) as [[c r] e].
      + apply set_on_array_fails in Harr as [-> ->]. done.
    - rewrite next_segment_render, unescape_escape.
      destruct (cut ts) as [segment' sv'] eqn:Hcut.
      specialize (IH fuel (default JNull (obj !! t))). cbn [fst snd] in IH.
      rewrite IH by (specialize (Hw (default JNull (obj !! t))); lia).
      by destruct (set_tokens opts (default JNull (obj !! t)) ts) as [[c r] e]. }
  cbn [cut fst snd length] in *.
  destruct (decide (scalar_weight jv = 0%nat)) as [Hjv|Hjv].
  { apply Hcontainer; [done|lia]. }
  destruct fuel as [|fuel]; [lia|].
  assert (set_walk opts (S fuel) jv (segment_of t) (render ts) None
          = match set_on_scalar opts jv (segment_of t) with
            | (jv', true) => set_walk opts fuel jv' (segment_of t) (render ts) None
            | (jv', false) => Some (jv', None, FAIL value_is_scalar)
            end) as -> by (by destruct jv).
  assert (set_tokens opts jv (t :: ts)
          = match (set_on_scalar opts jv (segment_of t)).1 with
            | JObject obj => set_tokens opts (JObject obj) (t :: ts)
            | JArray arr => set_tokens opts (JArray arr) (t :: ts)
            | _ => (jv, None, FAIL value_is_scalar)
            end) as -> by (by destruct jv).
  destruct (set_on_scalar opts jv (segment_of t)) as [jv' []] eqn:Hs; simpl.
  - rewrite Hcontainer.
    + by apply set_on_scalar_retry in Hs as [-> | ->].
    + by apply set_on_scalar_retry in Hs as [-> | ->].
    + destruct jv; simpl in *; try done; lia.
  - apply set_on_scalar_keeps in Hs as ->. by destruct jv.
Qed.

Theorem set_at_pointer_render opts jv ts ref :
  set_at_pointer_ec jv (render ts) ref opts
  = match set_tokens opts jv ts with
    | (jv', Some p, ec) => (assign jv' p ref, Some p, ec)
    | (jv', None, ec) => (jv', None, ec)
    end.
Proof.
  unfold set_at_pointer_ec. rewrite next_segment_render.
  pose proof (set_walk_tokens opts ts (set_fuel (render ts)) jv) as Hwalk.
  destruct (cut ts) as [segment sv'] eqn:Hcut. cbn [fst snd] in Hwalk.
  rewrite Hwalk; [done|].
  assert (scalar_weight jv ≤ 1)%nat by (by destruct jv; simpl; lia).
  unfold set_fuel. pose proof (length_render ts). lia.
Qed.

(** An empty segment without error is the end of the pointer. *)
Lemma next_segment_end sv ec rest ec' :
  next_segment sv ec = ("", rest, ec') → failed ec' = false → sv = "".
Proof.
  destruct sv as [|c s]; [done|]. cbn [next_segment].
  destruct (Ascii.eqb c "/").
  - by destruct (scan_segment s) as [[seg' rest'] ec''].
  - by intros [= <- <-].
Qed.

End WalkFacts.

(** ** Facts about the library calls the accessors make *)

Module LibraryFacts.
Import Json Pointer Tokens AddressFacts WalkFacts.

Lemma next_segment_cases sv ec :
  ∃ segment sv' ec', next_segment sv ec = (segment, sv', ec').
Proof. destruct (next_segment sv ec) as [[? ?] ?]. eauto. Qed.

Lemma find_pointer_arrives jv sv p :
  resolves jv sv p → is_Some (deref jv p) ∧ find_pointer jv sv = (Some p, None).
Proof.
  unfold resolves.
  destruct (next_segment_cases sv None) as (segment & sv' & ec & Hnext).
  pose proof (find_pointer_walk jv sv _ _ _ Hnext) as Hwalk.
  destruct (find_pointer jv sv) as [r ec'] eqn:Hfind. simpl. intros ->.
  apply find_walk_arrives in Hwalk as [Hp ->]. done.
Qed.

Lemma find_pointer_fails jv sv :
  unresolved jv sv →
  ∃ e, find_pointer jv sv = (None, FAIL e).
Proof.
  unfold unresolved.
  destruct (next_segment_cases sv None) as (segment & sv' & ec & Hnext).
  pose proof (find_pointer_walk jv sv _ _ _ Hnext) as Hwalk.
  destruct (find_pointer jv sv) as [r ec'] eqn:Hfind. simpl. intros ->.
  apply find_walk_fails, failed_true in Hwalk as [e ->]. eauto.
Qed.

Lemma find_pointer_not_found jv sv :
  unresolved jv sv →
  ∃ ec, NotFound ec ∧ find_pointer jv sv = (None, ec).
Proof.
  unfold unresolved.
  destruct (next_segment_cases sv None) as (segment & sv' & ec & Hnext).
  pose proof (find_pointer_walk jv sv _ _ _ Hnext) as Hwalk.
  destruct (find_pointer jv sv) as [r ec'] eqn:Hfind. simpl. intros ->.
  exists ec'. split; [|done].
  eapply find_walk_not_found; [done|].
  eapply next_segment_error; [done|by left].
Qed.

Lemma resolves_or_not jv sv : (∃ p, resolves jv sv p) ∨ unresolved jv sv.
Proof.
  unfold resolves, unresolved. destruct (find_pointer jv sv).1; eauto.
Qed.

(** An assignment through the pointer a walk returned does not move the
    node: the same pointer string resolves to the same address. *)
Lemma find_pointer_assign jv sv p new :
  resolves jv sv p → resolves (assign jv p new) sv p.
Proof.
  intros Hres. apply find_pointer_arrives in Hres as [_ Hfind].
  unfold resolves.
  destruct (next_segment_cases sv None) as (segment & sv' & ec & Hnext).
  pose proof (find_pointer_walk jv sv _ _ _ Hnext) as Hwalk.
  pose proof (find_pointer_walk (assign jv p new) sv _ _ _ Hnext) as Hwalk'.
  rewrite Hfind in Hwalk.
  rewrite (find_walk_assign _ _ _ _ _ _ _ new Hwalk) in Hwalk'.
  injection Hwalk' as <-. done.
Qed.

(** Where the pointer resolves, [set_at_pointer] is the assignment through
    the address [find_pointer] returns: same result as [write]. *)
Lemma set_at_pointer_resolved opts jv sv p ref :
  resolves jv sv p →
  set_at_pointer jv sv ref opts = (assign jv p ref, Returns p).
Proof.
  intros Hres. apply find_pointer_arrives in Hres as [_ Hfind].
  destruct (next_segment_cases sv None) as (segment & sv' & ec & Hnext).
  pose proof (find_pointer_walk jv sv _ _ _ Hnext) as Hwalk.
  rewrite Hfind in Hwalk.
  unfold set_at_pointer, set_at_pointer_ec. rewrite Hnext.
  rewrite (set_walk_of_find opts _ (set_fuel sv) _ _ _ _ _ _ Hwalk); [done|].
  unfold walk_fuel, set_fuel. lia.
Qed.

(** The loop of [set_at_pointer] always ends: the document it returns is
    the one its walk built. *)
Lemma set_at_pointer_ends opts jv sv segment sv' ec :
  next_segment sv None = (segment, sv', ec) →
  is_Some (set_walk opts (set_fuel sv) jv segment sv' ec).
Proof.
  intros Hnext. apply set_walk_fuel. apply next_segment_length in Hnext.
  assert (scalar_weight jv ≤ 1)%nat by (by destruct jv; simpl; lia).
  unfold set_fuel. lia.
Qed.

End LibraryFacts.

(** ** Facts about the conversions *)

Module ConversionFacts.
Import Json Conversion.

#[global] Instance string_round_trip : RoundTrip string.
Proof. by intros [] v; simpl; intros [= <-]. Qed.

#[global] Instance string_errors : ConversionErrors string.
Proof. by intros [] ec; simpl; intros [= <-]. Qed.

Lemma int_exact_value (i : int) : int_exact (int_value i) = Some i.
Proof.
  destruct i as [z Hz]. unfold int_exact. cbn [int_value].
  revert Hz. generalize (Int z). destruct (int_range z); intros mk Hz.
  - by destruct Hz.
  - destruct Hz.
Qed.

#[global] Instance int_round_trip : RoundTrip int.
Proof. intros jv v _. simpl. by rewrite int_exact_value. Qed.

#[global] Instance int_errors : ConversionErrors int.
Proof.
  intros jv ec. simpl. unfold to_number_int.
  repeat case_match; by intros [= <-].
Qed.

Lemma try_elements_round_trip {T} `{!JsonType T} `{!RoundTrip T}
    (arr : list value) (vs : list T) :
  try_elements arr = Ok vs → try_elements (value_from <$> vs) = Ok vs.
Proof.
  revert vs. induction arr as [|jv arr IH]; intros vs; simpl.
  { by intros [= <-]. }
  destruct (try_value_to jv) as [v|] eqn:Hv; [|done].
  destruct (try_elements arr) as [vs'|] eqn:Hvs; [|done].
  intros [= <-]. specialize (IH _ eq_refl). rewrite fmap_cons.
  cbn [try_elements]. by rewrite (round_trip _ _ Hv), IH.
Qed.

#[global] Instance vector_round_trip {T} `{!JsonType T} `{!RoundTrip T} :
  RoundTrip (list T).
Proof.
  intros jv vs. simpl. destruct jv; try done. apply try_elements_round_trip.
Qed.

Lemma try_elements_errors {T} `{!JsonType T} `{!ConversionErrors T}
    (arr : list value) (ec : error_code) :
  try_elements (T:=T) arr = Err ec → TypeMismatch ec.
Proof.
  induction arr as [|jv arr IH]; simpl; [done|].
  destruct (try_value_to jv) as [v|ec'] eqn:Hv.
  - destruct (try_elements arr) as [vs'|ec'']; [done|].
    intros [= <-]. by apply IH.
  - intros [= <-]. by eapply conversion_errors.
Qed.

#[global] Instance vector_errors {T} `{!JsonType T} `{!ConversionErrors T} :
  ConversionErrors (list T).
Proof.
  intros jv ec. simpl.
  destruct jv; try (by intros [= <-]). apply try_elements_errors.
Qed.

End ConversionFacts.

(** ** Facts about the creating walk *)

Module EmplaceFacts.
Import Json Pointer Tokens AddressFacts WalkFacts LibraryFacts.

Lemma set_tokens_scalar opts jv t ts :
  scalar_weight jv = 1%nat →
  set_tokens opts jv (t :: ts)
  = match set_on_scalar opts jv (segment_of t) with
    | (container, true) => set_tokens opts container (t :: ts)
    | (_, false) => (jv, None, FAIL value_is_scalar)
    end.
Proof.
  intros Hjv.
  assert (set_tokens opts jv (t :: ts)
          = match (set_on_scalar opts jv (segment_of t)).1 with
            | JObject obj => set_tokens opts (JObject obj) (t :: ts)
            | JArray arr => set_tokens opts (JArray arr) (t :: ts)
            | _ => (jv, None, FAIL value_is_scalar)
            end) as -> by (by destruct jv).
  destruct (set_on_scalar opts jv (segment_of t)) as [c []] eqn:Hs; simpl.
  - by apply set_on_scalar_retry in Hs as [-> | ->].
  - apply set_on_scalar_keeps in Hs as ->. by destruct jv.
Qed.

Lemma set_tokens_object opts obj t ts :
  set_tokens opts (JObject obj) (t :: ts)
  = let '(child', r, ec) := set_tokens opts (default JNull (obj !! t)) ts in
    (JObject (<[t := child']> obj), option_map (λ p, key t :: p) r, ec).
Proof. done. Qed.

Lemma set_tokens_array opts arr t ts :
  set_tokens opts (JArray arr) (t :: ts)
  = let '(idx, ec1) := parse_number_token (segment_of t) None in
    match set_on_array opts arr idx ec1 with
    | (arr', Some i, _) =>
        let '(child', r, ec) := set_tokens opts (arr' !!! i) ts in
        (JArray (<[i := child']> arr'), option_map (λ p, index i :: p) r, ec)
    | (arr', None, ec3) => (JArray arr', None, ec3)
    end.
Proof. done. Qed.

(** The array callback only ever appends nulls. *)
Lemma set_on_array_grows opts arr idx ec arr' r ec' :
  set_on_array opts arr idx ec = (arr', r, ec') →
  ∃ k, arr' = arr ++ replicate k JNull.
Proof.
  unfold set_on_array. intros H.
  repeat match type of H with
         | context [if ?b then _ else _] => destruct b eqn:?
         end; simplify_eq;
    try (by exists 0%nat; rewrite app_nil_r); by eexists (S _).
Qed.

Lemma deref_scalar jv q :
  scalar_weight jv = 1%nat → q ≠ [] → deref jv q = None.
Proof. destruct q as [|[k|i] q]; [done|..]; by destruct jv. Qed.

Lemma deref_empty_container jv q :
  jv = JArray [] ∨ jv = JObject ∅ → q ≠ [] → deref jv q = None.
Proof. intros [-> | ->]; destruct q as [|[k|i] q]; done. Qed.

Lemma apart_nonempty p q : apart p q → q ≠ [].
Proof. intros Hpq ->. by eapply apart_nil_r. Qed.

(** A walk that arrives returns a cleared error code and the address of a
    node of the document it built. *)
Lemma set_tokens_arrives opts ts jv jv' p ec :
  set_tokens opts jv ts = (jv', Some p, ec) →
  ec = None ∧ is_Some (deref jv' p).
Proof.
  revert jv jv' p ec. induction ts as [|t ts IH]; intros jv jv' p ec.
  { simpl. intros [= <- <- <-]. eauto. }
  assert (∀ jv, scalar_weight jv = 0%nat →
            set_tokens opts jv (t :: ts) = (jv', Some p, ec) →
            ec = None ∧ is_Some (deref jv' p)) as Hcontainer.
  { clear jv. intros jv Hjv. destruct jv; try done.
    - rewrite set_tokens_array.
      destruct (parse_number_token (segment_of t) None) as [idx ec1].
      destruct (set_on_array opts arr idx ec1) as [[arr' [i|]] ec3] eqn:Harr;
        [|done].
      destruct (set_tokens opts (arr' !!! i) ts) as [[child' [p'|]] ec'] eqn:Hts;
        [|done].
      intros [= <- <- <-]. apply IH in Hts as [-> Hp]. split; [done|].
      apply set_on_array_arrives in Harr as [_ Hi]. simpl.
      by rewrite list_lookup_insert_eq.
    - rewrite set_tokens_object.
      destruct (set_tokens opts (default JNull (obj !! t)) ts)
        as [[child' [p'|]] ec'] eqn:Hts; [|done].
      intros [= <- <- <-]. apply IH in Hts as [-> Hp]. split; [done|].
      simpl. by rewrite lookup_insert_eq. }
  destruct (decide (scalar_weight jv = 0%nat)) as [Hjv|Hjv]; [by apply Hcontainer|].
  rewrite set_tokens_scalar by (destruct jv; simpl in *; done).
  destruct (set_on_scalar opts jv (segment_of t)) as [c []] eqn:Hs; [|done].
  apply Hcontainer. by apply set_on_scalar_retry in Hs as [-> | ->].
Qed.

Lemma set_on_array_lookup opts arr idx ec arr' i ec' j :
  set_on_array opts arr idx ec = (arr', Some i, ec') →
  arr' !! j = match arr !! j with
              | Some child => Some child
              | None => if bool_decide (j ≤ i)%nat then Some JNull else None
              end.
Proof.
  intros Harr.
  pose proof (set_on_array_arrives _ _ _ _ _ _ _ Harr) as [_ Hi].
  assert (arr' = arr ∧ (i < length arr)%nat
          ∨ ∃ k, arr' = arr ++ replicate (S k) JNull
                 ∧ i = (length arr + k)%nat) as Hcases.
  { unfold set_on_array in Harr.
    repeat match type of Harr with
           | context [if ?b then _ else _] => destruct b eqn:?
           end; simplify_eq;
      repeat match goal with
             | H : (_ <=? _)%N = true |- _ => apply N.leb_le in H
             | H : (_ <=? _)%N = false |- _ => apply N.leb_gt in H
             | H : (_ <? _)%N = true |- _ => apply N.ltb_lt in H
             end;
      first [left; split; [done|lia] | right; eexists; split; [done|lia]]. }
  destruct (arr !! j) as [child|] eqn:Hj.
  { destruct Hcases as [[-> _]|(k & -> & _)]; [done|].
    by apply lookup_app_l_Some. }
  apply lookup_ge_None in Hj.
  destruct Hcases as [[-> Hlt]|(k & -> & ->)].
  - rewrite bool_decide_eq_false_2 by lia. by apply lookup_ge_None.
  - rewrite lookup_app_r by done. case_bool_decide as Hle.
    + apply lookup_replicate_2. lia.
    + apply lookup_ge_None. rewrite length_replicate. lia.
Qed.

Lemma set_on_array_child opts arr idx ec arr' i ec' :
  set_on_array opts arr idx ec = (arr', Some i, ec') →
  arr' !!! i = default JNull (arr !! i).
Proof.
  intros Harr. apply list_lookup_total_correct.
  rewrite (set_on_array_lookup _ _ _ _ _ _ _ i Harr).
  destruct (arr !! i); [done|]. by rewrite bool_decide_eq_true_2.
Qed.

Lemma off_path_scalar jv p q :
  scalar_weight jv = 1%nat → q ≠ [] →
  off_path jv p q = if padding p q then Some JNull else None.
Proof. intros Hjv Hq. unfold off_path. by rewrite deref_scalar. Qed.

Lemma off_path_key obj k p q :
  off_path (JObject obj) (key k :: p) (key k :: q)
  = match obj !! k with
    | Some child => off_path child p q
    | None => if padding p q then Some JNull else None
    end.
Proof.
  unfold off_path. cbn [deref padding].
  rewrite bool_decide_eq_true_2 by done. cbn [andb].
  by destruct (obj !! k).
Qed.

Lemma off_path_index arr i p q :
  off_path (JArray arr) (index i :: p) (index i :: q)
  = match arr !! i with
    | Some child => off_path child p q
    | None => if padding p q then Some JNull else None
    end.
Proof.
  unfold off_path. cbn [deref padding].
  rewrite bool_decide_eq_true_2 by done.
  by destruct (arr !! i).
Qed.

(** What the walk creates lies on the path, except the nulls that pad a
    grown array: at an address apart from the one it arrives at, the
    document is what it was, with a null at each padding position. *)
Lemma set_tokens_frame opts ts jv jv' p ec q :
  set_tokens opts jv ts = (jv', Some p, ec) →
  apart p q →
  deref jv' q = off_path jv p q.
Proof.
  revert jv jv' p ec q. induction ts as [|t ts IH]; intros jv jv' p ec q.
  { simpl. intros [= <- <- <-] Hq. by destruct (apart_nil_l q). }
  assert (∀ jv, scalar_weight jv = 0%nat →
            set_tokens opts jv (t :: ts) = (jv', Some p, ec) →
            apart p q →
            deref jv' q = off_path jv p q) as Hcontainer.
  { clear jv. intros jv Hjv. destruct jv; try done.
    - rewrite set_tokens_array.
      destruct (parse_number_token (segment_of t) None) as [idx ec1].
      destruct (set_on_array opts arr idx ec1) as [[arr' [i|]] ec3] eqn:Harr;
        [|done].
      destruct (set_tokens opts (arr' !!! i) ts) as [[child' [p'|]] ec'] eqn:Hts;
        [|done].
      intros [= <- <- <-] Hq.
      pose proof (set_on_array_arrives _ _ _ _ _ _ _ Harr) as [_ Hi].
      destruct q as [|[k'|j] q];
        [by destruct (apart_nil_r (index i :: p'))|done|].
      destruct (decide (j = i)) as [->|Hne].
      + rewrite off_path_index. cbn [deref].
        rewrite list_lookup_insert_eq by done. cbn.
        apply apart_cons_inv in Hq.
        rewrite (IH _ _ _ _ q Hts Hq).
        rewrite (set_on_array_child _ _ _ _ _ _ _ Harr).
        destruct (arr !! i) as [child|]; cbn; [done|].
        apply off_path_scalar; [done|by eapply apart_nonempty].
      + cbn [deref]. rewrite list_lookup_insert_ne by done.
        rewrite (set_on_array_lookup _ _ _ _ _ _ _ j Harr).
        unfold off_path. cbn [deref padding].
        rewrite (bool_decide_eq_false_2 (j = i)) by done.
        destruct (arr !! j) as [child|]; cbn.
        * destruct (deref child q) eqn:Hchild; [done|].
          rewrite (bool_decide_eq_false_2 (q = [])); [done|].
          by intros ->.
        * case_bool_decide as Hle.
          -- destruct q as [|s q]; cbn.
             ++ rewrite bool_decide_eq_true_2 by lia. done.
             ++ by destruct s.
          -- rewrite (bool_decide_eq_false_2 (j < i)%nat) by lia.
             by rewrite andb_false_r.
    - rewrite set_tokens_object.
      destruct (set_tokens opts (default JNull (obj !! t)) ts)
        as [[child' [p'|]] ec'] eqn:Hts; [|done].
      intros [= <- <- <-] Hq.
      destruct q as [|[k|j] q];
        [by destruct (apart_nil_r (key t :: p'))| |done].
      destruct (decide (k = t)) as [->|Hne].
      + rewrite off_path_key. cbn [deref]. rewrite lookup_insert_eq. cbn.
        apply apart_cons_inv in Hq.
        rewrite (IH _ _ _ _ q Hts Hq).
        destruct (obj !! t) as [child|]; cbn; [done|].
        apply off_path_scalar; [done|by eapply apart_nonempty].
      + unfold off_path. cbn [deref padding].
        rewrite lookup_insert_ne by done.
        rewrite (bool_decide_eq_false_2 (t = k)) by done. cbn [andb].
        by destruct (obj !! k ≫= λ child, deref child q). }
  destruct (decide (scalar_weight jv = 0%nat)) as [Hjv|Hjv]; [by apply Hcontainer|].
  assert (scalar_weight jv = 1%nat) as Hjv' by (destruct jv; simpl in *; done).
  rewrite set_tokens_scalar by done.
  destruct (set_on_scalar opts jv (segment_of t)) as [c []] eqn:Hs; [|done].
  intros Hts Hq. apply set_on_scalar_retry in Hs.
  assert (scalar_weight c = 0%nat) as Hc by (by destruct Hs as [-> | ->]).
  rewrite (Hcontainer c Hc Hts Hq).
  unfold off_path.
  rewrite (deref_scalar jv q) by (done || by eapply apart_nonempty).
  by rewrite (deref_empty_container c q) by (done || by eapply apart_nonempty).
Qed.

(** *** Repeating the walk *)

(** Once a position exists, the array callback returns it for every array
    of that size and creates nothing. *)
Lemma set_on_array_again opts arr idx ec arr' i ec' (arr'' : list value) :
  set_on_array opts arr idx ec = (arr', Some i, ec') →
  ec ≠ FAIL past_the_end →
  length arr'' = length arr' →
  set_on_array opts arr'' idx ec = (arr'', Some i, None).
Proof.
  unfold set_on_array. intros H Hec Hlen.
  rewrite bool_decide_eq_false_2 in H |- * by done.
  rewrite andb_true_r in H |- *.
  destruct (failed ec); [done|].
  assert (N.to_nat idx < length arr' ∧ i = N.to_nat idx) as [Hi ->].
  { repeat match type of H with
           | context [if ?b then _ else _] => destruct b eqn:?
           end; simplify_eq;
      rewrite ?length_app; cbn [replicate length]; rewrite ?length_replicate;
      repeat match goal with
             | H : (_ <=? _)%N = true |- _ => apply N.leb_le in H
             | H : (_ <=? _)%N = false |- _ => apply N.leb_gt in H
             | H : (_ <? _)%N = true |- _ => apply N.ltb_lt in H
             end; split; (done || lia). }
  by rewrite (proj2 (N.leb_gt _ _)) by lia.
Qed.

(** A walk that failed fails the same way on the document it left. *)
Lemma set_tokens_fails_again opts ts jv jv' ec :
  past_the_end_token ∉ ts →
  set_tokens opts jv ts = (jv', None, ec) →
  set_tokens opts jv' ts = (jv', None, ec).
Proof.
  revert jv jv' ec. induction ts as [|t ts IH]; intros jv jv' ec Hdash; [done|].
  apply not_elem_of_cons in Hdash as [Ht Hts].
  assert (∀ jv, scalar_weight jv = 0%nat →
            set_tokens opts jv (t :: ts) = (jv', None, ec) →
            set_tokens opts jv' (t :: ts) = (jv', None, ec)) as Hcontainer.
  { clear jv. intros jv Hjv. destruct jv; try done.
    - rewrite set_tokens_array.
      destruct (parse_number_token (segment_of t) None) as [idx ec1] eqn:Hparse.
      destruct (set_on_array opts arr idx ec1) as [[arr' [i|]] ec3] eqn:Harr.
      + destruct (set_tokens opts (arr' !!! i) ts) as [[child' [p'|]] ec'] eqn:Hchild;
          [done|].
        intros [= <- <-].
        pose proof (set_on_array_arrives _ _ _ _ _ _ _ Harr) as [_ Hi].
        rewrite set_tokens_array, Hparse.
        rewrite (set_on_array_again _ _ _ _ _ _ _ (<[i:=child']> arr') Harr)
          by (by eapply parse_number_token_not_past_the_end
              || by rewrite length_insert).
        rewrite list_lookup_total_insert_eq by done.
        rewrite (IH _ _ _ Hts Hchild). by rewrite list_insert_insert_eq.
      + intros [= <- <-].
        pose proof (set_on_array_fails _ _ _ _ _ _ Harr) as [-> _].
        by rewrite set_tokens_array, Hparse, Harr.
    - rewrite set_tokens_object.
      destruct (set_tokens opts (default JNull (obj !! t)) ts)
        as [[child' [p'|]] ec'] eqn:Hchild; [done|].
      intros [= <- <-].
      rewrite set_tokens_object, lookup_insert_eq. simpl.
      rewrite (IH _ _ _ Hts Hchild). by rewrite insert_insert_eq. }
  destruct (decide (scalar_weight jv = 0%nat)) as [Hjv|Hjv]; [by apply Hcontainer|].
  assert (scalar_weight jv = 1%nat) as Hjv' by (destruct jv; simpl in *; done).
  rewrite set_tokens_scalar by done.
  destruct (set_on_scalar opts jv (segment_of t)) as [c []] eqn:Hs.
  - apply Hcontainer. by apply set_on_scalar_retry in Hs as [-> | ->].
  - intros [= <- <-]. by rewrite set_tokens_scalar, Hs.
Qed.

(** A walk that arrived arrives at the same address on the document it
    left, whatever the node at that address holds, and creates nothing. *)
Lemma set_tokens_arrives_again opts ts jv jv' p ec new :
  past_the_end_token ∉ ts →
  set_tokens opts jv ts = (jv', Some p, ec) →
  set_tokens opts (assign jv' p new) ts = (assign jv' p new, Some p, ec).
Proof.
  revert jv jv' p ec. induction ts as [|t ts IH]; intros jv jv' p ec Hdash.
  { simpl. by intros [= <- <- <-]. }
  apply not_elem_of_cons in Hdash as [Ht Hts].
  assert (∀ jv, scalar_weight jv = 0%nat →
            set_tokens opts jv (t :: ts) = (jv', Some p, ec) →
            set_tokens opts (assign jv' p new) (t :: ts)
            = (assign jv' p new, Some p, ec)) as Hcontainer.
  { clear jv. intros jv Hjv. destruct jv; try done.
    - rewrite set_tokens_array.
      destruct (parse_number_token (segment_of t) None) as [idx ec1] eqn:Hparse.
      destruct (set_on_array opts arr idx ec1) as [[arr' [i|]] ec3] eqn:Harr;
        [|done].
      destruct (set_tokens opts (arr' !!! i) ts) as [[child' [p'|]] ec'] eqn:Hchild;
        [|done].
      intros [= <- <- <-].
      pose proof (set_on_array_arrives _ _ _ _ _ _ _ Harr) as [_ Hi].
      cbn [assign]. rewrite list_lookup_insert_eq by done.
      rewrite list_insert_insert_eq.
      rewrite set_tokens_array, Hparse.
      rewrite (set_on_array_again _ _ _ _ _ _ _
                 (<[i:=assign child' p' new]> arr') Harr)
        by (by eapply parse_number_token_not_past_the_end
            || by rewrite length_insert).
      rewrite list_lookup_total_insert_eq by done.
      rewrite (IH _ _ _ _ Hts Hchild). by rewrite list_insert_insert_eq.
    - rewrite set_tokens_object.
      destruct (set_tokens opts (default JNull (obj !! t)) ts)
        as [[child' [p'|]] ec'] eqn:Hchild; [|done].
      intros [= <- <- <-].
      cbn [assign]. rewrite lookup_insert_eq, insert_insert_eq.
      rewrite set_tokens_object, lookup_insert_eq. simpl.
      rewrite (IH _ _ _ _ Hts Hchild). by rewrite insert_insert_eq. }
  destruct (decide (scalar_weight jv = 0%nat)) as [Hjv|Hjv]; [by apply Hcontainer|].
  assert (scalar_weight jv = 1%nat) as Hjv' by (destruct jv; simpl in *; done).
  rewrite set_tokens_scalar by done.
  destruct (set_on_scalar opts jv (segment_of t)) as [c []] eqn:Hs; [|done].
  apply Hcontainer. by apply set_on_scalar_retry in Hs as [-> | ->].
Qed.

Lemma set_on_array_position opts arr idx ec arr' i ec' :
  set_on_array opts arr idx ec = (arr', Some i, ec') →
  ec ≠ FAIL past_the_end →
  ec = None ∧ i = N.to_nat idx ∧ (idx <? N.of_nat (length arr'))%N = true.
Proof.
  unfold set_on_array. intros H Hec.
  rewrite bool_decide_eq_false_2 in H by done.
  rewrite andb_true_r in H.
  destruct (failed ec) eqn:Hfailed; [done|].
  apply failed_false in Hfailed as ->. split; [done|].
  repeat match type of H with
         | context [if ?b then _ else _] => destruct b eqn:?
         end; simplify_eq; (split; [done|]); apply N.ltb_lt;
    rewrite ?length_app; cbn [replicate length]; rewrite ?length_replicate;
    repeat match goal with
           | H : (_ <=? _)%N = true |- _ => apply N.leb_le in H
           | H : (_ <=? _)%N = false |- _ => apply N.leb_gt in H
           | H : (_ <? _)%N = true |- _ => apply N.ltb_lt in H
           end; lia.
Qed.

(** After a walk that arrived, the pointer resolves to the address the
    walk returned, whatever the node at that address holds. *)
Lemma set_tokens_then_find opts ts jv jv' p ec new :
  past_the_end_token ∉ ts →
  set_tokens opts jv ts = (jv', Some p, ec) →
  find_tokens (assign jv' p new) ts = (Some p, None).
Proof.
  revert jv jv' p ec. induction ts as [|t ts IH]; intros jv jv' p ec Hdash.
  { simpl. by intros [= <- <- <-]. }
  apply not_elem_of_cons in Hdash as [Ht Hts].
  assert (∀ jv, scalar_weight jv = 0%nat →
            set_tokens opts jv (t :: ts) = (jv', Some p, ec) →
            find_tokens (assign jv' p new) (t :: ts) = (Some p, None))
    as Hcontainer.
  { clear jv. intros jv Hjv. destruct jv; try done.
    - rewrite set_tokens_array.
      destruct (parse_number_token (segment_of t) None) as [idx ec1] eqn:Hparse.
      destruct (set_on_array opts arr idx ec1) as [[arr' [i|]] ec3] eqn:Harr;
        [|done].
      destruct (set_tokens opts (arr' !!! i) ts) as [[child' [p'|]] ec'] eqn:Hchild;
        [|done].
      intros [= <- <- <-].
      pose proof (set_on_array_arrives _ _ _ _ _ _ _ Harr) as [_ Hi].
      apply set_on_array_position in Harr as (-> & -> & Hidx);
        [|by eapply parse_number_token_not_past_the_end].
      cbn [assign]. rewrite list_lookup_insert_eq by done.
      rewrite list_insert_insert_eq.
      cbn [find_tokens]. rewrite Hparse. cbn [failed].
      unfold if_contains. rewrite length_insert, Hidx.
      rewrite list_lookup_insert_eq by done.
      by rewrite (IH _ _ _ _ Hts Hchild).
    - rewrite set_tokens_object.
      destruct (set_tokens opts (default JNull (obj !! t)) ts)
        as [[child' [p'|]] ec'] eqn:Hchild; [|done].
      intros [= <- <- <-].
      cbn [assign]. rewrite lookup_insert_eq, insert_insert_eq.
      cbn [find_tokens]. rewrite lookup_insert_eq.
      by rewrite (IH _ _ _ _ Hts Hchild). }
  destruct (decide (scalar_weight jv = 0%nat)) as [Hjv|Hjv]; [by apply Hcontainer|].
  assert (scalar_weight jv = 1%nat) as Hjv' by (destruct jv; simpl in *; done).
  rewrite set_tokens_scalar by done.
  destruct (set_on_scalar opts jv (segment_of t)) as [c []] eqn:Hs; [|done].
  apply Hcontainer. by apply set_on_scalar_retry in Hs as [-> | ->].
Qed.

Lemma assign_assign jv p x y :
  assign (assign jv p x) p y = assign jv p y.
Proof.
  revert jv. induction p as [|[k|i] p IH]; intros jv; simpl; [done|..].
  - destruct jv; try done.
    destruct (obj !! k) as [child|] eqn:Hk; simpl; [|by rewrite Hk].
    by rewrite lookup_insert_eq, insert_insert_eq, IH.
  - destruct jv; try done.
    destruct (arr !! i) as [child|] eqn:Hi; simpl; [|by rewrite Hi].
    rewrite list_lookup_insert_eq by (by eapply lookup_lt_Some).
    by rewrite list_insert_insert_eq, IH.
Qed.

(** *** Paths of member names *)

Lemma set_on_scalar_names_member t :
  names_member t = true →
  set_on_scalar default_options JNull (segment_of t) = (JObject ∅, true).
Proof.
  unfold names_member, set_on_scalar. simpl.
  destruct (parse_number_token (segment_of t) None).2 as [e|]; simpl; [|done].
  repeat case_bool_decide; simpl; congruence.
Qed.


Lemma set_tokens_nest ts :
  forallb names_member ts = true →
  set_tokens default_options JNull ts = (nest ts JNull, Some (key <$> ts), None).
Proof.
  induction ts as [|t ts IH]; intros Hts; [done|].
  simpl in Hts. apply andb_true_iff in Hts as [Ht Hts].
  rewrite set_tokens_scalar, set_on_scalar_names_member by done.
  rewrite set_tokens_object, lookup_empty. simpl.
  by rewrite (IH Hts), insert_empty.
Qed.


Lemma assign_nest ts leaf new :
  assign (nest ts leaf) (key <$> ts) new = nest ts new.
Proof.
  induction ts as [|t ts IH]; [done|].
  rewrite fmap_cons. cbn [nest assign].
  by rewrite lookup_singleton_eq, insert_singleton_eq, IH.
Qed.

(** *** Where the way can be made *)

(** The array callback under the default options, by the position the
    token addresses. *)
Lemma set_on_array_reach t arr idx ec1 :
  parse_number_token (segment_of t) None = (idx, ec1) →
  match position t (length arr) with
  | Some i =>
      ∃ arr', set_on_array default_options arr idx ec1 = (arr', Some i, None)
  | None =>
      ∃ e, set_on_array default_options arr idx ec1 = (arr, None, FAIL e)
           ∧ pointer_use_error e = true
  end.
Proof.
  intros Hparse. unfold position. rewrite Hparse.
  destruct ec1 as [e|].
  - case_bool_decide as He.
    + subst e. eexists. unfold set_on_array. cbn [failed FAIL negb andb].
      rewrite bool_decide_eq_true_2 by done. cbn [negb andb].
      rewrite N.leb_refl, N.sub_diag, Nat2N.id. done.
    + exists e. split.
      * unfold set_on_array. cbn [failed]. 
        rewrite bool_decide_eq_false_2 by (unfold FAIL; congruence). done.
      * apply parse_number_token_codes in Hparse as [?|(e' & [= <-] & He')];
          done.
  - unfold set_on_array. cbn [failed negb andb].
    rewrite bool_decide_eq_false_2 by done.
    destruct (idx <? N.of_nat (length arr) + 2)%N eqn:Hreach.
    + apply N.ltb_lt in Hreach.
      destruct (N.of_nat (length arr) <=? idx)%N eqn:Hle; [|by eexists].
      apply N.leb_le in Hle. cbn [max_created_elements default_options].
      rewrite (proj2 (N.ltb_lt _ _)) by lia. by eexists.
    + apply N.ltb_ge in Hreach.
      rewrite (proj2 (N.leb_le _ _)) by lia.
      cbn [max_created_elements default_options].
      rewrite (proj2 (N.ltb_ge _ _)) by lia. by eexists.
Qed.

Lemma set_on_scalar_null t :
  set_on_scalar default_options JNull (segment_of t)
  = (if names_member t then JObject ∅ else JArray [], true).
Proof.
  unfold names_member, set_on_scalar. simpl.
  destruct (parse_number_token (segment_of t) None).2 as [e|]; simpl; [|done].
  repeat case_bool_decide; simpl; congruence.
Qed.

(** The creating walk arrives exactly where the way can be made, at the
    address the way spells; where it cannot, the walk reports that the
    document has no node for the pointer. *)
Lemma set_tokens_way ts jv :
  match way jv ts with
  | Some p => ∃ jv', set_tokens default_options jv ts = (jv', Some p, None)
  | None => ∃ jv' e, set_tokens default_options jv ts = (jv', None, FAIL e)
                     ∧ pointer_use_error e = true
  end.
Proof.
  revert jv. induction ts as [|t ts IH]; intros jv.
  { cbn. by eexists. }
  assert (∀ obj,
            match way (JObject obj) (t :: ts) with
            | Some p => ∃ jv', set_tokens default_options (JObject obj) (t :: ts)
                               = (jv', Some p, None)
            | None => ∃ jv' e, set_tokens default_options (JObject obj) (t :: ts)
                               = (jv', None, FAIL e)
                               ∧ pointer_use_error e = true
            end) as Hobject.
  { intros obj. rewrite set_tokens_object. cbn [way].
    specialize (IH (default JNull (obj !! t))).
    destruct (way (default JNull (obj !! t)) ts) as [p|]; cbn.
    - destruct IH as (child' & ->). by eexists.
    - destruct IH as (child' & e & -> & He). by do 2 eexists. }
  assert (∀ arr,
            match way (JArray arr) (t :: ts) with
            | Some p => ∃ jv', set_tokens default_options (JArray arr) (t :: ts)
                               = (jv', Some p, None)
            | None => ∃ jv' e, set_tokens default_options (JArray arr) (t :: ts)
                               = (jv', None, FAIL e)
                               ∧ pointer_use_error e = true
            end) as Harray.
  { intros arr. rewrite set_tokens_array. cbn [way].
    destruct (parse_number_token (segment_of t) None) as [idx ec1] eqn:Hparse.
    pose proof (set_on_array_reach t arr idx ec1 Hparse) as Hpos.
    destruct (position t (length arr)) as [i|]; cbn.
    - destruct Hpos as [arr' Harr]. rewrite Harr.
      rewrite (set_on_array_child _ _ _ _ _ _ _ Harr).
      specialize (IH (default JNull (arr !! i))).
      destruct (way (default JNull (arr !! i)) ts) as [p|]; cbn.
      + destruct IH as (child' & ->). by eexists.
      + destruct IH as (child' & e & -> & He). by do 2 eexists.
    - destruct Hpos as (e & -> & He). by do 2 eexists. }
  destruct jv as [|b|i|u|d|s|arr|obj];
    [|by do 2 eexists..|apply Harray|apply Hobject].
  rewrite set_tokens_scalar, set_on_scalar_null by done.
  cbn [way]. destruct (names_member t).
  - specialize (Hobject ∅). cbn [way] in Hobject.
    by rewrite lookup_empty in Hobject.
  - specialize (Harray []). cbn [way length] in Harray.
    destruct (position t 0) as [i|]; [|done].
    cbn [mbind option_bind] in Harray |- *.
    by rewrite lookup_nil in Harray.
Qed.

(** *** Pointers through which a walk arrives *)

(** A segment that scans without error is the escaped form of the token
    it stands for, and what follows it is the rest of the pointer. *)
Lemma scan_segment_token_aux (n : nat) s seg rest :
  (String.length s ≤ n)%nat →
  scan_segment s = (seg, rest, None) →
  s = seg +:+ rest ∧ escape (unescape seg) = seg.
Proof.
  revert s seg rest. induction n as [|n IH]; intros s seg rest Hn.
  { destruct s; simpl in *; [|lia]. by intros [= <- <-]. }
  destruct s as [|c s]; [by intros [= <- <-]|].
  cbn [scan_segment].
  destruct (Ascii.eqb c "/") eqn:Hslash; [by intros [= <- <-]|].
  destruct (Ascii.eqb c "~") eqn:Htilde.
  - apply Ascii.eqb_eq in Htilde as ->.
    destruct s as [|c' s]; [by unfold FAIL|].
    destruct (_ || _) eqn:Hesc; [|by unfold FAIL].
    destruct (scan_segment s) as [[seg' rest'] ec'] eqn:Hs.
    intros [= <- <- ->].
    destruct (IH s seg' rest') as [Happ Hseg]; [simpl in Hn; lia|done|].
    split.
    + change (String "~" (String c' s)
              = String "~" (String c' (seg' +:+ rest'))). by rewrite <-Happ.
    + cbn [unescape]. rewrite Ascii.eqb_refl.
      apply orb_true_iff in Hesc as [H0|H1].
      * apply Ascii.eqb_eq in H0 as ->. cbn. by rewrite Hseg.
      * apply Ascii.eqb_eq in H1 as ->. cbn. by rewrite Hseg.
  - destruct (scan_segment s) as [[seg' rest'] ec'] eqn:Hs.
    intros [= <- <- ->].
    destruct (IH s seg' rest') as [Happ Hseg]; [simpl in Hn; lia|done|].
    split.
    + change (String c s = String c (seg' +:+ rest')). by rewrite <-Happ.
    + cbn [unescape]. rewrite Htilde. cbn [escape].
      by rewrite Htilde, Hslash, Hseg.
Qed.

Lemma next_segment_token sv0 sg sv :
  next_segment sv0 None = (sg, sv, None) →
  sg ≠ "" →
  sv0 = segment_of (pointer_token sg) +:+ sv.
Proof.
  destruct sv0 as [|c s]; [by intros [= <- <-]|]. cbn [next_segment].
  destruct (Ascii.eqb c "/") eqn:Hc; [|done].
  apply Ascii.eqb_eq in Hc as ->.
  destruct (scan_segment s) as [[seg rest] ec] eqn:Hs.
  destruct ec as [e|]; [done|]. intros [= <- <-] _.
  destruct (scan_segment_token_aux _ s seg rest (le_n _) Hs) as [-> Hseg].
  unfold segment_of. cbn [pointer_token]. by rewrite Hseg.
Qed.

(** With the past-the-end code coming in, [next_segment] cuts the pointer
    as it does without one. *)
Lemma next_segment_cut sv ec sg rest ec' :
  next_segment sv ec = (sg, rest, ec') →
  ec' = None ∨ ec' = FAIL past_the_end →
  next_segment sv None = (sg, rest, None).
Proof.
  destruct sv as [|c s]; [by intros [= <- <- <-]|]. cbn [next_segment].
  destruct (Ascii.eqb c "/").
  - destruct (scan_segment s) as [[seg' rest'] ec''] eqn:Hs.
    apply (scan_segment_error_aux _ _ _ _ _ (le_n _)) in Hs as [-> | ->];
      cbn [failed FAIL]; intros [= <- <- <-]; [done|].
    by intros [?|?].
  - intros [= <- <- <-]. by intros [?|?].
Qed.

Lemma set_on_array_code opts arr idx ec arr' i ec' :
  set_on_array opts arr idx ec = (arr', Some i, ec') →
  ec = None ∨ ec = FAIL past_the_end.
Proof.
  unfold set_on_array. destruct ec as [e|]; [|by left].
  cbn [failed andb]. case_bool_decide; [by right|done].
Qed.

(** A creating walk that arrives has read a well-formed pointer. *)
Lemma set_walk_rendered opts fuel :
  ∀ sv0 jv w p e,
  (let '(sg, sv, ec) := next_segment sv0 None in
   set_walk opts fuel jv sg sv ec) = Some (w, Some p, e) →
  ∃ ts, sv0 = render ts.
Proof.
  induction fuel as [|fuel IH]; intros sv0 jv w p e.
  { by destruct (next_segment sv0 None) as [[sg sv] ec]. }
  destruct (next_segment sv0 None) as [[sg sv] ec] eqn:Hnext.
  cbn [set_walk]. destruct (failed ec) eqn:Hec; [done|].
  apply failed_false in Hec as ->.
  destruct (bool_decide (sg = "")) eqn:Hsg.
  { apply bool_decide_eq_true in Hsg as ->. intros _.
    apply next_segment_end in Hnext as ->; [|done]. by exists []. }
  apply bool_decide_eq_false in Hsg.
  pose proof (next_segment_token _ _ _ Hnext Hsg) as Hsv0.
  assert ((∃ ts, sv = render ts) → ∃ ts, sv0 = render ts) as Hcons.
  { intros [ts ->]. by exists (pointer_token sg :: ts). }
  assert (∀ jv', set_walk opts fuel jv' sg sv None = Some (w, Some p, e) →
                 ∃ ts, sv0 = render ts) as Hretry.
  { intros jv' Hwalk. apply (IH sv0 jv' w p e). by rewrite Hnext. }
  assert (match set_on_scalar opts jv sg with
          | (jv', true) => set_walk opts fuel jv' sg sv None
          | (jv', false) => Some (jv', None, FAIL value_is_scalar)
          end = Some (w, Some p, e) → ∃ ts, sv0 = render ts) as Hscalar.
  { destruct (set_on_scalar opts jv sg) as [jv' []]; [|done]. apply Hretry. }
  destruct jv; try (by apply Hscalar).
  - destruct (parse_number_token sg None) as [idx ec1] eqn:Hparse.
    destruct (next_segment sv ec1) as [[sg' sv'] ec2] eqn:Hnext'.
    destruct (set_on_array opts arr idx ec2) as [[arr' [i|]] ec3] eqn:Harr;
      [|done].
    destruct (set_walk opts fuel (arr' !!! i) sg' sv' ec3)
      as [[[child' [p'|]] e']|] eqn:Hrec; try done.
    intros _. apply Hcons.
    pose proof (set_on_array_arrives _ _ _ _ _ _ _ Harr) as [-> _].
    apply set_on_array_code in Harr.
    apply (IH sv (arr' !!! i) child' p' e').
    by rewrite (next_segment_cut _ _ _ _ _ Hnext' Harr).
  - destruct (next_segment sv None) as [[sg' sv'] ec2] eqn:Hnext'.
    destruct (set_walk opts fuel _ sg' sv' ec2)
      as [[[child' [p'|]] e']|] eqn:Hrec; try done.
    intros _. apply Hcons.
    apply (IH sv (default JNull (obj !! pointer_token sg)) child' p' e').
    by rewrite Hnext'.
Qed.

(** A pointer that resolves in some document, and a pointer through which
    [set_at_pointer] returns, is well formed. *)
Lemma set_at_pointer_rendered opts jv sv ref jv' p :
  set_at_pointer jv sv ref opts = (jv', Returns p) → ∃ ts, sv = render ts.
Proof.
  unfold set_at_pointer, set_at_pointer_ec.
  pose proof (set_walk_rendered opts (set_fuel sv) sv jv) as Hwalk.
  destruct (next_segment sv None) as [[sg sv'] ec].
  destruct (set_walk opts (set_fuel sv) jv sg sv' ec)
    as [[[w [p'|]] e]|]; try done.
  intros _. by eapply Hwalk.
Qed.

Lemma resolves_rendered jv sv p :
  resolves jv sv p → ∃ ts, sv = render ts.
Proof.
  intros Hres.
  apply (set_at_pointer_rendered default_options jv sv JNull
           (assign jv p JNull) p).
  by apply set_at_pointer_resolved.
Qed.

End EmplaceFacts.

(** ** The test suite, replayed

    Each example is one [TEST] of [json_helper_test.cpp] with its
    expectations. *)

Module TestSuiteFacts.
Import Json Pointer Conversion Accessor TestSuite.

Example test_Read :
  read UserName template_json = Returns "Alice"
  ∧ read UserAge template_json = Returns (Int 23 I)
  ∧ read UserLangs template_json = Returns ["C++"; "Python"; "Haskell"; "Rust"]
  ∧ (∃ ec, read (Type_:=string) UserName json_2 = Throws ec)
  ∧ (∃ ec, read (Type_:=int) UserAge json_2 = Throws ec)
  ∧ (∃ ec, read (Type_:=list string) UserLangs json_2 = Throws ec).
Proof. repeat split; try (eexists; vm_compute); reflexivity. Qed.

Example test_TryRead :
  try_read UserName template_json = Ok "Alice"
  ∧ try_read UserAge template_json = Ok (Int 23 I)
  ∧ try_read UserLangs template_json = Ok ["C++"; "Python"; "Haskell"; "Rust"]
  ∧ (∃ ec, try_read (Type_:=string) UserName json_2 = Err ec)
  ∧ (∃ ec, try_read (Type_:=int) UserAge json_2 = Err ec)
  ∧ (∃ ec, try_read (Type_:=list string) UserLangs json_2 = Err ec).
Proof. repeat split; try (eexists; vm_compute); reflexivity. Qed.

Example test_Write :
  (write_all template_json).2 = [true; true; true]
  ∧ user_member (write_all template_json).1 "name" = Some (JString "SuperAlice")
  ∧ user_member (write_all template_json).1 "age" = Some (JInt64 100)
  ∧ user_member (write_all template_json).1 "languages"
    = Some (JArray [JString "GoLang"; JString "Elixir"; JString "TypeScript"])
  ∧ (write_null_all (write_all template_json).1).2 = [true; true; true]
  ∧ user_member (write_null_all (write_all template_json).1).1 "name" = Some JNull
  ∧ user_member (write_null_all (write_all template_json).1).1 "age" = Some JNull
  ∧ user_member (write_null_all (write_all template_json).1).1 "languages"
    = Some JNull
  ∧ (write_all json_2).2 = [false; false; false]
  ∧ (write_null_all json_2).2 = [false; false; false].
Proof. repeat split; vm_compute; reflexivity. Qed.

Example test_Emplace :
  user_member (emplace_all template_json) "name" = Some (JString "SuperAlice")
  ∧ user_member (emplace_all template_json) "age" = Some (JInt64 100)
  ∧ user_member (emplace_all template_json) "languages"
    = Some (JArray [JString "GoLang"; JString "Elixir"; JString "TypeScript"])
  ∧ user_member (emplace_null_all (emplace_all template_json)) "name" = Some JNull
  ∧ user_member (emplace_null_all (emplace_all template_json)) "age" = Some JNull
  ∧ user_member (emplace_null_all (emplace_all template_json)) "languages"
    = Some JNull
  ∧ user_member (emplace_all json_2) "name" = Some (JString "SuperAlice")
  ∧ user_member (emplace_all json_2) "age" = Some (JInt64 100)
  ∧ user_member (emplace_all json_2) "languages"
    = Some (JArray [JString "GoLang"; JString "Elixir"; JString "TypeScript"])
  ∧ user_member (emplace_null_all json_2) "name" = Some JNull
  ∧ user_member (emplace_null_all json_2) "age" = Some JNull
  ∧ user_member (emplace_null_all json_2) "languages" = Some JNull.
Proof. repeat split; vm_compute; reflexivity. Qed.

Example test_Reference :
  reference UserName template_json = Some user_name
  ∧ reference UserAge template_json = Some user_age
  ∧ reference UserLangs template_json = Some user_languages
  ∧ user_member (assign template_json user_name (JInt64 10)) "name"
    = Some (JInt64 10)
  ∧ reference UserName json_2 = None
  ∧ reference UserAge json_2 = None
  ∧ reference UserLangs json_2 = None.
Proof. repeat split; vm_compute; reflexivity. Qed.

Example test_Path :
  path UserName = "/user/name"
  ∧ path UserAge = "/user/age"
  ∧ path UserLangs = "/user/languages".
Proof. repeat split. Qed.

End TestSuiteFacts.

(** ** The accessor contract *)

Module AccessorSpec.
Import Json Pointer Conversion Accessor Tokens TestSuite.
Import AddressFacts WalkFacts LibraryFacts ConversionFacts EmplaceFacts.

Section Tag.
Context {Type_ : Type} `{!JsonType Type_}.
Variable Key : string.

Lemma read_resolved jv p :
  resolves jv Key p → read Key jv = value_to (pointee jv p).
Proof.
  intros Hres. apply find_pointer_arrives in Hres as [_ Hfind].
  unfold read, at_pointer, TagPath. by rewrite Hfind.
Qed.

Lemma try_read_resolved jv p :
  resolves jv Key p → try_read Key jv = try_value_to (pointee jv p).
Proof.
  intros Hres. apply find_pointer_arrives in Hres as [_ Hfind].
  unfold try_read, TagPath. by rewrite Hfind.
Qed.

Lemma write_resolved jv p v :
  resolves jv Key p → write Key jv v = (assign jv p (value_from v), true).
Proof.
  intros Hres. apply find_pointer_arrives in Hres as [_ Hfind].
  unfold write, TagPath. by rewrite Hfind.
Qed.

Lemma write_null_resolved jv p :
  resolves jv Key p → write_null Key jv = (assign jv p JNull, true).
Proof.
  intros Hres. apply find_pointer_arrives in Hres as [_ Hfind].
  unfold write_null, TagPath. by rewrite Hfind.
Qed.

Lemma reference_resolves jv p :
  reference Key jv = Some p ↔ resolves jv Key p.
Proof.
  unfold reference, resolves, TagPath. by destruct (find_pointer jv Key).
Qed.

Lemma reference_unresolved jv :
  reference Key jv = None ↔ unresolved jv Key.
Proof.
  unfold reference, unresolved, TagPath. by destruct (find_pointer jv Key).
Qed.

(** Where the path resolves, [emplace] does what [write] does. *)
Lemma emplace_resolved jv p v :
  resolves jv Key p →
  emplace Key jv v = ((write Key jv v).1, Returns p).
Proof.
  intros Hres. rewrite (write_resolved _ _ _ Hres).
  by apply set_at_pointer_resolved.
Qed.

Lemma write_move_write jv v : write_move Key jv v = write Key jv v.
Proof. done. Qed.

Lemma emplace_move_emplace jv v : emplace_move Key jv v = emplace Key jv v.
Proof. done. Qed.

(** C1.  Where the path of the tag resolves to a node that converts to
    the bound value type, [try_read] succeeds with the value that [read]
    returns. *)
Theorem try_read_agrees_with_read jv p v :
  resolves jv Key p →
  try_value_to (pointee jv p) = Ok v →
  try_read Key jv = Ok v ∧ read Key jv = Returns v.
Proof.
  intros Hres Hv. rewrite (try_read_resolved _ _ Hres), (read_resolved _ _ Hres).
  unfold value_to. by rewrite Hv.
Qed.

(** C2.  A path with a missing segment makes [read] throw and [try_read]
    return a NotFound error, the same one, which for a well-formed path is
    one of the codes that say the document has no such node; a node that
    does not convert makes [read] throw and [try_read] return a
    TypeMismatch error, the same one; neither of them hands out a value
    unless the node the path resolves to converted to it. *)
Theorem read_and_try_read_report_failures `{!ConversionErrors Type_} jv :
  (unresolved jv Key →
     ∃ ec, NotFound ec ∧ read Key jv = Throws ec ∧ try_read Key jv = Err ec)
  ∧ (∀ ts, Key = render ts → unresolved jv Key →
       ∃ e, pointer_use_error e = true
            ∧ read Key jv = Throws (FAIL e) ∧ try_read Key jv = Err (FAIL e))
  ∧ (∀ p ec, resolves jv Key p →
       try_value_to (T:=Type_) (pointee jv p) = Err ec →
       TypeMismatch ec ∧ read Key jv = Throws ec ∧ try_read Key jv = Err ec)
  ∧ (∀ v, try_read Key jv = Ok v ∨ read Key jv = Returns v →
       ∃ p, resolves jv Key p ∧ try_value_to (pointee jv p) = Ok v).
Proof.
  split; [|split; [|split]].
  - intros Hun. apply find_pointer_not_found in Hun as (ec & Hec & Hfind).
    exists ec. unfold read, try_read, at_pointer, TagPath.
    by rewrite Hfind.
  - intros ts -> Hun. unfold unresolved in Hun.
    unfold read, try_read, at_pointer, TagPath.
    rewrite find_pointer_render in Hun |- *.
    destruct (find_tokens jv ts) as [[p|] ec] eqn:Hfind; [done|].
    apply find_tokens_not_found in Hfind as (e & -> & He). by exists e.
  - intros p ec Hres Hconv.
    rewrite (try_read_resolved _ _ Hres), (read_resolved _ _ Hres).
    unfold value_to. rewrite Hconv. split; [|done].
    by eapply conversion_errors.
  - intros v Hv. destruct (resolves_or_not jv Key) as [[p Hres]|Hun].
    + exists p. split; [done|].
      rewrite (try_read_resolved _ _ Hres), (read_resolved _ _ Hres) in Hv.
      unfold value_to in Hv.
      destruct (try_value_to (pointee jv p)) as [v'|ec];
        destruct Hv as [Hv|Hv]; simpl in Hv; congruence.
    + apply find_pointer_not_found in Hun as (ec & Hec & Hfind).
      unfold read, try_read, at_pointer, TagPath in Hv.
      rewrite Hfind in Hv. by destruct Hv.
Qed.

(** C3.  Where a segment of the path is missing, every overload of
    [write] returns false and the document is as it was, and [reference]
    returns the null pointer; [reference] is a function of the document
    and leaves it alone. *)
Theorem write_and_reference_report_absence jv v :
  unresolved jv Key →
  write Key jv v = (jv, false)
  ∧ write_move Key jv v = (jv, false)
  ∧ write_null Key jv = (jv, false)
  ∧ reference Key jv = None.
Proof.
  intros Hun. apply find_pointer_fails in Hun as [e Hfind].
  unfold write, write_move, write_null, reference, TagPath.
  by rewrite Hfind.
Qed.

(** C5.  The value [read] returns round-trips: [write] of it returns
    true and a [read] of the document after the [write] returns it
    again. *)
Theorem read_value_round_trips `{!RoundTrip Type_} jv p v :
  resolves jv Key p →
  try_value_to (pointee jv p) = Ok v →
  read Key jv = Returns v
  ∧ (write Key jv v).2 = true
  ∧ read Key (write Key jv v).1 = Returns v.
Proof.
  intros Hres Hv. pose proof (find_pointer_arrives _ _ _ Hres) as [Hp _].
  rewrite (write_resolved _ _ _ Hres). cbn [fst snd].
  rewrite (read_resolved _ _ Hres).
  rewrite (read_resolved _ _ (find_pointer_assign _ _ _ _ Hres)).
  unfold pointee at 2. rewrite (deref_assign _ _ _ Hp). simpl.
  unfold value_to. by rewrite Hv, (round_trip _ _ Hv).
Qed.

(** C7.  Where the path resolves, [write], for a copied and for a moved
    value, replaces the node it resolves to and nothing else: every node
    at an address apart from the terminal one is what it was, no node
    appears or disappears outside the terminal node, and the nodes above
    it keep their kind and their members. *)
Theorem write_overwrites_terminal_only jv p v :
  resolves jv Key p →
  write_move Key jv v = write Key jv v
  ∧ (write Key jv v).2 = true
  ∧ deref (write Key jv v).1 p = Some (value_from v)
  ∧ (∀ q, apart p q → deref (write Key jv v).1 q = deref jv q)
  ∧ (∀ q, ¬ p `prefix_of` q →
       is_Some (deref (write Key jv v).1 q) ↔ is_Some (deref jv q))
  ∧ (∀ q s r, p = q ++ s :: r →
       ∃ a b, deref jv q = Some a ∧ deref (write Key jv v).1 q = Some b
              ∧ same_shape a b).
Proof.
  intros Hres. pose proof (find_pointer_arrives _ _ _ Hres) as [Hp _].
  split; [done|].
  rewrite (write_resolved _ _ _ Hres). cbn [fst snd].
  split; [done|]. split; [by apply deref_assign|].
  split; [intros q Hq; by apply deref_assign_apart|].
  split; [intros q Hq; by apply deref_assign_outside|].
  intros q s r Hq. by eapply deref_assign_above.
Qed.

(** C8.  Where the path resolves, [write] with the null sentinel returns
    true and leaves the null value at the node, [emplace] with the null
    sentinel does the same and returns the node; a node that held
    something else makes the document differ from the one before. *)
Theorem null_sentinel_sets_null jv p :
  resolves jv Key p →
  write_null Key jv = (assign jv p JNull, true)
  ∧ emplace_null Key jv = (assign jv p JNull, Returns p)
  ∧ resolves (assign jv p JNull) Key p
  ∧ deref (assign jv p JNull) p = Some JNull
  ∧ (pointee jv p ≠ JNull → assign jv p JNull ≠ jv).
Proof.
  intros Hres. pose proof (find_pointer_arrives _ _ _ Hres) as [Hp _].
  split; [by apply write_null_resolved|].
  split; [by apply set_at_pointer_resolved|].
  split; [by apply find_pointer_assign|].
  split; [by apply deref_assign|].
  destruct Hp as [n Hn]. unfold pointee. rewrite Hn. simpl.
  intros Hne. by eapply assign_changes.
Qed.

(** C9.  Where the path resolves, [reference] returns the address of the
    node [at_pointer] finds, a node of the document itself; after the
    node at that address is replaced, [reference] returns the same address
    and [read] converts the new node. *)
Theorem reference_is_live jv p :
  reference Key jv = Some p →
  at_pointer jv Key = Returns p
  ∧ is_Some (deref jv p)
  ∧ (∀ new, deref (assign jv p new) p = Some new
            ∧ reference Key (assign jv p new) = Some p
            ∧ read Key (assign jv p new) = value_to new).
Proof.
  intros Hres%reference_resolves.
  pose proof (find_pointer_arrives _ _ _ Hres) as [Hp Hfind].
  split; [unfold at_pointer, TagPath in *; by rewrite Hfind|].
  split; [done|].
  intros new. split; [by apply deref_assign|].
  pose proof (find_pointer_assign _ _ _ new Hres) as Hres'.
  split; [by apply reference_resolves|].
  rewrite (read_resolved _ _ Hres'). unfold pointee.
  by rewrite deref_assign.
Qed.

(** C10.  [write] returns true exactly when [reference] on the document
    before the call returns a non-null pointer; so do the overloads for a
    moved value and for the null sentinel. *)
Theorem write_succeeds_iff_reference jv v :
  ((write Key jv v).2 = true ↔ is_Some (reference Key jv))
  ∧ ((write_move Key jv v).2 = true ↔ is_Some (reference Key jv))
  ∧ ((write_null Key jv).2 = true ↔ is_Some (reference Key jv)).
Proof.
  unfold write, write_move, write_null, reference, TagPath.
  destruct (find_pointer jv Key) as [[p|] ec]; simpl;
    (repeat split; intros H; try done; by destruct H).
Qed.

End Tag.

Section WellFormedTag.
Context {Type_ : Type} `{!JsonType Type_}.

Lemma emplace_render ts jv (v : Type_) :
  emplace (render ts) jv v
  = match set_tokens default_options jv ts with
    | (jv', Some p, _) => (assign jv' p (value_from v), Returns p)
    | (jv', None, ec) => (jv', Throws ec)
    end.
Proof.
  unfold emplace, TagPath, set_at_pointer. rewrite set_at_pointer_render.
  by destruct (set_tokens default_options jv ts) as [[jv' [p|]] ec].
Qed.


(** C6, amended.  For a well-formed path none of whose tokens is the
    past-the-end token, a second [emplace] with the same tag and value
    leaves the document the first one left, and returns or throws what
    the first one did. *)
Theorem emplace_idempotent_without_append ts jv (v : Type_) :
  past_the_end_token ∉ ts →
  emplace (render ts) (emplace (render ts) jv v).1 v
  = emplace (render ts) jv v.
Proof.
  intros Hts. rewrite (emplace_render ts jv).
  destruct (set_tokens default_options jv ts) as [[w [p|]] ec] eqn:Hwalk;
    cbn [fst]; rewrite emplace_render.
  - rewrite (set_tokens_arrives_again _ _ _ _ _ _ _ Hts Hwalk).
    by rewrite assign_assign.
  - by rewrite (set_tokens_fails_again _ _ _ _ _ Hts Hwalk).
Qed.

End WellFormedTag.

Lemma try_read_agrees_with_read_witness :
  resolves template_json UserName user_name
  ∧ try_read (Type_:=string) UserName template_json = Ok "Alice"
  ∧ read (Type_:=string) UserName template_json = Returns "Alice".
Proof.
  assert (resolves template_json UserName user_name) as Hres
    by (vm_compute; reflexivity).
  split; [exact Hres|].
  apply (try_read_agrees_with_read UserName template_json user_name "Alice" Hres).
  vm_compute; reflexivity.
Defined.

Lemma read_and_try_read_report_failures_witness :
  ∃ ec, NotFound ec
        ∧ read (Type_:=string) UserName json_2 = Throws ec
        ∧ try_read (Type_:=string) UserName json_2 = Err ec.
Proof.
  apply (proj1 (read_and_try_read_report_failures (Type_:=string) UserName json_2)).
  vm_compute; reflexivity.
Defined.

Lemma write_and_reference_report_absence_witness :
  write UserName json_2 "SuperAlice" = (json_2, false)
  ∧ write_move UserName json_2 "SuperAlice" = (json_2, false)
  ∧ write_null UserName json_2 = (json_2, false)
  ∧ reference UserName json_2 = None.
Proof.
  apply (write_and_reference_report_absence UserName json_2 "SuperAlice").
  vm_compute; reflexivity.
Defined.

Lemma read_value_round_trips_witness :
  read (Type_:=int) UserAge template_json = Returns (Int 23 I)
  ∧ (write UserAge template_json (Int 23 I)).2 = true
  ∧ read UserAge (write UserAge template_json (Int 23 I)).1
    = Returns (Int 23 I).
Proof.
  apply (read_value_round_trips UserAge template_json [key "user"; key "age"]);
    vm_compute; reflexivity.
Defined.

Lemma write_overwrites_terminal_only_witness :
  deref (write UserName template_json "SuperAlice").1 user_name
  = Some (JString "SuperAlice")
  ∧ deref (write UserName template_json "SuperAlice").1 [key "user"; key "age"]
    = Some (JInt64 23).
Proof.
  assert (resolves template_json UserName user_name) as Hres
    by (vm_compute; reflexivity).
  destruct (write_overwrites_terminal_only UserName template_json user_name
              "SuperAlice" Hres) as (_ & _ & Hnew & Hframe & _).
  split; [exact Hnew|].
  rewrite (Hframe [key "user"; key "age"]); [vm_compute; reflexivity|].
  split; intros [k Hk]; discriminate Hk.
Defined.

Lemma null_sentinel_sets_null_witness :
  write_null UserName template_json = (assign template_json user_name JNull, true)
  ∧ deref (assign template_json user_name JNull) user_name = Some JNull.
Proof.
  assert (resolves template_json UserName user_name) as Hres
    by (vm_compute; reflexivity).
  destruct (null_sentinel_sets_null UserName template_json user_name Hres)
    as (Hwrite & _ & _ & Hnull & _).
  split; [exact Hwrite|exact Hnull].
Defined.

Lemma reference_is_live_witness :
  reference UserName template_json = Some user_name
  ∧ read (Type_:=int) UserName (assign template_json user_name (JInt64 10))
    = Returns (Int 10 I).
Proof.
  assert (reference UserName template_json = Some user_name) as Href
    by (vm_compute; reflexivity).
  split; [exact Href|].
  destruct (reference_is_live (Type_:=int) UserName template_json user_name
              Href)
    as (_ & _ & Hlive).
  destruct (Hlive (JInt64 10)) as (_ & _ & ->). vm_compute; reflexivity.
Defined.



Lemma emplace_idempotent_without_append_witness :
  emplace UserName (emplace UserName json_2 "SuperAlice").1 "SuperAlice"
  = emplace UserName json_2 "SuperAlice".
Proof.
  apply (emplace_idempotent_without_append user_name_tokens json_2 "SuperAlice").
  apply (bool_decide_unpack _). vm_compute. exact I.
Defined.

(** C6, as stated, fails: with the past-the-end token every [emplace]
    appends, and the second call leaves two elements where the first left
    one. *)
Lemma emplace_twice_appends_twice :
  (emplace NextTag (emplace NextTag (JObject ∅) "x").1 "x").1
  ≠ (emplace NextTag (JObject ∅) "x").1.
Proof.
  intros H.
  apply (f_equal (λ jv, deref jv [key "tags"; index 1])) in H.
  vm_compute in H. discriminate H.
Qed.

End AccessorSpec.

(** ** How walks and assignments compose *)

Module ComposeFacts.
Import Json Pointer Tokens AddressFacts WalkFacts LibraryFacts EmplaceFacts.

Lemma assign_id jv p n : deref jv p = Some n → assign jv p n = jv.
Proof.
  revert jv. induction p as [|[k|i] p IH]; intros jv; simpl.
  { by intros [= ->]. }
  - destruct jv; try done.
    destruct (obj !! k) as [child|] eqn:Hk; simpl; [|done].
    intros Hn. by rewrite (IH _ Hn), insert_id.
  - destruct jv; try done.
    destruct (arr !! i) as [child|] eqn:Hi; simpl; [|done].
    intros Hn. by rewrite (IH _ Hn), list_insert_id.
Qed.

(** Assignments at addresses apart from each other can be made in either
    order. *)
Lemma assign_apart_comm jv p q x y :
  apart p q →
  assign (assign jv p x) q y = assign (assign jv q y) p x.
Proof.
  revert jv q. induction p as [|s p IH]; intros jv q Hpq.
  { by destruct (apart_nil_l q). }
  destruct q as [|s' q]; [by destruct (apart_nil_r (s :: p))|].
  destruct s as [k|i], s' as [k'|i']; simpl.
  - destruct jv; try done.
    destruct (decide (k = k')) as [<-|Hne].
    + destruct (obj !! k) as [child|] eqn:Hk; simpl; [|by rewrite Hk].
      rewrite !lookup_insert_eq, !insert_insert_eq.
      by rewrite (IH _ _ (apart_cons_inv _ _ _ Hpq)).
    + destruct (obj !! k) as [child|] eqn:Hk,
               (obj !! k') as [child'|] eqn:Hk'; simpl;
        rewrite ?lookup_insert_ne, ?Hk, ?Hk' by done; try done.
      by rewrite insert_insert_ne.
  - destruct jv; try done.
    + by destruct (arr !! i').
    + by destruct (obj !! k).
  - destruct jv; try done.
    + by destruct (arr !! i).
    + by destruct (obj !! k').
  - destruct jv; try done.
    destruct (decide (i = i')) as [<-|Hne].
    + destruct (arr !! i) as [child|] eqn:Hi; simpl; [|by rewrite Hi].
      rewrite !list_lookup_insert_eq by (by eapply lookup_lt_Some).
      rewrite !list_insert_insert_eq.
      by rewrite (IH _ _ (apart_cons_inv _ _ _ Hpq)).
    + destruct (arr !! i) as [child|] eqn:Hi,
               (arr !! i') as [child'|] eqn:Hi'; simpl;
        rewrite ?list_lookup_insert_ne, ?Hi, ?Hi' by done; try done.
      by rewrite list_insert_insert_ne.
Qed.

(** The walk to a node looks only at the nodes above it: an assignment at
    an address that is not above the node leaves the walk where it was. *)
Lemma find_walk_not_above fuel jv segment sv ec p q ec' new :
  (∀ s r, q ≠ p ++ s :: r) →
  find_walk fuel (Some jv) segment sv ec = Some (Some q, ec') →
  find_walk fuel (Some (assign jv p new)) segment sv ec = Some (Some q, ec').
Proof.
  revert jv segment sv ec p q ec'.
  induction fuel as [|fuel IH]; intros jv segment sv ec p q ec' Hpq; [done|].
  simpl. destruct (failed ec) eqn:Hec; [done|].
  destruct (bool_decide (segment = "")) eqn:Hseg.
  { by intros [= <- <-]. }
  destruct jv; try done.
  - destruct (parse_number_token segment ec) as [idx ec1].
    destruct (next_segment sv ec1) as [[segment' sv'] ec2].
    destruct (failed ec2) eqn:Hec2.
    { destruct fuel; [done|]. simpl. by rewrite Hec2. }
    unfold if_contains.
    destruct (_ <? _)%N eqn:Hlt; [|by destruct fuel; simpl; try rewrite Hec2].
    destruct (arr !! N.to_nat idx) as [child|] eqn:Hchild;
      [|by destruct fuel; simpl; try rewrite Hec2].
    destruct (find_walk fuel (Some child) segment' sv' ec2)
      as [[[q'|] ec3]|] eqn:Hwalk; try done.
    intros [= <- <-].
    destruct p as [|[k|i] p]; [by destruct (Hpq (index (N.to_nat idx)) q')|..];
      simpl; [by rewrite Hlt, Hchild, Hwalk|].
    destruct (arr !! i) as [child'|] eqn:Hi;
      [|by rewrite Hlt, Hchild, Hwalk].
    rewrite length_insert, Hlt.
    destruct (decide (i = N.to_nat idx)) as [->|Hne].
    + rewrite list_lookup_insert_eq by (by eapply lookup_lt_Some).
      simplify_eq. erewrite IH; [done| |done].
      intros s r ->. by apply (Hpq s r).
    + rewrite list_lookup_insert_ne by done. by rewrite Hchild, Hwalk.
  - destruct (next_segment sv ec) as [[segment' sv'] ec2].
    destruct (obj !! pointer_token segment) as [child|] eqn:Hchild.
    2:{ destruct fuel; [done|]. simpl. destruct (failed ec2); done. }
    destruct (find_walk fuel (Some child) segment' sv' ec2)
      as [[[q'|] ec3]|] eqn:Hwalk; try done.
    intros [= <- <-].
    destruct p as [|[k|i] p];
      [by destruct (Hpq (key (pointer_token segment)) q')|..];
      simpl; [|by rewrite Hchild, Hwalk].
    destruct (obj !! k) as [child'|] eqn:Hk; [|by rewrite Hchild, Hwalk].
    destruct (decide (k = pointer_token segment)) as [->|Hne].
    + rewrite lookup_insert_eq.
      simplify_eq. erewrite IH; [done| |done].
      intros s r ->. by apply (Hpq s r).
    + rewrite lookup_insert_ne by done. by rewrite Hchild, Hwalk.
Qed.

Lemma find_pointer_not_above jv sv p q new :
  (∀ s r, q ≠ p ++ s :: r) →
  resolves jv sv q → resolves (assign jv p new) sv q.
Proof.
  intros Hpq Hres. apply find_pointer_arrives in Hres as [_ Hfind].
  unfold resolves.
  destruct (next_segment_cases sv None) as (segment & sv' & ec & Hnext).
  pose proof (find_pointer_walk jv sv _ _ _ Hnext) as Hwalk.
  pose proof (find_pointer_walk (assign jv p new) sv _ _ _ Hnext) as Hwalk'.
  rewrite Hfind in Hwalk.
  rewrite (find_walk_not_above _ _ _ _ _ _ _ _ new Hpq Hwalk) in Hwalk'.
  injection Hwalk' as <-. done.
Qed.

Lemma apart_not_above p q : apart p q → ∀ s r, q ≠ p ++ s :: r.
Proof. intros [Hpq _] s r ->. apply Hpq. by eexists. Qed.

Lemma apart_sym p q : apart p q → apart q p.
Proof. by intros [? ?]. Qed.

(** *** Pointers put one after the other *)

Lemma string_app_assoc (s1 s2 s3 : string) :
  (s1 +:+ s2) +:+ s3 = s1 +:+ (s2 +:+ s3).
Proof.
  induction s1 as [|c s1 IH]; [done|].
  change (String c ((s1 +:+ s2) +:+ s3) = String c (s1 +:+ (s2 +:+ s3))).
  by rewrite IH.
Qed.

Lemma render_app ts1 ts2 : render (ts1 ++ ts2) = render ts1 +:+ render ts2.
Proof.
  induction ts1 as [|t ts1 IH]; [done|].
  rewrite <-app_comm_cons. cbn [render].
  by rewrite IH, string_app_assoc.
Qed.

Lemma option_map_cons_app (s : step) (q : pointer) (r : option pointer) :
  option_map (λ p, s :: p) (option_map (app q) r)
  = option_map (app (s :: q)) r.
Proof. by destruct r. Qed.

Lemma option_map_app_nil (r : option pointer) : option_map (app []) r = r.
Proof. by destruct r. Qed.

(** A walk over [ts1 ++ ts2] is the walk over [ts1] followed by the walk
    over [ts2] from the node the first one arrives at. *)
Lemma find_tokens_app ts1 ts2 jv q ec n :
  find_tokens jv ts1 = (Some q, ec) →
  deref jv q = Some n →
  find_tokens jv (ts1 ++ ts2)
  = ((option_map (app q) (find_tokens n ts2).1), (find_tokens n ts2).2).
Proof.
  revert jv q ec. induction ts1 as [|t ts1 IH]; intros jv q ec.
  { simpl. intros [= <- <-] [= <-]. rewrite option_map_app_nil.
    by destruct (find_tokens jv ts2). }
  simpl. destruct jv; try done.
  - destruct (parse_number_token (segment_of t) None) as [idx ec1].
    destruct (failed ec1); [done|].
    unfold if_contains. destruct (_ <? _)%N; [|done].
    destruct (arr !! N.to_nat idx) as [child|] eqn:Hchild; [|done].
    destruct (find_tokens child ts1) as [[q'|] ec'] eqn:Hfind; [|done].
    intros [= <- <-]. simpl. rewrite Hchild. simpl. intros Hn.
    rewrite (IH _ _ _ Hfind Hn). by rewrite option_map_cons_app.
  - destruct (obj !! t) as [child|] eqn:Hchild; [|done].
    destruct (find_tokens child ts1) as [[q'|] ec'] eqn:Hfind; [|done].
    intros [= <- <-]. simpl. rewrite Hchild. simpl. intros Hn.
    rewrite (IH _ _ _ Hfind Hn). by rewrite option_map_cons_app.
Qed.

Lemma find_tokens_app_fails ts1 ts2 jv ec :
  find_tokens jv ts1 = (None, ec) →
  find_tokens jv (ts1 ++ ts2) = (None, ec).
Proof.
  revert jv ec. induction ts1 as [|t ts1 IH]; intros jv ec; [done|].
  simpl. destruct jv; try done.
  - destruct (parse_number_token (segment_of t) None) as [idx ec1].
    destruct (failed ec1); [done|].
    destruct (if_contains arr idx) as [child|]; [|done].
    destruct (find_tokens child ts1) as [[q'|] ec'] eqn:Hfind; [done|].
    intros [= <-]. by rewrite (IH _ _ Hfind).
  - destruct (obj !! t) as [child|]; [|done].
    destruct (find_tokens child ts1) as [[q'|] ec'] eqn:Hfind; [done|].
    intros [= <-]. by rewrite (IH _ _ Hfind).
Qed.

(** The creating walk over [ts1 ++ ts2], where [ts1] resolves, is the
    creating walk over [ts2] from the node [ts1] resolves to, with the
    node it builds put in that node's place. *)
Lemma set_tokens_app opts ts1 ts2 jv q ec n :
  find_tokens jv ts1 = (Some q, ec) →
  deref jv q = Some n →
  set_tokens opts jv (ts1 ++ ts2)
  = (assign jv q (set_tokens opts n ts2).1.1,
     option_map (app q) (set_tokens opts n ts2).1.2,
     (set_tokens opts n ts2).2).
Proof.
  revert jv q ec. induction ts1 as [|t ts1 IH]; intros jv q ec.
  { simpl. intros [= <- <-] [= <-]. rewrite option_map_app_nil.
    by destruct (set_tokens opts jv ts2) as [[? ?] ?]. }
  rewrite <-app_comm_cons.
  cbn [find_tokens]. destruct jv; try done.
  - destruct (parse_number_token (segment_of t) None) as [idx ec1] eqn:Hparse.
    destruct (failed ec1) eqn:Hec1; [done|].
    apply failed_false in Hec1 as ->.
    unfold if_contains. destruct (_ <? _)%N eqn:Hlt; [|done].
    destruct (arr !! N.to_nat idx) as [child|] eqn:Hchild; [|done].
    destruct (find_tokens child ts1) as [[q'|] ec'] eqn:Hfind; [|done].
    intros [= <- <-] Hn. cbn [deref] in Hn. rewrite Hchild in Hn.
    cbn [mbind option_bind] in Hn.
    rewrite set_tokens_array, Hparse, set_on_array_inside by done.
    rewrite (list_lookup_total_correct _ _ _ Hchild).
    rewrite (IH _ _ _ Hfind Hn). cbn [assign]. rewrite Hchild.
    by rewrite option_map_cons_app.
  - destruct (obj !! t) as [child|] eqn:Hchild; [|done].
    destruct (find_tokens child ts1) as [[q'|] ec'] eqn:Hfind; [|done].
    intros [= <- <-] Hn. cbn [deref] in Hn. rewrite Hchild in Hn.
    cbn [mbind option_bind] in Hn.
    rewrite set_tokens_object, Hchild. cbn [default from_option id].
    rewrite (IH _ _ _ Hfind Hn). cbn [assign]. rewrite Hchild.
    by rewrite option_map_cons_app.
Qed.

(** A walk that arrives returns an address of the document. *)
Lemma find_tokens_arrives ts jv q ec :
  find_tokens jv ts = (Some q, ec) → is_Some (deref jv q) ∧ ec = None.
Proof.
  rewrite <-find_pointer_render. intros Hfind.
  destruct (find_pointer_arrives jv (render ts) q) as [Hq Hfind'];
    [unfold resolves; by rewrite Hfind|].
  split; [done|]. congruence.
Qed.

(** [set_at_pointer] on a well-formed pointer, by its tokens. *)
Lemma set_at_pointer_tokens opts ts jv ref :
  set_at_pointer jv (render ts) ref opts
  = match set_tokens opts jv ts with
    | (jv', Some p, _) => (assign jv' p ref, Returns p)
    | (jv', None, ec) => (jv', Throws ec)
    end.
Proof.
  unfold set_at_pointer. rewrite set_at_pointer_render.
  by destruct (set_tokens opts jv ts) as [[jv' [p|]] ec].
Qed.

(** A second [set_at_pointer] through a pointer without past-the-end
    token builds on what the first one left and creates nothing more. *)
Lemma set_at_pointer_twice opts ts jv ref1 ref2 :
  past_the_end_token ∉ ts →
  set_at_pointer (set_at_pointer jv (render ts) ref1 opts).1 (render ts) ref2 opts
  = set_at_pointer jv (render ts) ref2 opts.
Proof.
  intros Hts. rewrite (set_at_pointer_tokens opts ts jv ref1).
  rewrite (set_at_pointer_tokens opts ts jv ref2).
  destruct (set_tokens opts jv ts) as [[w [p|]] ec] eqn:Hwalk;
    cbn [fst]; rewrite set_at_pointer_tokens.
  - rewrite (set_tokens_arrives_again _ _ _ _ _ _ _ Hts Hwalk).
    by rewrite assign_assign.
  - by rewrite (set_tokens_fails_again _ _ _ _ _ Hts Hwalk).
Qed.

(** After [set_at_pointer] returned, the node it returned holds the value,
    the pointer, without past-the-end token, resolves to it, and every
    address apart from it holds what it held, or a padding null. *)
Lemma set_at_pointer_returns opts ts jv ref jv' p :
  set_at_pointer jv (render ts) ref opts = (jv', Returns p) →
  deref jv' p = Some ref
  ∧ (past_the_end_token ∉ ts → resolves jv' (render ts) p)
  ∧ (∀ q, apart p q → deref jv' q = off_path jv p q).
Proof.
  rewrite set_at_pointer_tokens.
  destruct (set_tokens opts jv ts) as [[w [p'|]] ec] eqn:Hwalk; [|done].
  intros [= <- <-].
  pose proof (set_tokens_arrives _ _ _ _ _ _ Hwalk) as [_ Hp].
  split; [by apply deref_assign|]. split.
  - intros Hts. unfold resolves. rewrite find_pointer_render.
    by rewrite (set_tokens_then_find _ _ _ _ _ _ _ Hts Hwalk).
  - intros q Hq. rewrite (deref_assign_apart _ _ _ _ Hq).
    by eapply set_tokens_frame.
Qed.

(** [set_at_pointer] under the default options returns exactly where the
    way can be made. *)
Lemma set_at_pointer_way ts jv ref :
  match way jv ts with
  | Some p =>
      ∃ jv', set_at_pointer jv (render ts) ref default_options
             = (jv', Returns p)
  | None =>
      ∃ jv' e, pointer_use_error e = true
               ∧ set_at_pointer jv (render ts) ref default_options
                 = (jv', Throws (FAIL e))
  end.
Proof.
  rewrite set_at_pointer_tokens.
  pose proof (set_tokens_way ts jv) as Hway.
  destruct (way jv ts) as [p|].
  - destruct Hway as [jv' ->]. by eexists.
  - destruct Hway as (jv' & e & -> & He). by exists jv', e.
Qed.

Lemma assign_app jv q p n new :
  deref jv q = Some n →
  assign jv (q ++ p) new = assign jv q (assign n p new).
Proof.
  revert jv. induction q as [|[k|i] q IH]; intros jv; simpl.
  { by intros [= ->]. }
  - destruct jv; try done.
    destruct (obj !! k) as [child|]; simpl; [|done].
    intros Hn. by rewrite (IH _ Hn).
  - destruct jv; try done.
    destruct (arr !! i) as [child|]; simpl; [|done].
    intros Hn. by rewrite (IH _ Hn).
Qed.

(** [find_pointer] through [render ts1 +:+ render ts2], where the first
    part resolves. *)
Lemma find_pointer_app ts1 ts2 jv q n :
  resolves jv (render ts1) q →
  deref jv q = Some n →
  find_pointer jv (render ts1 +:+ render ts2)
  = (option_map (app q) (find_pointer n (render ts2)).1,
     (find_pointer n (render ts2)).2).
Proof.
  unfold resolves. rewrite <-render_app, !find_pointer_render.
  destruct (find_tokens jv ts1) as [r ec] eqn:Hfind. simpl. intros -> Hn.
  by apply (find_tokens_app _ _ _ _ _ _ Hfind).
Qed.

(** [set_at_pointer] through [render ts1 +:+ render ts2], where the first
    part resolves: the call on the node, with its result put in the
    node's place. *)
Lemma set_at_pointer_app opts ts1 ts2 jv q n ref :
  resolves jv (render ts1) q →
  deref jv q = Some n →
  set_at_pointer jv (render ts1 +:+ render ts2) ref opts
  = (assign jv q (set_at_pointer n (render ts2) ref opts).1,
     outcome_map (app q) (set_at_pointer n (render ts2) ref opts).2).
Proof.
  unfold resolves. rewrite <-render_app, find_pointer_render.
  destruct (find_tokens jv ts1) as [r ec] eqn:Hfind. simpl. intros -> Hn.
  rewrite !set_at_pointer_tokens.
  rewrite (set_tokens_app opts _ ts2 _ _ _ _ Hfind Hn).
  destruct (set_tokens opts n ts2) as [[n' [p|]] ec']; cbn; [|done].
  rewrite (assign_app (assign jv q n') q p n').
  - by rewrite assign_assign.
  - apply deref_assign. by eexists.
Qed.

(** *** One pointer after another *)

Lemma slash_led_spec sv :
  slash_led sv = true → ∀ c s, sv = String c s → c = "/"%char.
Proof. intros Hsv c s ->. by apply Ascii.eqb_eq. Qed.

Lemma scan_segment_app_aux (n : nat) s seg rest sv2 :
  (String.length s ≤ n)%nat →
  slash_led sv2 = true →
  scan_segment s = (seg, rest, None) →
  scan_segment (s +:+ sv2) = (seg, rest +:+ sv2, None).
Proof.
  intros Hn Hled. pose proof (slash_led_spec _ Hled) as Hsv2.
  clear Hled. revert s seg rest Hn.
  induction n as [|n IH]; intros s seg rest Hn.
  { destruct s; simpl in *; [|lia]. intros [= <- <-].
    destruct sv2 as [|c sv2]; [done|].
    rewrite (Hsv2 c sv2 eq_refl). done. }
  destruct s as [|c s].
  { intros [= <- <-]. destruct sv2 as [|c sv2]; [done|].
    rewrite (Hsv2 c sv2 eq_refl). done. }
  change (String c s +:+ sv2) with (String c (s +:+ sv2)).
  cbn [scan_segment].
  destruct (Ascii.eqb c "/"); [by intros [= <- <-]|].
  destruct (Ascii.eqb c "~").
  - destruct s as [|c' s]; [by unfold FAIL|].
    change (String c' s +:+ sv2) with (String c' (s +:+ sv2)).
    destruct (_ || _) eqn:Hesc; [|by unfold FAIL].
    destruct (scan_segment s) as [[seg' rest'] ec'] eqn:Hs.
    intros [= <- <- ->]. rewrite (IH s seg' rest'); [by rewrite Hesc| |done].
    simpl in Hn. lia.
  - destruct (scan_segment s) as [[seg' rest'] ec'] eqn:Hs.
    intros [= <- <- ->]. rewrite (IH s seg' rest'); [done| |done].
    simpl in Hn. lia.
Qed.

Lemma next_segment_app sv1 sv2 segment rest :
  slash_led sv2 = true →
  next_segment sv1 None = (segment, rest, None) →
  segment ≠ "" →
  next_segment (sv1 +:+ sv2) None = (segment, rest +:+ sv2, None).
Proof.
  intros Hsv2. destruct sv1 as [|c s]; [by intros [= <- <-]|].
  change (String c s +:+ sv2) with (String c (s +:+ sv2)).
  cbn [next_segment].
  destruct (Ascii.eqb c "/"); [|done].
  destruct (scan_segment s) as [[seg' rest'] ec'] eqn:Hs.
  destruct ec' as [e|]; [done|]. intros [= <- <-] _.
  by rewrite (scan_segment_app_aux _ s seg' rest' sv2 (le_n _) Hsv2 Hs).
Qed.

(** More iterations than the loop needs change nothing. *)
Lemma find_walk_mono fuel fuel' result segment sv ec r :
  find_walk fuel result segment sv ec = Some r →
  (fuel ≤ fuel')%nat →
  find_walk fuel' result segment sv ec = Some r.
Proof.
  revert fuel' result segment sv ec r.
  induction fuel as [|fuel IH]; intros fuel' result segment sv ec r; [done|].
  intros Hwalk Hle. destruct fuel' as [|fuel']; [lia|].
  simpl in *. destruct (failed ec); [done|].
  destruct result as [jv|]; [|done].
  destruct (bool_decide (segment = "")); [done|].
  destruct jv; try done.
  - destruct (parse_number_token segment ec) as [idx ec1].
    destruct (next_segment sv ec1) as [[segment' sv'] ec2].
    destruct (find_walk fuel _ segment' sv' ec2) as [x|] eqn:Hrec; [|done].
    by rewrite (IH fuel' _ _ _ _ _ Hrec) by lia.
  - destruct (next_segment sv ec) as [[segment' sv'] ec2].
    destruct (find_walk fuel _ segment' sv' ec2) as [x|] eqn:Hrec; [|done].
    by rewrite (IH fuel' _ _ _ _ _ Hrec) by lia.
Qed.

Lemma set_walk_mono opts fuel fuel' jv segment sv ec r :
  set_walk opts fuel jv segment sv ec = Some r →
  (fuel ≤ fuel')%nat →
  set_walk opts fuel' jv segment sv ec = Some r.
Proof.
  revert fuel' jv segment sv ec r.
  induction fuel as [|fuel IH]; intros fuel' jv segment sv ec r; [done|].
  intros Hwalk Hle. destruct fuel' as [|fuel']; [lia|].
  simpl in *. destruct (failed ec); [done|].
  destruct (bool_decide (segment = "")); [done|].
  assert (match set_on_scalar opts jv segment with
          | (jv', true) => set_walk opts fuel jv' segment sv ec
          | (jv', false) => Some (jv', None, FAIL value_is_scalar)
          end = Some r →
          match set_on_scalar opts jv segment with
          | (jv', true) => set_walk opts fuel' jv' segment sv ec
          | (jv', false) => Some (jv', None, FAIL value_is_scalar)
          end = Some r) as Hscalar.
  { destruct (set_on_scalar opts jv segment) as [jv' []]; [|done].
    intros Hrec. by rewrite (IH fuel' _ _ _ _ _ Hrec) by lia. }
  destruct jv; try (by apply Hscalar).
  - destruct (parse_number_token segment ec) as [idx ec1].
    destruct (next_segment sv ec1) as [[segment' sv'] ec2].
    destruct (set_on_array opts arr idx ec2) as [[arr' [i|]] ec3]; [|done].
    destruct (set_walk opts fuel _ segment' sv' ec3) as [x|] eqn:Hrec; [|done].
    by rewrite (IH fuel' _ _ _ _ _ Hrec) by lia.
  - destruct (next_segment sv ec) as [[segment' sv'] ec2].
    destruct (set_walk opts fuel _ segment' sv' ec2) as [x|] eqn:Hrec; [|done].
    by rewrite (IH fuel' _ _ _ _ _ Hrec) by lia.
Qed.

Lemma next_segment_failed sv ec segment rest ec' :
  next_segment sv ec = (segment, rest, ec') → failed ec = true →
  failed ec' = true.
Proof.
  destruct sv as [|c s]; [by intros [= <- <- <-]|]. cbn [next_segment].
  destruct (Ascii.eqb c "/"); [|by intros [= <- <- <-]].
  destruct (scan_segment s) as [[seg' rest'] ec''].
  intros [= <- <- <-] Hec. by destruct (failed ec'') eqn:Hec''.
Qed.

Lemma find_walk_from_none fuel segment sv ec q ec' :
  find_walk fuel None segment sv ec ≠ Some (Some q, ec').
Proof. destruct fuel; [done|]. simpl. by destruct (failed ec). Qed.

(** The walk through [sv1 +:+ sv2], where [sv1] resolves, is the walk
    through [sv2] from the node [sv1] resolves to. *)
Lemma find_walk_app sv2 fuel :
  slash_led sv2 = true →
  ∀ fuel' sv1 jv q ec' n,
  (let '(sg, sv, ec) := next_segment sv1 None in
   find_walk fuel (Some jv) sg sv ec) = Some (Some q, ec') →
  deref jv q = Some n →
  (String.length sv1 + String.length sv2 < fuel')%nat →
  (let '(sg, sv, ec) := next_segment (sv1 +:+ sv2) None in
   find_walk fuel' (Some jv) sg sv ec)
  = Some (option_map (app q) (find_pointer n sv2).1, (find_pointer n sv2).2).
Proof.
  intros Hsv2. induction fuel as [|fuel IH]; intros fuel' sv1 jv q ec' n.
  { by destruct (next_segment sv1 None) as [[sg sv] ec]. }
  destruct (next_segment sv1 None) as [[sg sv] ec] eqn:Hnext.
  cbn [find_walk]. destruct (failed ec) eqn:Hec; [done|].
  apply failed_false in Hec as ->.
  destruct (bool_decide (sg = "")) eqn:Hsg.
  { apply bool_decide_eq_true in Hsg as ->.
    intros [= <- <-] [= <-] Hlt.
    apply next_segment_end in Hnext as ->; [|done].
    change ("" +:+ sv2) with sv2.
    destruct (next_segment sv2 None) as [[sg2 rest2] ec2] eqn:Hnext2.
    rewrite (find_walk_mono _ fuel' _ _ _ _ _
               (find_pointer_walk jv sv2 _ _ _ Hnext2))
      by (unfold walk_fuel; simpl in Hlt; lia).
    rewrite option_map_app_nil. by destruct (find_pointer jv sv2). }
  apply bool_decide_eq_false in Hsg.
  pose proof (next_segment_length _ _ _ _ _ Hnext) as Hlen.
  assert (0 < String.length sg)%nat as Hpos by (destruct sg; [done|simpl; lia]).
  intros Hwalk Hn Hlt.
  rewrite (next_segment_app _ _ _ _ Hsv2 Hnext Hsg).
  destruct fuel' as [|fuel']; [lia|].
  cbn [find_walk failed].
  rewrite (bool_decide_eq_false_2 (sg = "")) by done.
  destruct jv; try done.
  - destruct (parse_number_token sg None) as [idx ec1] eqn:Hparse.
    destruct (next_segment sv ec1) as [[sg' sv'] ec2] eqn:Hnext'.
    destruct (find_walk fuel _ sg' sv' ec2) as [[[q'|] ec3]|] eqn:Hrec;
      try done.
    injection Hwalk as <- <-.
    destruct (failed ec2) eqn:Hec2;
      [by destruct (find_walk_from_none _ _ _ _ _ _ Hrec)|].
    destruct ec1 as [e|];
      [by rewrite (next_segment_failed _ _ _ _ _ Hnext') in Hec2|].
    destruct (if_contains arr idx) as [child|] eqn:Hchild;
      [|by destruct (find_walk_from_none _ _ _ _ _ _ Hrec)].
    assert (arr !! N.to_nat idx = Some child) as Hlookup.
    { unfold if_contains in Hchild. by destruct (_ <? _)%N. }
    cbn [deref] in Hn. rewrite Hlookup in Hn. cbn in Hn.
    specialize (IH fuel' sv child q' ec3 n).
    rewrite Hnext', Hrec in IH. specialize (IH eq_refl Hn ltac:(lia)).
    destruct (next_segment (sv +:+ sv2) None) as [[sg2 sv2'] ec2'] eqn:Hnext2.
    destruct (failed ec2') eqn:Hec2'.
    + rewrite find_walk_stops in IH |- * by (done || lia).
      injection IH as Hnone Hcode. rewrite <-Hcode.
      by destruct ((find_pointer n sv2).1).
    + rewrite IH. by rewrite option_map_cons_app.
  - destruct (next_segment sv None) as [[sg' sv'] ec2] eqn:Hnext'.
    destruct (find_walk fuel _ sg' sv' ec2) as [[[q'|] ec3]|] eqn:Hrec;
      try done.
    injection Hwalk as <- <-.
    destruct (obj !! pointer_token sg) as [child|] eqn:Hchild;
      [|by destruct (find_walk_from_none _ _ _ _ _ _ Hrec)].
    cbn [deref] in Hn. rewrite Hchild in Hn. cbn in Hn.
    specialize (IH fuel' sv child q' ec3 n).
    rewrite Hnext', Hrec in IH. specialize (IH eq_refl Hn ltac:(lia)).
    destruct (next_segment (sv +:+ sv2) None) as [[sg2 sv2'] ec2'] eqn:Hnext2.
    rewrite IH. by rewrite option_map_cons_app.
Qed.

Lemma next_segment_codes sv segment rest ec :
  next_segment sv None = (segment, rest, ec) →
  ec ≠ FAIL past_the_end.
Proof.
  destruct sv as [|c s]; [by intros [= <- <- <-]|]. cbn [next_segment].
  destruct (Ascii.eqb c "/"); [|by intros [= <- <- <-]].
  destruct (scan_segment s) as [[seg' rest'] ec'] eqn:Hs.
  intros [= <- <- <-].
  by apply (scan_segment_error_aux _ _ _ _ _ (le_n _)) in Hs as [-> | ->].
Qed.

(** The creating walk through [sv1 +:+ sv2], where [sv1] resolves, is the
    creating walk through [sv2] from the node [sv1] resolves to, with the
    node it builds put in that node's place. *)
Lemma set_walk_app opts sv2 fuel :
  slash_led sv2 = true →
  ∀ fuel' sv1 jv q ec' n,
  (let '(sg, sv, ec) := next_segment sv1 None in
   find_walk fuel (Some jv) sg sv ec) = Some (Some q, ec') →
  deref jv q = Some n →
  (2 * (String.length sv1 + String.length sv2) + 2 ≤ fuel')%nat →
  (let '(sg, sv, ec) := next_segment (sv1 +:+ sv2) None in
   set_walk opts fuel' jv sg sv ec)
  = set_walk_at jv q
      (let '(sg, sv, ec) := next_segment sv2 None in
       set_walk opts (set_fuel sv2) n sg sv ec).
Proof.
  intros Hsv2. induction fuel as [|fuel IH]; intros fuel' sv1 jv q ec' n.
  { by destruct (next_segment sv1 None) as [[sg sv] ec]. }
  destruct (next_segment sv1 None) as [[sg sv] ec] eqn:Hnext.
  cbn [find_walk]. destruct (failed ec) eqn:Hec; [done|].
  apply failed_false in Hec as ->.
  destruct (bool_decide (sg = "")) eqn:Hsg.
  { apply bool_decide_eq_true in Hsg as ->.
    intros [= <- <-] [= <-] Hlt.
    apply next_segment_end in Hnext as ->; [|done].
    change ("" +:+ sv2) with sv2.
    destruct (next_segment sv2 None) as [[sg2 rest2] ec2] eqn:Hnext2.
    destruct (set_at_pointer_ends opts jv sv2 _ _ _ Hnext2) as [[[w r] e] Hset].
    rewrite (set_walk_mono _ _ fuel' _ _ _ _ _ Hset)
      by (unfold set_fuel; simpl in Hlt; lia).
    rewrite Hset. cbn. by rewrite option_map_app_nil. }
  apply bool_decide_eq_false in Hsg.
  pose proof (next_segment_length _ _ _ _ _ Hnext) as Hlen.
  assert (0 < String.length sg)%nat as Hpos by (destruct sg; [done|simpl; lia]).
  intros Hwalk Hn Hlt.
  rewrite (next_segment_app _ _ _ _ Hsv2 Hnext Hsg).
  destruct fuel' as [|fuel']; [lia|].
  cbn [set_walk failed].
  rewrite (bool_decide_eq_false_2 (sg = "")) by done.
  destruct jv; try done.
  - destruct (parse_number_token sg None) as [idx ec1] eqn:Hparse.
    destruct (next_segment sv ec1) as [[sg' sv'] ec2] eqn:Hnext'.
    destruct (find_walk fuel _ sg' sv' ec2) as [[[q'|] ec3]|] eqn:Hrec;
      try done.
    injection Hwalk as <- <-.
    destruct (failed ec2) eqn:Hec2;
      [by destruct (find_walk_from_none _ _ _ _ _ _ Hrec)|].
    destruct ec1 as [e|];
      [by rewrite (next_segment_failed _ _ _ _ _ Hnext') in Hec2|].
    destruct (if_contains arr idx) as [child|] eqn:Hchild;
      [|by destruct (find_walk_from_none _ _ _ _ _ _ Hrec)].
    assert ((idx <? N.of_nat (length arr))%N = true
            ∧ arr !! N.to_nat idx = Some child) as [Hidx Hlookup].
    { unfold if_contains in Hchild. by destruct (_ <? _)%N. }
    cbn [deref] in Hn. rewrite Hlookup in Hn. cbn in Hn.
    specialize (IH fuel' sv child q' ec3 n).
    rewrite Hnext', Hrec in IH. specialize (IH eq_refl Hn ltac:(lia)).
    destruct (next_segment (sv +:+ sv2) None) as [[sg2 sv2'] ec2'] eqn:Hnext2.
    destruct (next_segment sv2 None) as [[sg0 sv0] ec0] eqn:Hnext0.
    destruct (set_walk opts (set_fuel sv2) n sg0 sv0 ec0)
      as [[[w r] e]|] eqn:Hset.
    2:{ by destruct (set_at_pointer_ends opts n sv2 _ _ _ Hnext0) as [x Hx];
          rewrite Hx in Hset. }
    cbn [set_walk_at] in IH |- *. cbn [assign]. rewrite Hlookup.
    destruct (failed ec2') eqn:Hec2'.
    + rewrite set_walk_stops in IH by (done || lia).
      injection IH as Hw Hr He. subst e.
      assert (set_on_array opts arr idx ec2' = (arr, None, ec2')) as ->.
      { unfold set_on_array. rewrite Hec2'.
        rewrite (bool_decide_eq_false_2 (ec2' = FAIL past_the_end))
          by (by eapply next_segment_codes).
        done. }
      rewrite Hec2', <-Hw, list_insert_id by done.
      by destruct r.
    + apply failed_false in Hec2' as ->.
      rewrite set_on_array_inside by done.
      rewrite (list_lookup_total_correct _ _ _ Hlookup), IH.
      by rewrite option_map_cons_app.
  - destruct (next_segment sv None) as [[sg' sv'] ec2] eqn:Hnext'.
    destruct (find_walk fuel _ sg' sv' ec2) as [[[q'|] ec3]|] eqn:Hrec;
      try done.
    injection Hwalk as <- <-.
    destruct (obj !! pointer_token sg) as [child|] eqn:Hchild;
      [|by destruct (find_walk_from_none _ _ _ _ _ _ Hrec)].
    cbn [deref] in Hn. rewrite Hchild in Hn. cbn in Hn.
    specialize (IH fuel' sv child q' ec3 n).
    rewrite Hnext', Hrec in IH. specialize (IH eq_refl Hn ltac:(lia)).
    destruct (next_segment (sv +:+ sv2) None) as [[sg2 sv2'] ec2'] eqn:Hnext2.
    cbn [default from_option id]. rewrite IH.
    destruct (next_segment sv2 None) as [[sg0 sv0] ec0] eqn:Hnext0.
    destruct (set_walk opts (set_fuel sv2) n sg0 sv0 ec0)
      as [[[w r] e]|] eqn:Hset; [|done].
    cbn [set_walk_at assign]. rewrite Hchild.
    by rewrite option_map_cons_app.
Qed.

(** [find_pointer] through one pointer after another, where the first
    resolves. *)
Lemma find_pointer_after sv1 sv2 jv q n :
  resolves jv sv1 q →
  deref jv q = Some n →
  slash_led sv2 = true →
  find_pointer jv (sv1 +:+ sv2)
  = (option_map (app q) (find_pointer n sv2).1, (find_pointer n sv2).2).
Proof.
  intros Hres Hn Hsv2.
  apply find_pointer_arrives in Hres as [_ Hfind].
  destruct (next_segment_cases sv1 None) as (sg & sv & ec & Hnext).
  pose proof (find_pointer_walk jv sv1 _ _ _ Hnext) as Hwalk.
  rewrite Hfind in Hwalk.
  pose proof (find_walk_app sv2 (walk_fuel sv1) Hsv2
                (walk_fuel (sv1 +:+ sv2)) sv1 jv q None n) as Happ.
  rewrite Hnext in Happ. specialize (Happ Hwalk Hn).
  unfold find_pointer at 1.
  destruct (next_segment (sv1 +:+ sv2) None) as [[sg2 sv2'] ec2].
  rewrite Happ; [done|].
  unfold walk_fuel. rewrite string_length_app. lia.
Qed.

(** [set_at_pointer] through one pointer after another, where the first
    resolves: the call on the node, with its result put in the node's
    place. *)
Lemma set_at_pointer_after opts sv1 sv2 jv q n ref :
  resolves jv sv1 q →
  deref jv q = Some n →
  slash_led sv2 = true →
  set_at_pointer jv (sv1 +:+ sv2) ref opts
  = (assign jv q (set_at_pointer n sv2 ref opts).1,
     outcome_map (app q) (set_at_pointer n sv2 ref opts).2).
Proof.
  intros Hres Hn Hsv2.
  apply find_pointer_arrives in Hres as [_ Hfind].
  destruct (next_segment_cases sv1 None) as (sg & sv & ec & Hnext).
  pose proof (find_pointer_walk jv sv1 _ _ _ Hnext) as Hwalk.
  rewrite Hfind in Hwalk.
  pose proof (set_walk_app opts sv2 (walk_fuel sv1) Hsv2
                (set_fuel (sv1 +:+ sv2)) sv1 jv q None n) as Happ.
  rewrite Hnext in Happ. specialize (Happ Hwalk Hn).
  unfold set_at_pointer, set_at_pointer_ec.
  destruct (next_segment (sv1 +:+ sv2) None) as [[sg2 sv2'] ec2].
  rewrite Happ by (unfold set_fuel; rewrite string_length_app; lia).
  destruct (next_segment sv2 None) as [[sg0 sv0] ec0] eqn:Hnext0.
  destruct (set_at_pointer_ends opts n sv2 _ _ _ Hnext0) as [[[w r] e] ->].
  cbn [set_walk_at]. destruct r as [p|]; cbn; [|done].
  rewrite (assign_app (assign jv q w) q p w).
  - by rewrite assign_assign.
  - apply deref_assign. by eexists.
Qed.

(** The creating walk keeps the way to every node apart from the one it
    arrives at. *)
Lemma set_tokens_keeps_walk opts ts2 ts1 jv w p ec q ec2 new :
  find_tokens jv ts2 = (Some q, ec2) →
  set_tokens opts jv ts1 = (w, Some p, ec) →
  apart p q →
  find_tokens (assign w p new) ts2 = (Some q, ec2).
Proof.
  revert ts1 jv w p ec q ec2.
  induction ts2 as [|t ts2 IH]; intros ts1 jv w p ec q ec2.
  { simpl. intros [= <- <-] _ Hpq. by destruct (apart_nil_r p). }
  cbn [find_tokens]. destruct jv; try done.
  - destruct (parse_number_token (segment_of t) None) as [idx ec1] eqn:Hparse.
    destruct (failed ec1) eqn:Hec1; [done|].
    unfold if_contains. destruct (_ <? _)%N eqn:Hlt; [|done].
    destruct (arr !! N.to_nat idx) as [child|] eqn:Hchild; [|done].
    destruct (find_tokens child ts2) as [[q'|] ec'] eqn:Hfind; [|done].
    intros [= <- <-].
    destruct ts1 as [|t1 ts1].
    { simpl. intros [= <- <- <-] Hpq. by destruct (apart_nil_l (index (N.to_nat idx) :: q')). }
    rewrite set_tokens_array.
    destruct (parse_number_token (segment_of t1) None) as [idx1 ec3].
    destruct (set_on_array opts arr idx1 ec3) as [[arr' [i|]] ec4] eqn:Harr;
      [|done].
    destruct (set_tokens opts (arr' !!! i) ts1) as [[c' [p'|]] ec5] eqn:Hset;
      [|done].
    intros [= <- <- <-] Hpq.
    pose proof (set_on_array_arrives _ _ _ _ _ _ _ Harr) as [_ Hi].
    apply set_on_array_grows in Harr as [k ->].
    assert ((idx <? N.of_nat (length (arr ++ replicate k JNull)))%N = true)
      as Hlt'.
    { apply N.ltb_lt in Hlt. apply N.ltb_lt. rewrite length_app. lia. }
    cbn [assign find_tokens]. rewrite list_lookup_insert_eq by done.
    rewrite list_insert_insert_eq.
    unfold if_contains. rewrite length_insert, Hlt'.
    destruct (decide (i = N.to_nat idx)) as [->|Hne].
    + rewrite list_lookup_insert_eq by done.
      rewrite (list_lookup_total_correct _ _ child) in Hset
        by (by apply lookup_app_l_Some).
      by rewrite (IH _ _ _ _ _ _ _ Hfind Hset (apart_cons_inv _ _ _ Hpq)).
    + rewrite list_lookup_insert_ne by done.
      by rewrite (lookup_app_l_Some _ _ _ _ Hchild), Hfind.
  - destruct (obj !! t) as [child|] eqn:Hchild; [|done].
    destruct (find_tokens child ts2) as [[q'|] ec'] eqn:Hfind; [|done].
    intros [= <- <-].
    destruct ts1 as [|t1 ts1].
    { simpl. intros [= <- <- <-] Hpq. by destruct (apart_nil_l (key t :: q')). }
    rewrite set_tokens_object.
    destruct (set_tokens opts (default JNull (obj !! t1)) ts1)
      as [[c' [p'|]] ec5] eqn:Hset; [|done].
    intros [= <- <- <-] Hpq.
    cbn [assign find_tokens]. rewrite lookup_insert_eq, insert_insert_eq.
    destruct (decide (t1 = t)) as [->|Hne].
    + rewrite lookup_insert_eq. rewrite Hchild in Hset.
      by rewrite (IH _ _ _ _ _ _ _ Hfind Hset (apart_cons_inv _ _ _ Hpq)).
    + rewrite lookup_insert_ne by done. by rewrite Hchild, Hfind.
Qed.

(** *** The syntax of pointers *)

(** A rendered token list has the syntax of a JSON pointer. *)
Lemma escapes_valid_escape t rest :
  escapes_valid (escape t +:+ rest) = escapes_valid rest.
Proof.
  induction t as [|c t IH]; [done|]. cbn [escape].
  destruct (Ascii.eqb c "~") eqn:Htilde.
  { change (escapes_valid (String "~" (String "0" (escape t +:+ rest)))
            = escapes_valid rest).
    cbn. by rewrite IH. }
  destruct (Ascii.eqb c "/") eqn:Hslash.
  { change (escapes_valid (String "~" (String "1" (escape t +:+ rest)))
            = escapes_valid rest).
    cbn. by rewrite IH. }
  change (escapes_valid (String c (escape t +:+ rest)) = escapes_valid rest).
  cbn [escapes_valid]. by rewrite Htilde, IH.
Qed.

Lemma render_well_formed ts : well_formed (render ts) = true.
Proof.
  unfold well_formed. apply andb_true_iff. split; [by destruct ts|].
  induction ts as [|t ts IH]; [done|].
  change (escapes_valid (String "/" (escape t +:+ render ts)) = true).
  cbn [escapes_valid]. by rewrite escapes_valid_escape, IH.
Qed.

End ComposeFacts.

(** ** Laws of the accessors beyond the contract *)

Module AccessorLaws.
Import Json Pointer Conversion Accessor Tokens TestSuite.
Import AddressFacts WalkFacts LibraryFacts ConversionFacts EmplaceFacts.
Import ComposeFacts AccessorSpec.

Section OneTag.
Context {Type_ : Type} `{!JsonType Type_}.
Variable Key : string.

(** X1.  Where the path resolves and the value converts back from the node
    it converts to, [write] returns true and both [read] and [try_read] of
    the document after it give the value written. *)
Theorem write_then_read jv p (v : Type_) :
  resolves jv Key p →
  try_value_to (value_from v) = Ok v →
  (write Key jv v).2 = true
  ∧ read Key (write Key jv v).1 = Returns v
  ∧ try_read Key (write Key jv v).1 = Ok v.
Proof.
  intros Hres Hv. pose proof (find_pointer_arrives _ _ _ Hres) as [Hp _].
  rewrite (write_resolved _ _ _ _ Hres). cbn [fst snd].
  pose proof (find_pointer_assign _ _ _ (value_from v) Hres) as Hres'.
  rewrite (read_resolved _ _ _ Hres'), (try_read_resolved _ _ _ Hres').
  unfold pointee, value_to. rewrite (deref_assign _ _ _ Hp).
  change (default JNull (Some (value_from v))) with (value_from v).
  by rewrite Hv.
Qed.

(** X2.  The last [write] wins: a [write] after a [write] under the same tag
    gives what the second one alone gives, document and result, whether the
    path resolves or not; the same with the null sentinel on either side. *)
Theorem last_write_wins jv (v1 v2 : Type_) :
  write Key (write Key jv v1).1 v2 = write Key jv v2
  ∧ write_null Key (write Key jv v1).1 = write_null Key jv
  ∧ write Key (write_null Key jv).1 v2 = write Key jv v2.
Proof.
  destruct (resolves_or_not jv Key) as [[p Hres]|Hun].
  - rewrite !(write_resolved _ _ _ _ Hres), (write_null_resolved _ _ _ Hres).
    cbn [fst].
    rewrite (write_resolved _ _ _ _ (find_pointer_assign _ _ _ _ Hres)).
    rewrite (write_null_resolved _ _ _ (find_pointer_assign _ _ _ _ Hres)).
    rewrite (write_resolved _ _ _ _ (find_pointer_assign _ _ _ _ Hres)).
    by rewrite !assign_assign.
  - apply find_pointer_fails in Hun as [e Hfind].
    unfold write, write_null, TagPath. rewrite !Hfind. cbn [fst].
    by rewrite !Hfind.
Qed.

(** X4.  Where the path resolves, every overload of [emplace] leaves the
    document the matching overload of [write] leaves, and returns the node
    the path resolves to: nothing is created. *)
Theorem emplace_is_write_where_resolved jv p (v : Type_) :
  resolves jv Key p →
  emplace Key jv v = ((write Key jv v).1, Returns p)
  ∧ emplace_move Key jv v = ((write_move Key jv v).1, Returns p)
  ∧ emplace_null Key jv = ((write_null Key jv).1, Returns p).
Proof.
  intros Hres.
  assert (write_move Key jv v = write Key jv v) as -> by done.
  rewrite (write_resolved _ _ _ _ Hres), (write_null_resolved _ _ _ Hres).
  unfold emplace, emplace_move, emplace_null, TagPath.
  by rewrite !(set_at_pointer_resolved _ _ _ _ _ Hres).
Qed.

End OneTag.

Section TwoTags.
Context {Type1 Type2 : Type} `{!JsonType Type1} `{!JsonType Type2}.
Variables Key1 Key2 : string.

(** X3.  Two tags whose paths resolve to nodes neither of which lies inside
    the other are independent: a [write] under the first leaves the second
    resolving to the same node with the same content, so [read] and
    [try_read] of the second give what they gave, and writes under the two
    tags give the same document in either order. *)
Theorem write_leaves_other_tags jv p q (v1 : Type1) (v2 : Type2) :
  resolves jv Key1 p →
  resolves jv Key2 q →
  apart p q →
  reference Key2 (write Key1 jv v1).1 = Some q
  ∧ read (Type_:=Type2) Key2 (write Key1 jv v1).1 = read Key2 jv
  ∧ try_read (Type_:=Type2) Key2 (write Key1 jv v1).1 = try_read Key2 jv
  ∧ (write Key2 (write Key1 jv v1).1 v2).1
    = (write Key1 (write Key2 jv v2).1 v1).1.
Proof.
  intros Hp Hq Hpq.
  pose proof (find_pointer_not_above _ _ _ _ (value_from v1)
                (apart_not_above _ _ Hpq) Hq) as Hq'.
  pose proof (find_pointer_not_above _ _ _ _ (value_from v2)
                (apart_not_above _ _ (apart_sym _ _ Hpq)) Hp) as Hp'.
  rewrite (write_resolved _ _ _ _ Hp), (write_resolved _ _ _ _ Hq). cbn [fst].
  rewrite (write_resolved _ _ _ _ Hq'), (write_resolved _ _ _ _ Hp'). cbn [fst].
  split; [by apply reference_resolves|].
  rewrite (read_resolved _ _ _ Hq'), (read_resolved _ _ _ Hq).
  rewrite (try_read_resolved _ _ _ Hq'), (try_read_resolved _ _ _ Hq).
  unfold pointee. rewrite (deref_assign_apart _ _ _ _ Hpq).
  split; [done|]. split; [done|]. by apply assign_apart_comm.
Qed.

End TwoTags.

Section WellFormedTag.
Context {Type_ : Type} `{!JsonType Type_}.

(** X5.  After [emplace] returned, for a well-formed path without
    past-the-end token and a value that converts back from the node it
    converts to, [reference] returns the node [emplace] returned and [read]
    and [try_read] give the value: what [emplace] created is what the path
    resolves to. *)
Theorem emplace_then_read ts jv (v : Type_) jv' p :
  past_the_end_token ∉ ts →
  try_value_to (value_from v) = Ok v →
  emplace (render ts) jv v = (jv', Returns p) →
  reference (render ts) jv' = Some p
  ∧ read (render ts) jv' = Returns v
  ∧ try_read (render ts) jv' = Ok v.
Proof.
  intros Hts Hv Hemplace.
  apply set_at_pointer_returns in Hemplace as (Hp & Hres & _).
  specialize (Hres Hts). split; [by apply reference_resolves|].
  rewrite (read_resolved _ _ _ Hres), (try_read_resolved _ _ _ Hres).
  unfold pointee, value_to. rewrite Hp.
  change (default JNull (Some (value_from v))) with (value_from v).
  by rewrite Hv.
Qed.

(** X6.  The last [emplace] wins, for a well-formed path without
    past-the-end token: an [emplace] after an [emplace] under the same tag
    gives what the second one alone gives, with a value or the null
    sentinel; and after an [emplace] that returned, [write] returns true and
    leaves the document an [emplace] of its value would have left. *)
Theorem last_emplace_wins ts jv (v1 v2 : Type_) :
  past_the_end_token ∉ ts →
  emplace (render ts) (emplace (render ts) jv v1).1 v2
  = emplace (render ts) jv v2
  ∧ emplace_null (render ts) (emplace (render ts) jv v1).1
    = emplace_null (render ts) jv
  ∧ emplace (render ts) (emplace_null (render ts) jv).1 v2
    = emplace (render ts) jv v2
  ∧ (∀ p, (emplace (render ts) jv v1).2 = Returns p →
       write (render ts) (emplace (render ts) jv v1).1 v2
       = ((emplace (render ts) jv v2).1, true)).
Proof.
  intros Hts. unfold emplace, emplace_null, TagPath.
  rewrite !(set_at_pointer_twice _ _ _ _ _ Hts).
  split; [done|]. split; [done|]. split; [done|].
  intros p Hp.
  destruct (set_at_pointer jv (render ts) (value_from v1) default_options)
    as [jv' r] eqn:Hfirst.
  simpl in Hp. subst r.
  pose proof (set_at_pointer_returns _ _ _ _ _ _ Hfirst) as (_ & Hres & _).
  specialize (Hres Hts). cbn [fst].
  rewrite (write_resolved _ _ _ _ Hres).
  pose proof (set_at_pointer_twice default_options ts jv (value_from v1)
                (value_from v2) Hts) as Htwice.
  rewrite Hfirst in Htwice. cbn [fst] in Htwice.
  rewrite (set_at_pointer_resolved _ _ _ _ _ Hres) in Htwice.
  by rewrite <-Htwice.
Qed.

End WellFormedTag.

(** X8.  [emplace] with the null sentinel, for a well-formed path: it
    returns exactly where the way can be made, at the address the way
    spells, and throws anywhere else; whenever it returns, the node it
    returns holds null, the path, without past-the-end token, resolves to
    that node, and every address apart from it holds what it held, with a
    null at each position where an array was padded and nothing besides; on
    the null document with tokens that name members it builds the objects
    the tokens name, one inside the other, around null; and without
    past-the-end token a second call changes nothing. *)
Theorem emplace_null_creates_path ts :
  (∀ jv,
     match way jv ts with
     | Some p => ∃ jv', emplace_null (render ts) jv = (jv', Returns p)
     | None => ∃ jv' e, pointer_use_error e = true
                        ∧ emplace_null (render ts) jv = (jv', Throws (FAIL e))
     end)
  ∧ (∀ jv jv' p, emplace_null (render ts) jv = (jv', Returns p) →
       deref jv' p = Some JNull
       ∧ (past_the_end_token ∉ ts → resolves jv' (render ts) p)
       ∧ (∀ q, apart p q → deref jv' q = off_path jv p q)
       ∧ (∀ d, deref d p = Some JNull →
               (∀ q, apart p q → deref d q = off_path jv p q) →
               d = jv'))
  ∧ (forallb names_member ts = true →
     emplace_null (render ts) JNull = (nest ts JNull, Returns (key <$> ts)))
  ∧ (past_the_end_token ∉ ts →
     ∀ jv, emplace_null (render ts) (emplace_null (render ts) jv).1
           = emplace_null (render ts) jv).
Proof.
  unfold emplace_null, TagPath. split; [|split; [|split]].
  - intros jv. apply set_at_pointer_way.
  - intros jv jv' p Hset.
    pose proof (set_at_pointer_returns _ _ _ _ _ _ Hset)
      as (Hp & Hres & Hframe).
    split; [done|]. split; [done|]. split; [done|].
    intros d Hd Hoff. apply (deref_determines p _ _ JNull); [done..|].
    intros q Hq. by rewrite Hoff, Hframe.
  - intros Hts. rewrite set_at_pointer_tokens, (set_tokens_nest _ Hts).
    by rewrite assign_nest.
  - intros Hts jv. by apply set_at_pointer_twice.
Qed.

Section PathSyntax.
Context {Type_ : Type} `{!JsonType Type_}.

(** X14.  A key that does not begin with a slash resolves in no document:
    every accessor reports [missing_slash] through its channel, and none of
    them, [emplace] included, changes the document. *)
Theorem key_without_leading_slash c s jv (v : Type_) :
  c ≠ "/"%char →
  read (Type_:=Type_) (String c s) jv = Throws (FAIL missing_slash)
  ∧ try_read (Type_:=Type_) (String c s) jv = Err (FAIL missing_slash)
  ∧ write (String c s) jv v = (jv, false)
  ∧ write_null (String c s) jv = (jv, false)
  ∧ reference (String c s) jv = None
  ∧ emplace (String c s) jv v = (jv, Throws (FAIL missing_slash))
  ∧ emplace_null (String c s) jv = (jv, Throws (FAIL missing_slash)).
Proof.
  intros Hc.
  assert (next_segment (String c s) None
          = ("", String c s, FAIL missing_slash)) as Hnext.
  { simpl. destruct (Ascii.eqb c "/") eqn:Heq; [|done].
    by apply Ascii.eqb_eq in Heq. }
  assert (find_pointer jv (String c s) = (None, FAIL missing_slash)) as Hfind.
  { unfold find_pointer. rewrite Hnext.
    by rewrite find_walk_stops by (done || unfold walk_fuel; lia). }
  assert (∀ ref, set_at_pointer jv (String c s) ref default_options
                 = (jv, Throws (FAIL missing_slash))) as Hset.
  { intros ref. unfold set_at_pointer, set_at_pointer_ec. rewrite Hnext.
    by rewrite set_walk_stops by (done || unfold set_fuel; lia). }
  unfold read, try_read, write, write_null, reference, emplace, emplace_null,
    at_pointer, TagPath.
  by rewrite !Hfind, !Hset.
Qed.

(** X15.  The empty key addresses the document itself: [read] converts the
    whole document, [write] and [emplace] replace it, [reference] returns
    its address. *)
Theorem empty_key_is_the_document jv (v : Type_) :
  read (Type_:=Type_) "" jv = value_to jv
  ∧ try_read (Type_:=Type_) "" jv = try_value_to jv
  ∧ write "" jv v = (value_from v, true)
  ∧ write_null "" jv = (JNull, true)
  ∧ reference "" jv = Some []
  ∧ emplace "" jv v = (value_from v, Returns [])
  ∧ emplace_null "" jv = (JNull, Returns []).
Proof. done. Qed.

(** X9.  Keys compose.  Where the key [Key1] resolves to a node and [Key2]
    is empty or begins with a slash, the tag with the key [Key1] followed
    by [Key2] acts on the document as the tag with the key [Key2] acts on
    that node taken as a document: [reference], [read] and [try_read] give
    what they give there, errors included, and [write] and [emplace] put
    the node they leave there in its place. *)
Theorem key_after_key Key1 Key2 jv q (v : Type_) :
  resolves jv Key1 q →
  slash_led Key2 = true →
  reference (Key1 +:+ Key2) jv
  = option_map (app q) (reference Key2 (pointee jv q))
  ∧ read (Type_:=Type_) (Key1 +:+ Key2) jv = read Key2 (pointee jv q)
  ∧ try_read (Type_:=Type_) (Key1 +:+ Key2) jv
    = try_read Key2 (pointee jv q)
  ∧ write (Key1 +:+ Key2) jv v
    = (assign jv q (write Key2 (pointee jv q) v).1,
       (write Key2 (pointee jv q) v).2)
  ∧ emplace (Key1 +:+ Key2) jv v
    = (assign jv q (emplace Key2 (pointee jv q) v).1,
       outcome_map (app q) (emplace Key2 (pointee jv q) v).2).
Proof.
  intros Hres Hled.
  pose proof (find_pointer_arrives _ _ _ Hres) as [[n Hn] _].
  unfold pointee. rewrite Hn.
  change (default JNull (Some n)) with n.
  pose proof (find_pointer_after Key1 Key2 jv q n Hres Hn Hled) as Hfind.
  unfold reference, read, try_read, write, at_pointer, emplace, TagPath.
  rewrite (set_at_pointer_after _ _ _ _ _ _ _ Hres Hn Hled), Hfind.
  destruct (find_pointer n Key2) as [[p|] ec] eqn:Hfind2; cbn.
  - unfold pointee. rewrite deref_app, Hn. cbn.
    rewrite (assign_app _ _ _ _ _ Hn). done.
  - by rewrite (assign_id _ _ _ Hn).
Qed.

(** X18.  Under a key that does not have the syntax of a JSON pointer (a
    key that is not empty and does not begin with a slash, or has a tilde
    that is followed by neither 0 nor 1), no accessor gets anywhere, in any
    document: [reference] returns null, [read] throws and [try_read]
    returns the same JSON Pointer error, [write] returns false and changes
    nothing, and [emplace] throws. *)
Theorem malformed_key_never_succeeds Key jv (v : Type_) :
  well_formed Key = false →
  reference Key jv = None
  ∧ (∃ ec, NotFound ec
           ∧ read (Type_:=Type_) Key jv = Throws ec
           ∧ try_read (Type_:=Type_) Key jv = Err ec)
  ∧ write Key jv v = (jv, false)
  ∧ write_null Key jv = (jv, false)
  ∧ (∃ jv' ec, emplace Key jv v = (jv', Throws ec))
  ∧ (∃ jv' ec, emplace_null Key jv = (jv', Throws ec)).
Proof.
  intros Hkey.
  assert (∀ ts, Key ≠ render ts) as Hts.
  { intros ts ->. by rewrite render_well_formed in Hkey. }
  assert (unresolved jv Key) as Hun.
  { destruct (resolves_or_not jv Key) as [[p Hres]|Hun]; [|done].
    apply resolves_rendered in Hres as [ts ->]. by destruct (Hts ts). }
  assert (∀ ref, ∃ jv' ec, set_at_pointer jv Key ref default_options
                            = (jv', Throws ec)) as Hset.
  { intros ref.
    destruct (set_at_pointer jv Key ref default_options)
      as [jv' [p|ec]] eqn:Hset;
      [|by eauto].
    apply set_at_pointer_rendered in Hset as [ts ->]. by destruct (Hts ts). }
  split; [by apply reference_unresolved|].
  split.
  { apply find_pointer_not_found in Hun as (ec & Hec & Hfind).
    exists ec. unfold read, try_read, at_pointer, TagPath. by rewrite Hfind. }
  apply find_pointer_fails in Hun as [e Hfind].
  unfold write, write_null, emplace, emplace_null, TagPath. rewrite Hfind.
  split; [done|]. split; [done|]. split; apply Hset.
Qed.

(** X12.  In front of an array, the past-the-end token resolves to nothing,
    so [reference] returns null and [write] returns false and changes
    nothing, while [emplace] appends the value to the array and returns the
    new last element. *)
Theorem past_the_end_appends ts jv q arr (v : Type_) :
  resolves jv (render ts) q →
  deref jv q = Some (JArray arr) →
  reference (render (ts ++ [past_the_end_token])) jv = None
  ∧ write (render (ts ++ [past_the_end_token])) jv v = (jv, false)
  ∧ emplace (render (ts ++ [past_the_end_token])) jv v
    = (assign jv q (JArray (arr ++ [value_from v])),
       Returns (q ++ [index (length arr)])).
Proof.
  intros Hres Hn. rewrite render_app.
  pose proof (find_pointer_app ts [past_the_end_token] jv q _ Hres Hn) as Hfind.
  unfold reference, write, emplace, TagPath.
  rewrite (set_at_pointer_app _ _ _ _ _ _ _ Hres Hn), Hfind.
  rewrite find_pointer_render, set_at_pointer_tokens.
  split; [done|]. split; [done|].
  rewrite set_tokens_array.
  change (parse_number_token (segment_of past_the_end_token) None)
    with (0%N, FAIL past_the_end).
  cbv beta iota.
  assert (set_on_array default_options arr 0 (FAIL past_the_end)
          = (arr ++ [JNull], Some (length arr), None)) as ->.
  { unfold set_on_array. cbn [failed FAIL negb andb].
    rewrite bool_decide_eq_true_2 by done. cbn [negb andb].
    rewrite N.leb_refl, N.sub_diag, Nat2N.id. done. }
  cbn [set_tokens option_map outcome_map fst snd assign].
  rewrite list_lookup_insert_eq by (rewrite length_app; simpl; lia).
  rewrite !list_insert_insert_eq.
  assert (<[length arr:=value_from v]> (arr ++ [JNull])
          = arr ++ [value_from v]) as ->.
  { rewrite insert_app_r_alt by done. by rewrite Nat.sub_diag. }
  done.
Qed.

(** X13.  A node that is neither object nor array ends a path that goes on
    behind it: [reference] returns null, [read] throws and [try_read]
    returns [value_is_scalar], [write] returns false; [emplace] throws
    [value_is_scalar] too and leaves the document as it was, unless the node
    is null. *)
Theorem scalar_in_the_way ts1 t ts2 jv q n (v : Type_) :
  resolves jv (render ts1) q →
  deref jv q = Some n →
  scalar_weight n = 1%nat →
  reference (render (ts1 ++ t :: ts2)) jv = None
  ∧ read (Type_:=Type_) (render (ts1 ++ t :: ts2)) jv
    = Throws (FAIL value_is_scalar)
  ∧ try_read (Type_:=Type_) (render (ts1 ++ t :: ts2)) jv
    = Err (FAIL value_is_scalar)
  ∧ write (render (ts1 ++ t :: ts2)) jv v = (jv, false)
  ∧ (n ≠ JNull →
     emplace (render (ts1 ++ t :: ts2)) jv v
     = (jv, Throws (FAIL value_is_scalar))).
Proof.
  intros Hres Hn Hscalar. rewrite render_app.
  pose proof (find_pointer_app ts1 (t :: ts2) jv q _ Hres Hn) as Hfind.
  unfold reference, read, try_read, write, at_pointer, emplace, TagPath.
  rewrite (set_at_pointer_app _ _ _ _ _ _ _ Hres Hn), Hfind.
  rewrite find_pointer_render, set_at_pointer_tokens.
  assert (find_tokens n (t :: ts2) = (None, FAIL value_is_scalar)) as ->
    by (by destruct n).
  repeat (split; [done|]). intros Hnull.
  rewrite set_tokens_scalar by done.
  assert (set_on_scalar default_options n (segment_of t) = (n, false)) as ->
    by (by destruct n).
  cbn. by rewrite (assign_id _ _ _ Hn).
Qed.

(** X10.  In front of an object, a token is the name of a member, whatever
    characters it has: where the member exists the path resolves to it;
    where it does not, [reference] returns null, [read] throws and
    [try_read] returns [not_found], [write] returns false and changes
    nothing, and [emplace] adds exactly that member, holding the value. *)
Theorem member_of_object ts t jv q obj (v : Type_) :
  resolves jv (render ts) q →
  deref jv q = Some (JObject obj) →
  (is_Some (obj !! t) → reference (render (ts ++ [t])) jv = Some (q ++ [key t]))
  ∧ (obj !! t = None →
     reference (render (ts ++ [t])) jv = None
     ∧ read (Type_:=Type_) (render (ts ++ [t])) jv = Throws (FAIL not_found)
     ∧ try_read (Type_:=Type_) (render (ts ++ [t])) jv = Err (FAIL not_found)
     ∧ write (render (ts ++ [t])) jv v = (jv, false))
  ∧ emplace (render (ts ++ [t])) jv v
    = (assign jv q (JObject (<[t := value_from v]> obj)),
       Returns (q ++ [key t])).
Proof.
  intros Hres Hn. rewrite render_app.
  pose proof (find_pointer_app ts [t] jv q _ Hres Hn) as Hfind.
  unfold reference, read, try_read, write, at_pointer, emplace, TagPath.
  rewrite (set_at_pointer_app _ _ _ _ _ _ _ Hres Hn), Hfind.
  rewrite find_pointer_render, set_at_pointer_tokens.
  rewrite set_tokens_object. cbn [find_tokens set_tokens].
  split; [|split].
  - intros [child ->]. done.
  - intros ->. done.
  - cbn. by rewrite lookup_insert_eq, insert_insert_eq.
Qed.

(** X11.  In front of an array, a token that parses as the number [idx] is a
    position: inside the array the path resolves to that element and
    [try_read] converts it; from the length on, [reference] returns null,
    [read] throws and [try_read] returns [not_found] and [write] returns
    false; at the length itself [emplace] appends the value. A token that is
    not a number resolves to nothing, and [emplace] throws
    [token_not_number] too and leaves the document as it was. *)
Theorem element_of_array ts t idx jv q arr (v : Type_) :
  resolves jv (render ts) q →
  deref jv q = Some (JArray arr) →
  (parse_number_token (segment_of t) None = (idx, None) →
     (∀ elt, arr !! N.to_nat idx = Some elt →
        reference (render (ts ++ [t])) jv = Some (q ++ [index (N.to_nat idx)])
        ∧ try_read (Type_:=Type_) (render (ts ++ [t])) jv = try_value_to elt)
     ∧ ((N.of_nat (length arr) ≤ idx)%N →
        reference (render (ts ++ [t])) jv = None
        ∧ read (Type_:=Type_) (render (ts ++ [t])) jv = Throws (FAIL not_found)
        ∧ try_read (Type_:=Type_) (render (ts ++ [t])) jv = Err (FAIL not_found)
        ∧ write (render (ts ++ [t])) jv v = (jv, false))
     ∧ (idx = N.of_nat (length arr) →
        emplace (render (ts ++ [t])) jv v
        = (assign jv q (JArray (arr ++ [value_from v])),
           Returns (q ++ [index (length arr)]))))
  ∧ (parse_number_token (segment_of t) None = (idx, FAIL token_not_number) →
     reference (render (ts ++ [t])) jv = None
     ∧ try_read (Type_:=Type_) (render (ts ++ [t])) jv
       = Err (FAIL token_not_number)
     ∧ write (render (ts ++ [t])) jv v = (jv, false)
     ∧ emplace (render (ts ++ [t])) jv v
       = (jv, Throws (FAIL token_not_number))).
Proof.
  intros Hres Hn. rewrite render_app.
  pose proof (find_pointer_app ts [t] jv q _ Hres Hn) as Hfind.
  unfold reference, read, try_read, write, at_pointer, emplace, TagPath.
  rewrite (set_at_pointer_app _ _ _ _ _ _ _ Hres Hn), Hfind.
  rewrite find_pointer_render, set_at_pointer_tokens.
  rewrite set_tokens_array. cbn [find_tokens].
  split; intros ->; cbn [failed FAIL].
  - split; [|split].
    + intros elt Helt.
      assert ((idx <? N.of_nat (length arr))%N = true) as Hlt
        by (apply lookup_lt_Some in Helt; apply N.ltb_lt; lia).
      unfold if_contains. rewrite Hlt, Helt. cbn.
      split; [done|]. unfold pointee. rewrite deref_app, Hn. cbn.
      by rewrite Helt.
    + intros Hge. unfold if_contains.
      by rewrite (proj2 (N.ltb_ge _ _)) by done.
    + intros ->.
      assert (set_on_array default_options arr (N.of_nat (length arr)) None
              = (arr ++ [JNull], Some (length arr), None)) as ->.
      { unfold set_on_array. cbn [failed negb andb].
        rewrite bool_decide_eq_false_2 by done.
        rewrite N.leb_refl, N.sub_diag, Nat2N.id. done. }
      cbn [set_tokens option_map outcome_map fst snd assign].
      rewrite list_lookup_insert_eq by (rewrite length_app; simpl; lia).
      rewrite !list_insert_insert_eq.
      assert (<[length arr:=value_from v]> (arr ++ [JNull])
              = arr ++ [value_from v]) as ->.
      { rewrite insert_app_r_alt by done. by rewrite Nat.sub_diag. }
      done.
  - repeat (split; [done|]).
    assert (set_on_array default_options arr idx (FAIL token_not_number)
            = (arr, None, FAIL token_not_number)) as -> by done.
    cbn. by rewrite (assign_id _ _ _ Hn).
Qed.

End PathSyntax.

Section OtherTags.
Context {Type1 Type2 : Type} `{!JsonType Type1} `{!JsonType Type2}.

(** X7.  An [emplace] that returns leaves every other tag alone whose path
    resolved to a node apart from the one [emplace] returns: that path
    resolves to the same node with the same content, and [read] and
    [try_read] under it give what they gave. *)
Theorem emplace_leaves_other_tags ts1 ts2 jv jv' p q (v : Type1) :
  emplace (render ts1) jv v = (jv', Returns p) →
  resolves jv (render ts2) q →
  apart p q →
  reference (render ts2) jv' = Some q
  ∧ deref jv' q = deref jv q
  ∧ read (Type_:=Type2) (render ts2) jv' = read (render ts2) jv
  ∧ try_read (Type_:=Type2) (render ts2) jv' = try_read (render ts2) jv.
Proof.
  intros Hemplace Hq Hpq.
  pose proof (find_pointer_arrives _ _ _ Hq) as [[n Hn] Hfind].
  pose proof (set_at_pointer_returns _ _ _ _ _ _ Hemplace) as (_ & _ & Hframe).
  assert (deref jv' q = deref jv q) as Hsame.
  { rewrite (Hframe q Hpq). unfold off_path. by rewrite Hn. }
  assert (resolves jv' (render ts2) q) as Hq'.
  { unfold emplace, TagPath in Hemplace.
    rewrite set_at_pointer_tokens in Hemplace.
    destruct (set_tokens default_options jv ts1) as [[w [p'|]] ec] eqn:Hwalk;
      [|done].
    injection Hemplace as <- <-.
    rewrite find_pointer_render in Hfind.
    unfold resolves. rewrite find_pointer_render.
    by rewrite (set_tokens_keeps_walk _ _ _ _ _ _ _ _ _ _ Hfind Hwalk Hpq). }
  split; [by apply reference_resolves|]. split; [done|].
  rewrite (read_resolved _ _ _ Hq'), (read_resolved _ _ _ Hq).
  rewrite (try_read_resolved _ _ _ Hq'), (try_read_resolved _ _ _ Hq).
  unfold pointee. by rewrite Hsame.
Qed.

End OtherTags.

(** *** The bound value types of the test suite *)

Lemma try_elements_strings (arr : list value) (vs : list string) :
  try_elements arr = Ok vs ↔ arr = JString <$> vs.
Proof.
  revert vs. induction arr as [|jv arr IH]; intros vs; simpl.
  { split; [by intros [= <-]|]. by destruct vs. }
  destruct jv;
    try (split; [done|by destruct vs as [|s' vs]; intros [= ]]).
  destruct (try_elements arr) as [vs'|ec] eqn:Htail.
  - split.
    + intros [= <-]. rewrite fmap_cons. f_equal. by apply IH.
    + destruct vs as [|s' vs]; [done|]. rewrite fmap_cons.
      intros [= -> Harr]. apply IH in Harr. by simplify_eq.
  - split; [done|]. destruct vs as [|s' vs]; [done|]. rewrite fmap_cons.
    intros [= -> Harr]. apply IH in Harr. done.
Qed.

Lemma try_elements_inverts {T} `{!JsonType T} (vs : list T) :
  (∀ v : T, try_value_to (value_from v) = Ok v) →
  try_elements (value_from <$> vs) = Ok vs.
Proof.
  intros Hv. induction vs as [|v vs IH]; [done|].
  rewrite fmap_cons. cbn [try_elements]. by rewrite Hv, IH.
Qed.

(** X16.  For the bound value types of the tests, a value converts to a node
    that converts back to it: every string, every [int], every vector of
    strings; the node an [int] converts to holds a signed integer of the
    range of [int]. *)
Theorem conversions_invert :
  (∀ s : string, try_value_to (value_from s) = Ok s)
  ∧ (∀ i : int, try_value_to (value_from i) = Ok i)
  ∧ (∀ vs : list string, try_value_to (value_from vs) = Ok vs)
  ∧ (∀ i : int,
       ∃ z, value_from i = JInt64 z ∧ (INT_MIN ≤ z ≤ INT_MAX)%Z).
Proof.
  split; [done|].
  assert (∀ i : int, try_value_to (value_from i) = Ok i) as Hint.
  { intros i. simpl. by rewrite int_exact_value. }
  split; [done|]. split.
  - intros vs. by apply (try_elements_inverts vs).
  - intros [z Hz]. exists z. split; [done|].
    unfold int_range in Hz. apply Is_true_true, andb_true_iff in Hz.
    destruct Hz as [Hmin%Z.leb_le Hmax%Z.leb_le]. done.
Qed.

(** X17.  Under a tag bound to a vector of strings, [try_read] and [read]
    give a vector exactly when the node the path resolves to is the array of
    exactly those strings: no element is skipped or converted. *)
Theorem read_vector_of_strings Key jv p (vs : list string) :
  resolves jv Key p →
  (try_read Key jv = Ok vs ↔ pointee jv p = JArray (JString <$> vs))
  ∧ (read Key jv = Returns vs ↔ pointee jv p = JArray (JString <$> vs)).
Proof.
  intros Hres.
  rewrite (try_read_resolved _ _ _ Hres), (read_resolved _ _ _ Hres).
  unfold value_to. simpl.
  destruct (pointee jv p) as [|b|i|u|d|s|arr|obj];
    try (repeat split; intros H; simpl in H; by simplify_eq).
  assert (JArray arr = JArray (JString <$> vs) ↔ try_elements arr = Ok vs)
    as Harr.
  { rewrite try_elements_strings. split; [by intros [= ->]|by intros ->]. }
  rewrite Harr. split; [done|].
  destruct (try_elements arr) as [vs'|ec]; simpl;
    split; intros H; by simplify_eq.
Qed.

Lemma write_then_read_witness :
  (write UserAge template_json (Int 100 I)).2 = true
  ∧ read UserAge (write UserAge template_json (Int 100 I)).1
    = Returns (Int 100 I)
  ∧ try_read UserAge (write UserAge template_json (Int 100 I)).1
    = Ok (Int 100 I).
Proof.
  apply (write_then_read UserAge template_json user_age (Int 100 I));
    vm_compute; reflexivity.
Defined.

Lemma emplace_is_write_where_resolved_witness :
  emplace UserName template_json "SuperAlice"
  = ((write UserName template_json "SuperAlice").1, Returns user_name).
Proof.
  apply (proj1 (emplace_is_write_where_resolved UserName template_json
                  user_name "SuperAlice" ltac:(vm_compute; reflexivity))).
Defined.

Lemma write_leaves_other_tags_witness :
  reference UserAge (write UserName template_json "SuperAlice").1
  = Some user_age
  ∧ read (Type_:=int) UserAge (write UserName template_json "SuperAlice").1
    = read UserAge template_json.
Proof.
  assert (apart user_name user_age) as Hapart
    by (split; intros [k Hk]; discriminate Hk).
  destruct (write_leaves_other_tags (Type2:=int) UserName UserAge template_json
              user_name user_age "SuperAlice" (Int 100 I)
              ltac:(vm_compute; reflexivity) ltac:(vm_compute; reflexivity)
              Hapart) as (Href & Hread & _).
  split; [exact Href|exact Hread].
Defined.

Lemma emplace_then_read_witness :
  reference UserAge (emplace UserAge json_2 (Int 100 I)).1 = Some user_age
  ∧ read UserAge (emplace UserAge json_2 (Int 100 I)).1 = Returns (Int 100 I)
  ∧ try_read UserAge (emplace UserAge json_2 (Int 100 I)).1 = Ok (Int 100 I).
Proof.
  apply (emplace_then_read ["user"; "age"] json_2 (Int 100 I)
           (emplace UserAge json_2 (Int 100 I)).1 user_age).
  - apply (bool_decide_unpack _). vm_compute. exact I.
  - vm_compute; reflexivity.
  - vm_compute; reflexivity.
Defined.

Lemma last_emplace_wins_witness :
  emplace UserName (emplace UserName json_2 "Alice").1 "SuperAlice"
  = emplace UserName json_2 "SuperAlice".
Proof.
  apply (proj1 (last_emplace_wins user_name_tokens json_2 "Alice" "SuperAlice"
                  ltac:(apply (bool_decide_unpack _); vm_compute; exact I))).
Defined.

Lemma emplace_null_creates_path_witness :
  emplace_null UserName json_2
  = (JObject {[ "user" := JObject {[ "name" := JNull ]} ]}, Returns user_name).
Proof.
  destruct (emplace_null_creates_path user_name_tokens)
    as (_ & _ & Hnest & _).
  exact (Hnest ltac:(vm_compute; reflexivity)).
Defined.

Lemma read_vector_of_strings_witness :
  try_read UserLangs template_json = Ok ["C++"; "Python"; "Haskell"; "Rust"].
Proof.
  apply (proj1 (read_vector_of_strings UserLangs template_json user_languages
                  ["C++"; "Python"; "Haskell"; "Rust"]
                  ltac:(vm_compute; reflexivity))).
  vm_compute; reflexivity.
Defined.

Lemma key_without_leading_slash_witness :
  read (Type_:=string) "user/name" template_json = Throws (FAIL missing_slash)
  ∧ emplace "user/name" template_json "SuperAlice"
    = (template_json, Throws (FAIL missing_slash)).
Proof.
  destruct (key_without_leading_slash "u" "ser/name" template_json "SuperAlice"
              ltac:(discriminate)) as (Hread & _ & _ & _ & _ & Hemplace & _).
  split; [exact Hread|exact Hemplace].
Defined.

Lemma key_after_key_witness :
  read (Type_:=string) UserName template_json
  = read "/name" (pointee template_json [key "user"]).
Proof.
  destruct (key_after_key "/user" "/name" template_json [key "user"]
              "SuperAlice" ltac:(vm_compute; reflexivity) eq_refl)
    as (_ & Hread & _).
  exact Hread.
Defined.

Lemma past_the_end_appends_witness :
  reference "/user/languages/-" template_json = None
  ∧ deref (emplace "/user/languages/-" template_json "Rocq").1
      (user_languages ++ [index 4])
    = Some (JString "Rocq").
Proof.
  destruct (past_the_end_appends ["user"; "languages"] template_json
              user_languages
              [JString "C++"; JString "Python"; JString "Haskell"; JString "Rust"]
              "Rocq" ltac:(vm_compute; reflexivity) ltac:(vm_compute; reflexivity))
    as (Href & _ & Hemplace).
  split; [exact Href|].
  change (render (["user"; "languages"] ++ [past_the_end_token]))
    with "/user/languages/-" in Hemplace.
  rewrite Hemplace. vm_compute; reflexivity.
Defined.

Lemma scalar_in_the_way_witness :
  try_read (Type_:=string) "/user/name/first" template_json
  = Err (FAIL value_is_scalar)
  ∧ emplace "/user/name/first" template_json "Alice"
    = (template_json, Throws (FAIL value_is_scalar)).
Proof.
  destruct (scalar_in_the_way user_name_tokens "first" [] template_json
              user_name (JString "Alice") "Alice"
              ltac:(vm_compute; reflexivity) ltac:(vm_compute; reflexivity)
              ltac:(reflexivity)) as (_ & _ & Htry & _ & Hemplace).
  split; [exact Htry|]. apply Hemplace. discriminate.
Defined.

Lemma member_of_object_witness :
  reference "/user/email" template_json = None
  ∧ (emplace "/user/email" template_json "alice@example.org").2
    = Returns [key "user"; key "email"].
Proof.
  assert (∃ obj, deref template_json [key "user"] = Some (JObject obj)
                 ∧ obj !! "email" = None) as (obj & Hobj & Hnone)
    by (eexists; split; vm_compute; reflexivity).
  destruct (member_of_object ["user"] "email" template_json [key "user"] obj
              "alice@example.org" ltac:(vm_compute; reflexivity) Hobj)
    as (_ & Hmissing & Hemplace).
  destruct (Hmissing Hnone) as (Href & _).
  split; [exact Href|].
  change (render (["user"] ++ ["email"])) with "/user/email" in Hemplace.
  by rewrite Hemplace.
Defined.

Lemma emplace_leaves_other_tags_witness :
  reference UserAge (emplace "/user/email" template_json "alice@example.org").1
  = Some user_age
  ∧ read (Type_:=int) UserAge
      (emplace "/user/email" template_json "alice@example.org").1
    = read UserAge template_json.
Proof.
  assert (apart [key "user"; key "email"] user_age) as Hapart
    by (split; intros [k Hk]; discriminate Hk).
  destruct (emplace_leaves_other_tags (Type2:=int) ["user"; "email"]
              ["user"; "age"] template_json
              (emplace "/user/email" template_json "alice@example.org").1
              [key "user"; key "email"] user_age "alice@example.org"
              ltac:(vm_compute; reflexivity) ltac:(vm_compute; reflexivity)
              Hapart) as (Href & _ & Hread & _).
  split; [exact Href|exact Hread].
Defined.

Lemma element_of_array_witness :
  reference "/user/languages/1" template_json
  = Some (user_languages ++ [index 1])
  ∧ try_read (Type_:=string) "/user/languages/1" template_json = Ok "Python".
Proof.
  destruct (element_of_array (Type_:=string) ["user"; "languages"] "1" 1%N
              template_json user_languages
              [JString "C++"; JString "Python"; JString "Haskell"; JString "Rust"]
              "Rocq" ltac:(vm_compute; reflexivity) ltac:(vm_compute; reflexivity))
    as (Hnumber & _).
  destruct (Hnumber ltac:(vm_compute; reflexivity)) as (Hinside & _).
  exact (Hinside (JString "Python") eq_refl).
Defined.

Lemma malformed_key_never_succeeds_witness :
  reference "/user/na~me" template_json = None
  ∧ write "/user/na~me" template_json "SuperAlice" = (template_json, false).
Proof.
  destruct (malformed_key_never_succeeds "/user/na~me" template_json
              "SuperAlice" ltac:(vm_compute; reflexivity))
    as (Href & _ & Hwrite & _).
  split; [exact Href|exact Hwrite].
Defined.

End AccessorLaws.
